(** * Resumable chunked upload engine of react-native-nitro-cloud-uploader

    A shallow embedding of the two native implementations of the
    [NitroCloudUploader] hybrid object:

    - [IOS]: ios/NitroCloudUploader.swift (classes [NitroCloudUploader] and
      [UploadSession]);
    - [Android]: the Kotlin class [NitroCloudUploader] (coroutine based).

    Byte quantities ([Int64], [Long]) are integers of [Z]; chunk indexes,
    part numbers and counts are [nat].  The [Double] arguments and event
    fields are rationals of [Q] (every finite double is one).  Dictionaries
    are [gmap]s, Swift and Kotlin sets are [gset]s.  Asynchronous callbacks
    (URLSession delegate calls, coroutine completions, path updates) are
    explicit steps on the uploader state, taken one at a time. *)

From Stdlib Require Import ZArith Lia QArith_base Ascii String.
From stdpp Require Import base option list gmap strings sorting pretty.

Open Scope Z_scope.

(** ** Interface types (NitroCloudUploader.nitro.ts) *)

Record UploadProgressEvent := {
  ev_type : string;
  ev_uploadId : string;
  ev_progress : option Q;
  ev_bytesUploaded : option Z;
  ev_totalBytes : option Z;
  ev_chunkIndex : option nat;
  ev_errorMessage : option string
}.

Record UploadResult := {
  res_uploadId : string;
  res_success : bool;
  res_etags : list string
}.

Record UploadState := {
  us_uploadId : string;
  us_state : string;
  us_progress : Q;
  us_bytesUploaded : Z;
  us_totalBytes : Z;
  us_isPaused : bool;
  us_isNetworkAvailable : bool
}.

(** A listener closure handed to [addListener], identified by a handle. *)
Abbreviation Callback := nat.

(** An event carrying only its type and upload id. *)
Definition plainEvent (type uploadId : string) : UploadProgressEvent :=
  {| ev_type := type; ev_uploadId := uploadId; ev_progress := None;
     ev_bytesUploaded := None; ev_totalBytes := None; ev_chunkIndex := None;
     ev_errorMessage := None |}.

(** [Double(a) / Double(b)] for a positive [b]. *)
Definition ratio (a b : Z) : Q :=
  match b with
  | Z.pos p => Qmake a p
  | _ => Qmake 0 1
  end.

(** A finite double rounded toward zero.  What the platforms make of the
    result is theirs: [Int(_:)] of Swift traps outside the range of [Int]
    ([IOS.intOf]), [toInt()] of Kotlin saturates ([Android.toInt]).  The
    numbers passed from JavaScript are taken to be finite: NaN and the
    infinities are not values of [Q]. *)
Definition truncate (d : Q) : Z := Qnum d ÷ Z.pos (Qden d).

(** The event bus is the same on both platforms: a dictionary from event
    type to the listeners registered under it, in registration order. *)
Abbreviation Listeners := (gmap string (list Callback)).

(** [addListener]: Swift creates the empty array when the key is missing and
    appends; Kotlin does [getOrPut(eventType) { mutableListOf() }.add]. *)
Definition addListener (eventType : string) (callback : Callback)
    (eventListeners : Listeners) : Listeners :=
  <[eventType := default [] (eventListeners !! eventType) ++ [callback]]>
    eventListeners.

(** [removeListener]: [eventListeners[eventType] = nil] and
    [eventListeners.remove(eventType)]. *)
Definition removeListener (eventType : string) (eventListeners : Listeners)
    : Listeners :=
  delete eventType eventListeners.

(** [emitEvent]: the callbacks invoked, in order.  A callback that throws is
    caught and logged, so the later ones still run. *)
Definition emitEvent (eventListeners : Listeners) (event : UploadProgressEvent)
    : list (Callback * UploadProgressEvent) :=
  ((λ callback, (callback, event)) <$>
     default [] (eventListeners !! ev_type event)) ++
  ((λ callback, (callback, event)) <$>
     default [] (eventListeners !! "all"%string)).

(** ** iOS: ios/NitroCloudUploader.swift

    The session does its work in blocks on a serial queue ([pause()],
    [resume()], [cancel()], the dispatch of [uploadNextChunks()] and the
    delegate callback each queue one).  A function of the session below is
    the block it queues, and the calls of the uploader run the block where
    they queue it: they describe the executions in which the queue is idle
    when a call comes.  [beginStart], [beginUpload] and the functions
    ending in [At] are the exceptions, and say so. *)

Module IOS.

(** The [NSError]s thrown, one constructor per message; [StagingError] is
    what [FileHandle] or [Data.write] throws in [uploadChunk(at:)].
    [RuntimeTrap] is no error value of the source: it stands for a runtime
    trap of Swift (a [Double] that does not convert to an integer), which
    ends the process where the model returns it. *)
Inductive Error :=
| UploadIdEmpty
| FilePathEmpty
| UploadUrlsEmpty
| AlreadyInProgress (existing : string)
| NoActiveUpload
| InvalidFilePath
| FileNotFound (decodedPath : string)
| NoFileSize
| FileTooSmall (fileSize : Z) (count : nat) (requiredMinimumSize : Z)
| ChunkFailed (index : nat)
| TransportError (description : string)
| InvalidURL
| StagingError (description : string)
| RuntimeTrap.

Definition localizedDescription (e : Error) : string :=
  match e with
  | UploadIdEmpty => "Upload ID cannot be empty"
  | FilePathEmpty => "File path cannot be empty"
  | UploadUrlsEmpty => "Upload URLs cannot be empty"
  | AlreadyInProgress existing => "Upload already in progress: " +:+ existing
  | NoActiveUpload => "No active upload found"
  | InvalidFilePath => "Invalid file path"
  | FileNotFound decodedPath => "File not found: " +:+ decodedPath
  | NoFileSize => "Could not get file size"
  | FileTooSmall fileSize count required =>
      "File size (" +:+ pretty fileSize +:+ " bytes) is too small for " +:+
      pretty count +:+ " chunks. Minimum required: " +:+ pretty required +:+
      " bytes (5 MB per chunk except last)"
  | ChunkFailed index => "Chunk " +:+ pretty index +:+ " failed"
  | TransportError description => description
  | InvalidURL => "Invalid URL"
  | StagingError description => description
  | RuntimeTrap => "Fatal error"
  end%string.

Inductive State := idle | uploading | paused | completed | failed | cancelled.

Definition rawValue (s : State) : string :=
  match s with
  | idle => "idle" | uploading => "uploading" | paused => "paused"
  | completed => "completed" | failed => "failed" | cancelled => "cancelled"
  end.

#[global] Instance State_eq_dec : EqDecision State.
Proof. solve_decision. Defined.

(** What the session is told when a [URLSessionTask] finishes: the transport
    error if any, else the response, which may fail the cast to
    [HTTPURLResponse]. *)
Inductive TaskOutcome :=
| DidFail (description : string)
| NoHTTPResponse
| DidRespond (statusCode : Z) (allHeaderFields : gmap string string).

(** The file system as [UploadSession.init] sees it: [None] when
    [fileExists] is false, else the [.size] attribute when it casts to
    [Int64]. *)
Record Env := {
  removingPercentEncoding : string → option string;
  attributesOfItem : string → option (option Z)
}.

Definition minimumChunkSize : Z := 5 * 1024 * 1024.

(** *** Arithmetic on [Double]

    A finite double is a whole number [m] of at most 53 bits times a power
    of two.  The quotients of two [Int64] are far from the largest and the
    smallest doubles, so overflow and subnormal numbers do not occur. *)

(** The whole number nearest to [num / den], the even one of two that are
    equally near; [den] is positive. *)
Definition roundHalfEven (num den : Z) : Z :=
  let q := num / den in
  let r := num `mod` den in
  if 2 * r <? den then q
  else if den <? 2 * r then q + 1
  else if Z.even q then q else q + 1.

(** The double nearest to [num / den] for positive [num] and [den]: the
    pair [(m, e)] stands for [m * 2^e], the exponent being the one that
    gives the quotient 53 bits before rounding. *)
Definition nearestDouble (num den : Z) : Z * Z :=
  let k := Z.log2 num - Z.log2 den in
  let e := if den * 2 ^ Z.max 0 k <=? num * 2 ^ Z.max 0 (- k)
           then k - 52 else k - 53 in
  (roundHalfEven (num * 2 ^ Z.max 0 (- e)) (den * 2 ^ Z.max 0 e), e).

(** [Double(z)] for an integer [z]: the value of the nearest double, a
    whole number again, and [z] itself below 2^53. *)
Definition doubleOfInt (z : Z) : Z :=
  if Z.abs z <? 2 ^ 53 then z
  else
    let '(m, e) := nearestDouble (Z.abs z) 1 in Z.sgn z * (m * 2 ^ e).

(** [ceil(Double(a) / Double(b))], a double that is a whole number; [None]
    when the quotient is infinite or not a number, which is when [b] is 0. *)
Definition ceilOfQuotient (a b : Z) : option Z :=
  let x := doubleOfInt a in
  let y := doubleOfInt b in
  if y =? 0 then None
  else if x =? 0 then Some 0
  else
    let '(m, e) := nearestDouble (Z.abs x) (Z.abs y) in
    let signed := if xorb (x <? 0) (y <? 0) then - m else m in
    Some (if 0 <=? e then signed * 2 ^ e else - ((- signed) / 2 ^ (- e))).

(** [Int64(x)] and [Int(x)] for a double [x] that is a whole number: the
    conversion traps outside the range of the type ([None]). *)
Definition int64Of (x : Z) : option Z :=
  if (- 2 ^ 63 <=? x) && (x <? 2 ^ 63) then Some x else None.

(** [Int(d)] for a finite double: rounds toward zero, and traps when the
    result is outside the range of [Int]. *)
Definition intOf (d : Q) : option Z := int64Of (truncate d).

(** [Int64(ceil(Double(fileSize) / Double(uploadUrls.count)))]; [None] when
    the conversion traps. *)
Definition calculatedChunkSize (fileSize : Z) (count : nat) : option Z :=
  ceilOfQuotient fileSize (Z.of_nat count) ≫= int64Of.

(** [max(calculatedChunkSize, minimumChunkSize)] *)
Definition chunkSizeFor (fileSize : Z) (count : nat) : option Z :=
  (λ calculated, Z.max calculated minimumChunkSize)
    <$> calculatedChunkSize fileSize count.

Definition requiredMinimumSize (count : nat) : Z :=
  (Z.of_nat count - 1) * minimumChunkSize.

Record UploadSession := {
  uploadId : string;
  uploadUrls : list string;
  totalBytes : Z;
  maxParallel : Z;
  chunkSize : Z;
  (** keys of [activeTasks: [Int: URLSessionTask]] *)
  activeTasks : gset nat;
  completedChunks : gset nat;
  etags : list string;
  state : State;
  bytesUploaded : Z;
  isPaused : bool;
  hasResumedContinuation : bool;
  (** what [continuation?.resume] was called with, once it was *)
  resumedWith : option (Error + UploadResult)
}.

Definition progress (s : UploadSession) : Q :=
  if 0 <? totalBytes s then ratio (bytesUploaded s) (totalBytes s)
  else Qmake 0 1.

(** [UploadSession.init].  The chunk size is computed before the size of
    the file is checked, so a trap of the conversion comes first; the
    product [Int64(uploadUrls.count - 1) * minimumChunkSize] traps when it
    overflows. *)
Definition init (env : Env) (uploadId filePath : string)
    (uploadUrls : list string) (maxParallel : Z) : Error + UploadSession :=
  match removingPercentEncoding env filePath with
  | None => inl InvalidFilePath
  | Some decodedPath =>
    match attributesOfItem env decodedPath with
    | None => inl (FileNotFound decodedPath)
    | Some None => inl NoFileSize
    | Some (Some fileSize) =>
      let count := length uploadUrls in
      match chunkSizeFor fileSize count with
      | None => inl RuntimeTrap
      | Some chunkSize =>
        if 2 ^ 63 <=? requiredMinimumSize count then inl RuntimeTrap
        else if fileSize <? requiredMinimumSize count then
          inl (FileTooSmall fileSize count (requiredMinimumSize count))
        else
          inr {| uploadId := uploadId; uploadUrls := uploadUrls;
                 totalBytes := fileSize; maxParallel := maxParallel;
                 chunkSize := chunkSize;
                 activeTasks := ∅; completedChunks := ∅;
                 etags := replicate count ""%string;
                 state := idle; bytesUploaded := 0; isPaused := false;
                 hasResumedContinuation := false; resumedWith := None |}
      end
    end
  end.

(** The byte range [uploadChunk(at:)] reads for a chunk.  Swift integer
    arithmetic traps on overflow instead of wrapping, so the values are
    those of [Z] whenever the code returns. *)
Definition chunkOffset (chunkSize : Z) (index : nat) : Z :=
  Z.of_nat index * chunkSize.

Definition chunkLength (chunkSize totalBytes : Z) (index : nat) : Z :=
  Z.min chunkSize (totalBytes - chunkOffset chunkSize index).

(** The part plan of an upload with the given chunk size: the ranges of
    the chunks [0 ..< count]. *)
Definition partPlan (chunkSize fileSize : Z) (count : nat) : list (Z * Z) :=
  (λ index, (chunkOffset chunkSize index,
             chunkLength chunkSize fileSize index))
    <$> seq 0 count.

Definition with_state (st : State) (paused : bool) (s : UploadSession)
    : UploadSession :=
  {| uploadId := uploadId s; uploadUrls := uploadUrls s;
     totalBytes := totalBytes s; maxParallel := maxParallel s;
     chunkSize := chunkSize s; activeTasks := activeTasks s;
     completedChunks := completedChunks s; etags := etags s;
     state := st; bytesUploaded := bytesUploaded s; isPaused := paused;
     hasResumedContinuation := hasResumedContinuation s;
     resumedWith := resumedWith s |}.

Definition with_activeTasks (tasks : gset nat) (s : UploadSession)
    : UploadSession :=
  {| uploadId := uploadId s; uploadUrls := uploadUrls s;
     totalBytes := totalBytes s; maxParallel := maxParallel s;
     chunkSize := chunkSize s; activeTasks := tasks;
     completedChunks := completedChunks s; etags := etags s;
     state := state s; bytesUploaded := bytesUploaded s;
     isPaused := isPaused s;
     hasResumedContinuation := hasResumedContinuation s;
     resumedWith := resumedWith s |}.

(** Resuming the continuation: sets [hasResumedContinuation] and the state. *)
Definition finish (st : State) (value : Error + UploadResult)
    (s : UploadSession) : UploadSession :=
  {| uploadId := uploadId s; uploadUrls := uploadUrls s;
     totalBytes := totalBytes s; maxParallel := maxParallel s;
     chunkSize := chunkSize s; activeTasks := activeTasks s;
     completedChunks := completedChunks s; etags := etags s;
     state := st; bytesUploaded := bytesUploaded s; isPaused := isPaused s;
     hasResumedContinuation := true; resumedWith := Some value |}.

(** The success branch of the delegate callback: [etags[index] = etag],
    [completedChunks.insert(index)], [bytesUploaded += chunkSize].
    [index] is a key of [activeTasks], hence below [etags.count]. *)
Definition recordChunk (index : nat) (etag : string) (s : UploadSession)
    : UploadSession :=
  {| uploadId := uploadId s; uploadUrls := uploadUrls s;
     totalBytes := totalBytes s; maxParallel := maxParallel s;
     chunkSize := chunkSize s; activeTasks := activeTasks s;
     completedChunks := {[index]} ∪ completedChunks s;
     etags := <[index := etag]> (etags s);
     state := state s;
     bytesUploaded :=
       bytesUploaded s + chunkLength (chunkSize s) (totalBytes s) index;
     isPaused := isPaused s;
     hasResumedContinuation := hasResumedContinuation s;
     resumedWith := resumedWith s |}.

(** [complete()] *)
Definition complete (s : UploadSession) : UploadSession :=
  if hasResumedContinuation s then s
  else finish completed
         (inr {| res_uploadId := uploadId s; res_success := true;
                 res_etags := etags s |}) s.

(** [fail(with:)] *)
Definition fail (error : Error) (s : UploadSession) : UploadSession :=
  if hasResumedContinuation s then s
  else finish failed (inl error) s.

(** [getNextChunkIndex()] *)
Definition getNextChunkIndex (s : UploadSession) : option nat :=
  List.find
    (λ i, bool_decide (i ∉ completedChunks s) &&
          bool_decide (i ∉ activeTasks s))
    (seq 0 (length (uploadUrls s))).

(** The [do] block of [uploadChunk(at:)], when nothing in it throws: the
    bytes of the chunk are read and written to the temporary file, the URL
    parses, and the upload task is created and becomes active.  The whole
    function, with the [catch], is [uploadChunkAt] below. *)
Definition uploadChunk (index : nat) (s : UploadSession) : UploadSession :=
  with_activeTasks ({[index]} ∪ activeTasks s) s.

(** The [while] loop of [uploadNextChunks()] when every chunk it reaches
    can be staged.  Every turn that goes on adds a key to [activeTasks], so
    [fuel] bounds the turns.  The loop in full is [dispatchLoopAt]. *)
Fixpoint dispatchLoop (fuel : nat) (s : UploadSession) : UploadSession :=
  match fuel with
  | O => s
  | S fuel' =>
    if Z.of_nat (size (activeTasks s)) <? maxParallel s then
      match getNextChunkIndex s with
      | None => if decide (activeTasks s = ∅) then complete s else s
      | Some nextIndex => dispatchLoop fuel' (uploadChunk nextIndex s)
      end
    else s
  end.

(** The block [uploadNextChunks()] puts on the session's queue, when
    every chunk it reaches can be staged. *)
Definition uploadNextChunks (s : UploadSession) : UploadSession :=
  if decide (state s = uploading)
  then dispatchLoop (S (length (uploadUrls s))) s
  else s.

(** [start()] up to its suspension: the state is set and
    [uploadNextChunks()] has put its block on the queue, where it has not
    run yet. *)
Definition beginStart (s : UploadSession) : UploadSession :=
  with_state uploading (isPaused s) s.

(** [start()], with the queued block run. *)
Definition start (s : UploadSession) : UploadSession :=
  uploadNextChunks (with_state uploading (isPaused s) s).

(** The block of [pause()] *)
Definition pause (s : UploadSession) : UploadSession :=
  if decide (state s = uploading) then with_state paused true s else s.

(** The block of [resume()], when every chunk its dispatch reaches can be
    staged *)
Definition resume (s : UploadSession) : UploadSession :=
  if decide (state s = paused)
  then uploadNextChunks (with_state uploading false s)
  else s.

(** The block of [cancel()] *)
Definition cancel (s : UploadSession) : UploadSession :=
  if hasResumedContinuation s then s
  else
    with_activeTasks ∅
      (finish cancelled
         (inr {| res_uploadId := uploadId s; res_success := false;
                 res_etags := [] |}) s).

(** Calls made on the session's delegate. *)
Inductive DelegateCall :=
| DidUpdateProgress (progress : Q) (bytesUploaded : Z)
| DidCompleteChunk (index : nat)
| DidFailChunk (index : nat) (error : Error).

(** The ETag of a response: [allHeaderFields["Etag"]], else
    [allHeaderFields["ETag"]], else the empty string. *)
Definition responseETag (allHeaderFields : gmap string string) : string :=
  match allHeaderFields !! "Etag"%string with
  | Some etag => etag
  | None => default ""%string (allHeaderFields !! "ETag"%string)
  end.

(** The failure branches of the delegate callback. *)
Definition chunkDidFail (index : nat) (error : Error) (s : UploadSession)
    : UploadSession * list DelegateCall :=
  ((if decide (activeTasks s = ∅) then
      if (size (completedChunks s) <? length (uploadUrls s))%nat
      then fail error s else s
    else s),
   [DidFailChunk index error]).

(** [urlSession(_:task:didCompleteWithError:)] for the task of chunk
    [index]. *)
Definition didComplete (index : nat) (outcome : TaskOutcome)
    (s0 : UploadSession) : UploadSession * list DelegateCall :=
  if decide (index ∈ activeTasks s0) then
    let s := with_activeTasks (activeTasks s0 ∖ {[index]}) s0 in
    if decide (state s = uploading ∨ state s = paused) then
      match outcome with
      | DidFail description => chunkDidFail index (TransportError description) s
      | NoHTTPResponse => chunkDidFail index (ChunkFailed index) s
      | DidRespond statusCode allHeaderFields =>
        if (200 <=? statusCode) && (statusCode <=? 299) then
          let s1 := recordChunk index (responseETag allHeaderFields) s in
          ((if decide (size (completedChunks s1) = length (uploadUrls s1))
            then complete s1 else uploadNextChunks s1),
           [DidUpdateProgress (progress s1) (bytesUploaded s1);
            DidCompleteChunk index])
        else chunkDidFail index (ChunkFailed index) s
      end
    else (s, [])
  else (s0, []).

(** [uploadChunk(at:)] in full.  [staging index] is the error the [do]
    block throws for the chunk when it throws: the file cannot be opened or
    read, the temporary file cannot be written, or [URL(string:)] is nil
    ([InvalidURL]).  The [catch] then tells the delegate and fails the
    upload; no task is created. *)
Definition uploadChunkAt (staging : nat → option Error) (index : nat)
    (s : UploadSession) : UploadSession * list DelegateCall :=
  match staging index with
  | None => (uploadChunk index s, [])
  | Some error => (fail error s, [DidFailChunk index error])
  end.

(** The [while] loop of [uploadNextChunks()] in full; [None] when the loop
    is still turning after [fuel] turns.  The loop tests the number of
    active tasks only, so a chunk that cannot be staged is picked again on
    the next turn. *)
Fixpoint dispatchLoopAt (staging : nat → option Error) (fuel : nat)
    (s : UploadSession) : option (UploadSession * list DelegateCall) :=
  match fuel with
  | O => None
  | S fuel' =>
    if Z.of_nat (size (activeTasks s)) <? maxParallel s then
      match getNextChunkIndex s with
      | None =>
        Some (if decide (activeTasks s = ∅) then complete s else s, [])
      | Some nextIndex =>
        let '(s', calls) := uploadChunkAt staging nextIndex s in
        match dispatchLoopAt staging fuel' s' with
        | None => None
        | Some (s'', calls') => Some (s'', calls ++ calls')
        end
      end
    else Some (s, [])
  end.

(** The block [uploadNextChunks()] puts on the session's queue, in full. *)
Definition uploadNextChunksAt (staging : nat → option Error) (fuel : nat)
    (s : UploadSession) : option (UploadSession * list DelegateCall) :=
  if decide (state s = uploading) then dispatchLoopAt staging fuel s
  else Some (s, []).

(** The hybrid object. *)
Record NitroCloudUploader := {
  currentUpload : option UploadSession;
  isNetworkAvailable : bool;
  eventListeners : Listeners
}.

Definition with_currentUpload (session : option UploadSession)
    (u : NitroCloudUploader) : NitroCloudUploader :=
  {| currentUpload := session; isNetworkAvailable := isNetworkAvailable u;
     eventListeners := eventListeners u |}.

(** What a call or callback produces: the uploader afterwards, the events
    passed to [emitEvent] in order, the value the pending [startUpload]
    promise settles with if it does, and the call's own value. *)
Record Outcome (A : Type) := {
  next : NitroCloudUploader;
  events : list UploadProgressEvent;
  settled : option (Error + UploadResult);
  value : A
}.
Arguments next {A}. Arguments events {A}.
Arguments settled {A}. Arguments value {A}.

(** The [UploadSessionDelegate] extension of the uploader. *)
Definition delegateEvent (session : UploadSession) (call : DelegateCall)
    : UploadProgressEvent :=
  match call with
  | DidUpdateProgress progress bytesUploaded =>
    {| ev_type := "upload-progress"; ev_uploadId := uploadId session;
       ev_progress := Some progress; ev_bytesUploaded := Some bytesUploaded;
       ev_totalBytes := Some (totalBytes session); ev_chunkIndex := None;
       ev_errorMessage := None |}
  | DidCompleteChunk index =>
    {| ev_type := "chunk-completed"; ev_uploadId := uploadId session;
       ev_progress := None; ev_bytesUploaded := None; ev_totalBytes := None;
       ev_chunkIndex := Some index; ev_errorMessage := None |}
  | DidFailChunk index error =>
    {| ev_type := "chunk-failed"; ev_uploadId := uploadId session;
       ev_progress := None; ev_bytesUploaded := None; ev_totalBytes := None;
       ev_chunkIndex := Some index;
       ev_errorMessage := Some (localizedDescription error) |}
  end.

(** The part of [startUpload] that follows [try await session.start()]:
    when a step resumes the continuation (which happens at most once, under
    [hasResumedContinuation]) the upload is forgotten, the closing event is
    emitted and the promise settles.  [before] is the session as the step
    found it, [after] as it left it; the step resumed the continuation when
    [resumedWith] is set in [after] and was not in [before].  In the source
    this part runs when the task of [startUpload] is resumed, some time
    after the step; the calls below run it together with the step, so they
    describe the executions in which no other call comes in between. *)
Definition settle (before after : UploadSession) (u : NitroCloudUploader)
    : NitroCloudUploader * list UploadProgressEvent *
      option (Error + UploadResult) :=
  if decide (is_Some (resumedWith before)) then (u, [], None)
  else
    match resumedWith after with
    | None => (u, [], None)
    | Some (inl error) =>
      (with_currentUpload None u,
       [{| ev_type := "upload-failed"; ev_uploadId := uploadId after;
           ev_progress := None; ev_bytesUploaded := None;
           ev_totalBytes := Some (totalBytes after); ev_chunkIndex := None;
           ev_errorMessage := Some (localizedDescription error) |}],
       Some (inl error))
    | Some (inr result) =>
      (with_currentUpload None u,
       [{| ev_type :=
             if res_success result then "upload-completed"
             else "upload-failed";
           ev_uploadId := uploadId after;
           ev_progress :=
             if res_success result then Some (Qmake 1 1) else None;
           ev_bytesUploaded :=
             if res_success result then Some (totalBytes after) else None;
           ev_totalBytes := Some (totalBytes after); ev_chunkIndex := None;
           ev_errorMessage :=
             if res_success result then None
             else Some "Upload failed"%string |}],
       Some (inr result))
    end.

(** [startUpload] up to its suspension in [session.start()], before the
    block queued by [uploadNextChunks()] has run.  The value is the error
    the promise is rejected with at once, if any; [RuntimeTrap] stands for
    the trap of [Int(maxParallel ?? 3)] on a double outside the range of
    [Int], or of [UploadSession.init], where the process ends and no
    promise is settled. *)
Definition beginUpload (env : Env) (uploadId filePath : string)
    (uploadUrls : list string) (maxParallel : option Q)
    (u : NitroCloudUploader) : Outcome (option Error) :=
  let reject e :=
    {| next := u; events := []; settled := None; value := Some e |} in
  if decide (uploadId = ""%string) then reject UploadIdEmpty
  else if decide (filePath = ""%string) then reject FilePathEmpty
  else if decide (uploadUrls = []) then reject UploadUrlsEmpty
  else
    match currentUpload u with
    | Some existing => reject (AlreadyInProgress (IOS.uploadId existing))
    | None =>
      match intOf (default (Qmake 3 1) maxParallel) with
      | None => reject RuntimeTrap
      | Some parallel =>
        match init env uploadId filePath uploadUrls parallel with
        | inl error => reject error
        | inr session =>
          {| next := with_currentUpload (Some (beginStart session)) u;
             events :=
               [{| ev_type := "upload-started"; ev_uploadId := uploadId;
                   ev_progress := Some (Qmake 0 1);
                   ev_bytesUploaded := Some 0;
                   ev_totalBytes := Some (totalBytes session);
                   ev_chunkIndex := None; ev_errorMessage := None |}];
             settled := None; value := None |}
        end
      end
    end.

(** [startUpload] with the queued block run, when every chunk the block
    reaches can be staged.  The value is the error the promise is rejected
    with at once, if any. *)
Definition startUpload (env : Env) (uploadId filePath : string)
    (uploadUrls : list string) (maxParallel : option Q)
    (u : NitroCloudUploader) : Outcome (option Error) :=
  let reject e :=
    {| next := u; events := []; settled := None; value := Some e |} in
  if decide (uploadId = ""%string) then reject UploadIdEmpty
  else if decide (filePath = ""%string) then reject FilePathEmpty
  else if decide (uploadUrls = []) then reject UploadUrlsEmpty
  else
    match currentUpload u with
    | Some existing => reject (AlreadyInProgress (IOS.uploadId existing))
    | None =>
      match intOf (default (Qmake 3 1) maxParallel) with
      | None => reject RuntimeTrap
      | Some parallel =>
        match init env uploadId filePath uploadUrls parallel with
        | inl error => reject error
        | inr session =>
          let started :=
            {| ev_type := "upload-started"; ev_uploadId := uploadId;
               ev_progress := Some (Qmake 0 1); ev_bytesUploaded := Some 0;
               ev_totalBytes := Some (totalBytes session);
               ev_chunkIndex := None; ev_errorMessage := None |} in
          let '(u', closing, promise) :=
            settle session (start session)
              (with_currentUpload (Some (start session)) u) in
          {| next := u'; events := started :: closing;
             settled := promise; value := None |}
        end
      end
    end.

(** The session a control call addresses:
    [guard let session = self.currentUpload, session.uploadId == uploadId]. *)
Definition activeSession (uploadId : string) (u : NitroCloudUploader)
    : option UploadSession :=
  match currentUpload u with
  | Some session =>
    if decide (IOS.uploadId session = uploadId) then Some session else None
  | None => None
  end.

Definition pauseUpload (uploadId : string) (u : NitroCloudUploader)
    : Outcome (Error + unit) :=
  match activeSession uploadId u with
  | None => {| next := u; events := []; settled := None;
               value := inl NoActiveUpload |}
  | Some session =>
    {| next := with_currentUpload (Some (pause session)) u;
       events := [plainEvent "upload-paused" uploadId];
       settled := None; value := inr () |}
  end.

Definition resumeUpload (uploadId : string) (u : NitroCloudUploader)
    : Outcome (Error + unit) :=
  match activeSession uploadId u with
  | None => {| next := u; events := []; settled := None;
               value := inl NoActiveUpload |}
  | Some session =>
    let '(u', closing, promise) :=
      settle session (resume session)
        (with_currentUpload (Some (resume session)) u) in
    {| next := u'; events := plainEvent "upload-resumed" uploadId :: closing;
       settled := promise; value := inr () |}
  end.

(** [cancelUpload].  The session's continuation is resumed by [cancel()], so
    the pending [startUpload] settles too; its closing event is queued after
    [upload-cancelled]. *)
Definition cancelUpload (uploadId : string) (u : NitroCloudUploader)
    : Outcome (Error + unit) :=
  match activeSession uploadId u with
  | None => {| next := u; events := []; settled := None; value := inr () |}
  | Some session =>
    let '(u', closing, promise) :=
      settle session (cancel session) (with_currentUpload None u) in
    {| next := u';
       events := plainEvent "upload-cancelled" uploadId :: closing;
       settled := promise; value := inr () |}
  end.

Definition getUploadState (uploadId : string) (u : NitroCloudUploader)
    : Error + UploadState :=
  match activeSession uploadId u with
  | None => inl NoActiveUpload
  | Some session =>
    inr {| us_uploadId := uploadId; us_state := rawValue (state session);
           us_progress := progress session;
           us_bytesUploaded := bytesUploaded session;
           us_totalBytes := totalBytes session;
           us_isPaused := isPaused session;
           us_isNetworkAvailable := isNetworkAvailable u |}
  end.

(** [networkMonitor.pathUpdateHandler], with
    [satisfied = (path.status == .satisfied)]. *)
Definition pathUpdate (satisfied : bool) (u : NitroCloudUploader)
    : Outcome unit :=
  let wasAvailable := isNetworkAvailable u in
  let u1 := {| currentUpload := currentUpload u;
               isNetworkAvailable := satisfied;
               eventListeners := eventListeners u |} in
  if wasAvailable && negb satisfied then
    match currentUpload u1 with
    | Some session =>
      {| next := with_currentUpload (Some (pause session)) u1;
         events := [plainEvent "network-lost" (uploadId session)];
         settled := None; value := () |}
    | None => {| next := u1; events := []; settled := None; value := () |}
    end
  else if negb wasAvailable && satisfied then
    match currentUpload u1 with
    | Some session =>
      let '(u', closing, promise) :=
        settle session (resume session)
          (with_currentUpload (Some (resume session)) u1) in
      {| next := u';
         events := plainEvent "network-restored" (uploadId session) :: closing;
         settled := promise; value := () |}
    | None => {| next := u1; events := []; settled := None; value := () |}
    end
  else {| next := u1; events := []; settled := None; value := () |}.

(** The URLSession delegate callback reaching the current session. *)
Definition taskDidComplete (index : nat) (outcome : TaskOutcome)
    (u : NitroCloudUploader) : Outcome unit :=
  match currentUpload u with
  | None => {| next := u; events := []; settled := None; value := () |}
  | Some session =>
    let (session', calls) := didComplete index outcome session in
    let '(u', closing, promise) :=
      settle session session' (with_currentUpload (Some session') u) in
    {| next := u'; events := (delegateEvent session' <$> calls) ++ closing;
       settled := promise; value := () |}
  end.

(** [readChunkData(offset:size:)] on a file that holds [content]: the bytes
    from [offset] on, [size] of them or as many as there are.
    [UInt64(offset)] traps on a negative offset and a negative length is
    left to [FileHandle]; neither case is modelled. *)
Definition readChunkData (content : list Byte.byte) (offset size : Z)
    : option (list Byte.byte) :=
  if (offset <? 0) || (size <? 0) then None
  else Some (take (Z.to_nat size) (drop (Z.to_nat offset) content)).

(** The bytes [uploadChunk(at:)] writes to the temporary file of a chunk. *)
Definition chunkData (content : list Byte.byte) (s : UploadSession)
    (index : nat) : option (list Byte.byte) :=
  readChunkData content (chunkOffset (chunkSize s) index)
    (chunkLength (chunkSize s) (totalBytes s) index).

End IOS.

(** ** Android: the Kotlin class [NitroCloudUploader]

    Notifications take no part in what is modelled and are left out, with
    the [showNotification] argument; the foreground service is modelled
    apart, after this module. *)

Module Android.

Definition MIN_CHUNK_SIZE : Z := 5 * 1024 * 1024.
Definition MAX_RETRIES : nat := 3.

(** The exceptions thrown, one constructor per message; [UploadIncomplete]
    stands for ["Upload incomplete. Failed parts: $failedParts"],
    [IllegalEscape] for the [IllegalArgumentException] of
    [URLDecoder.decode] and [JobCancelled] for the [CancellationException]
    of a cancelled job. *)
Inductive Error :=
| AlreadyInProgress (uploadId : string)
| IllegalEscape (filePath : string)
| JobCancelled
| FileNotFound (decodedPath : string)
| CannotRead (decodedPath : string)
| FileEmpty
| UploadStateNotFound
| UploadJobNotFound
| UploadIncomplete (failedParts : list nat)
| UploadNotFound (uploadId : string)
| NoUploadFound (uploadId : string).

(** [java.io.File] at a path: [None] when [exists()] is false. *)
Record File := { canRead : bool; length : Z }.

Record Env := {
  (** [URLDecoder.decode(filePath, "UTF-8").removePrefix("file://")];
      [None] when [decode] throws, which it does on a [%] that is not
      followed by two hexadecimal digits. *)
  decodePath : string → option string;
  fileAt : string → option File
}.

Record UploadJob := {
  job_uploadId : string;
  isPaused : bool
}.

Record UploadStateData := {
  totalBytes : Z;
  bytesUploaded : Z;
  completedChunks : nat;
  totalChunks : nat;
  partETags : gmap nat string;
  failedChunks : gset nat
}.

Record PartInfo := {
  partNumber : nat;
  url : string;
  offset : Z;
  size : Z
}.

Record NitroCloudUploader := {
  activeUploads : gmap string UploadJob;
  uploadStates : gmap string UploadStateData;
  eventListeners : Listeners;
  isNetworkAvailable : bool
}.

(** The result of arithmetic on [Long]: two's complement on 64 bits. *)
Definition wrap64 (z : Z) : Z := (z + 2 ^ 63) `mod` 2 ^ 64 - 2 ^ 63.

(** [Double.toInt()]: rounds toward zero and saturates at the [Int] range. *)
Definition toInt (d : Q) : Z :=
  Z.max (- 2 ^ 31) (Z.min (2 ^ 31 - 1) (truncate d)).

Definition coerceIn (minimumValue maximumValue x : Z) : Z :=
  if x <? minimumValue then minimumValue
  else if maximumValue <? x then maximumValue
  else x.

(** [maxParallel?.toInt()?.coerceIn(1, 10) ?: 3] *)
Definition parallelOf (maxParallel : option Q) : Z :=
  match maxParallel with
  | Some d => coerceIn 1 10 (toInt d)
  | None => 3
  end.

(** [cleanup(uploadId)] *)
Definition cleanup (uploadId : string) (u : NitroCloudUploader)
    : NitroCloudUploader :=
  {| activeUploads := delete uploadId (activeUploads u);
     uploadStates := delete uploadId (uploadStates u);
     eventListeners := eventListeners u;
     isNetworkAvailable := isNetworkAvailable u |}.

(** What [performUpload] is launched with. *)
Record Launch := {
  l_filePath : string;
  l_uploadUrls : list string;
  l_fileSize : Z;
  l_maxParallel : Z
}.

Record Outcome (A : Type) := {
  next : NitroCloudUploader;
  events : list UploadProgressEvent;
  value : A
}.
Arguments next {A}. Arguments events {A}. Arguments value {A}.

(** [startUpload], the part that runs before the promise is returned.  Every
    exception is caught by the enclosing [try], which calls
    [cleanup(uploadId)] and rejects the promise. *)
Definition startUpload (env : Env) (uploadId filePath : string)
    (uploadUrls : list string) (maxParallel : option Q)
    (u : NitroCloudUploader) : Outcome (Error + Launch) :=
  let reject e :=
    {| next := cleanup uploadId u; events := []; value := inl e |} in
  if decide (is_Some (activeUploads u !! uploadId)) then
    reject (AlreadyInProgress uploadId)
  else
    let parallel := parallelOf maxParallel in
    match decodePath env filePath with
    | None => reject (IllegalEscape filePath)
    | Some decodedPath =>
      match fileAt env decodedPath with
      | None => reject (FileNotFound decodedPath)
      | Some file =>
        if negb (canRead file) then reject (CannotRead decodedPath)
        else
          let fileSize := length file in
          if fileSize =? 0 then reject FileEmpty
          else
            {| next :=
                 {| activeUploads :=
                      <[uploadId := {| job_uploadId := uploadId;
                                       isPaused := false |}]>
                        (activeUploads u);
                    uploadStates :=
                      <[uploadId := {| totalBytes := fileSize;
                                       bytesUploaded := 0;
                                       completedChunks := 0;
                                       totalChunks := List.length uploadUrls;
                                       partETags := ∅;
                                       failedChunks := ∅ |}]>
                        (uploadStates u);
                    eventListeners := eventListeners u;
                    isNetworkAvailable := isNetworkAvailable u |};
               events :=
                 [{| ev_type := "upload-started"; ev_uploadId := uploadId;
                     ev_progress := Some (Qmake 0 1);
                     ev_bytesUploaded := Some 0;
                     ev_totalBytes := Some fileSize; ev_chunkIndex := None;
                     ev_errorMessage := None |}];
               value := inr {| l_filePath := decodedPath;
                               l_uploadUrls := uploadUrls;
                               l_fileSize := fileSize;
                               l_maxParallel := parallel |} |}
      end
    end.

(** The part table of [performUpload]: the body of [mapIndexed]. *)
Definition partInfo (fileSize : Z) (count index : nat) (url : string)
    : PartInfo :=
  let offset := wrap64 (fileSize * Z.of_nat index) ÷ Z.of_nat count in
  let nextOffset :=
    if decide (index = (count - 1)%nat) then fileSize
    else wrap64 (fileSize * (Z.of_nat index + 1)) ÷ Z.of_nat count in
  {| partNumber := index + 1; url := url; offset := offset;
     size := wrap64 (nextOffset - offset) |}.

Definition planParts (fileSize : Z) (uploadUrls : list string)
    : list PartInfo :=
  imap (partInfo fileSize (List.length uploadUrls)) uploadUrls.

(** [equals(other, ignoreCase = true)] on header names (ASCII). *)
Definition lowerAscii (c : ascii) : ascii :=
  let n := nat_of_ascii c in
  if (65 <=? n)%nat && (n <=? 90)%nat then ascii_of_nat (n + 32) else c.

Fixpoint lowercase (s : string) : string :=
  match s with
  | EmptyString => EmptyString
  | String c rest => String (lowerAscii c) (lowercase rest)
  end.

Definition equalsIgnoreCase (a b : string) : bool :=
  String.eqb (lowercase a) (lowercase b).

(** [Response.header(name)]: the last value whose field name matches,
    ignoring case. *)
Definition header (name : string) (headers : list (string * string))
    : option string :=
  snd <$> last (filter (λ h, equalsIgnoreCase name (fst h) = true) headers).

(** [String.trim(c)]: drops the leading and the trailing occurrences. *)
Fixpoint trimStart (c : ascii) (s : string) : string :=
  match s with
  | EmptyString => EmptyString
  | String a rest => if Ascii.eqb a c then trimStart c rest else s
  end.

Fixpoint trimEnd (c : ascii) (s : string) : string :=
  match s with
  | EmptyString => EmptyString
  | String a rest =>
    match trimEnd c rest with
    | EmptyString => if Ascii.eqb a c then EmptyString else String a EmptyString
    | kept => String a kept
    end
  end.

Definition trim (c : ascii) (s : string) : string := trimEnd c (trimStart c s).

Definition quote : ascii := ascii_of_nat 34.

(** The ETag of a successful response. *)
Definition responseETag (headers : list (string * string)) : string :=
  match header "ETag" headers with
  | Some v => trim quote v
  | None =>
    match header "etag" headers with
    | Some v => trim quote v
    | None => ""%string
    end
  end.

(** One attempt of the [try] block of [uploadPart]: [readChunk] or the HTTP
    call throws, or a response arrives. *)
Inductive Attempt :=
| Threw (message : string)
| Responded (code : Z) (headers : list (string * string))
    (errorBody : option string).

(** What one turn of the [while] loop of [uploadPart] finds: the pause flag
    set, the coroutine cancelled, or an attempt and how it goes.  The
    coroutine is found cancelled at the [isActive] check, where the part
    returns false, or by the [delay] before the turn, which then throws the
    [CancellationException]; either way the part makes no further attempt
    and [performUpload] ends with that exception. *)
Inductive Tick :=
| SeenPaused
| SeenInactive
| Ran (attempt : Attempt).

(** [response.isSuccessful] *)
Definition isSuccessful (code : Z) : bool := (200 <=? code) && (code <=? 299).

(** The message of the exception an unsuccessful attempt is caught with. *)
Definition attemptError (attempt : Attempt) : option string :=
  match attempt with
  | Threw message => Some message
  | Responded code _ errorBody =>
    if isSuccessful code then None
    else Some ("HTTP " +:+ pretty code +:+ ": " +:+
               default "No error body" errorBody)%string
  end.

(** What a call of [uploadPart] leaves: whether it returned true, the
    shared state, the events emitted, the [delay]s slept (in milliseconds),
    the number of attempts made, and whether it found the coroutine
    cancelled. *)
Record PartRun := {
  ok : bool;
  stateAfter : UploadStateData;
  emitted : list UploadProgressEvent;
  delays : list Z;
  attempts : nat;
  cancelled : bool
}.

(** The [synchronized(state)] block after a successful attempt. *)
Definition recordPart (part : PartInfo) (etag : string)
    (state : UploadStateData) : UploadStateData :=
  {| totalBytes := totalBytes state;
     bytesUploaded := wrap64 (bytesUploaded state + size part);
     completedChunks := S (completedChunks state);
     totalChunks := totalChunks state;
     partETags := <[partNumber part := etag]> (partETags state);
     failedChunks := failedChunks state ∖ {[partNumber part]} |}.

Definition markFailed (part : PartInfo) (state : UploadStateData)
    : UploadStateData :=
  {| totalBytes := totalBytes state;
     bytesUploaded := bytesUploaded state;
     completedChunks := completedChunks state;
     totalChunks := totalChunks state;
     partETags := partETags state;
     failedChunks := {[partNumber part]} ∪ failedChunks state |}.

Definition partEvents (uploadId : string) (part : PartInfo)
    (state : UploadStateData) : list UploadProgressEvent :=
  [{| ev_type := "chunk-completed"; ev_uploadId := uploadId;
      ev_progress := None; ev_bytesUploaded := None; ev_totalBytes := None;
      ev_chunkIndex := Some (partNumber part - 1)%nat;
      ev_errorMessage := None |};
   {| ev_type := "upload-progress"; ev_uploadId := uploadId;
      ev_progress := Some (ratio (bytesUploaded state) (totalBytes state));
      ev_bytesUploaded := Some (bytesUploaded state);
      ev_totalBytes := Some (totalBytes state); ev_chunkIndex := None;
      ev_errorMessage := None |}].

Definition chunkFailedEvent (uploadId : string) (part : PartInfo)
    (message : string) : UploadProgressEvent :=
  {| ev_type := "chunk-failed"; ev_uploadId := uploadId;
     ev_progress := None; ev_bytesUploaded := None; ev_totalBytes := None;
     ev_chunkIndex := Some (partNumber part - 1)%nat;
     ev_errorMessage := Some message |}.

(** The [while (retries < MAX_RETRIES)] loop of [uploadPart], one tick per
    turn; [None] when the ticks run out while the loop is still going. *)
Fixpoint retryLoop (uploadId : string) (part : PartInfo) (ticks : list Tick)
    (retries : nat) (run : PartRun) : option PartRun :=
  if (MAX_RETRIES <=? retries)%nat then Some run
  else
    match ticks with
    | [] => None
    | SeenPaused :: rest =>
      retryLoop uploadId part rest retries
        {| ok := false; stateAfter := stateAfter run; emitted := emitted run;
           delays := delays run ++ [1000]; attempts := attempts run;
           cancelled := cancelled run |}
    | SeenInactive :: _ =>
      Some {| ok := false; stateAfter := stateAfter run;
              emitted := emitted run; delays := delays run;
              attempts := attempts run; cancelled := true |}
    | Ran attempt :: rest =>
      match attemptError attempt with
      | None =>
        let etag :=
          match attempt with
          | Responded _ headers _ => responseETag headers
          | Threw _ => ""%string
          end in
        let state := recordPart part etag (stateAfter run) in
        Some {| ok := true; stateAfter := state;
                emitted := emitted run ++ partEvents uploadId part state;
                delays := delays run; attempts := S (attempts run);
                cancelled := cancelled run |}
      | Some message =>
        let retries' := S retries in
        if (retries' <? MAX_RETRIES)%nat then
          retryLoop uploadId part rest retries'
            {| ok := false; stateAfter := stateAfter run;
               emitted := emitted run;
               delays := delays run ++ [1000 * Z.of_nat retries'];
               attempts := S (attempts run); cancelled := cancelled run |}
        else
          retryLoop uploadId part rest retries'
            {| ok := false; stateAfter := markFailed part (stateAfter run);
               emitted :=
                 emitted run ++ [chunkFailedEvent uploadId part message];
               delays := delays run; attempts := S (attempts run);
               cancelled := cancelled run |}
      end
    end.

(** [uploadPart], on the state object registered for the upload. *)
Definition uploadPart (uploadId : string) (part : PartInfo)
    (ticks : list Tick) (state : UploadStateData) : option PartRun :=
  if decide (is_Some (partETags state !! partNumber part)) then
    Some {| ok := true; stateAfter := state; emitted := []; delays := [];
            attempts := 0; cancelled := false |}
  else
    retryLoop uploadId part ticks 0
      {| ok := false; stateAfter := state; emitted := []; delays := [];
         attempts := 0; cancelled := false |}.

(** The parts run concurrently, each changing the shared state once, when
    it ends; [order] lists the part indexes in the order in which they end.
    [None] when some part has not ended on its ticks. *)
Fixpoint runParts (uploadId : string) (parts : list PartInfo)
    (ticksOf : nat → list Tick) (order : list nat)
    (state : UploadStateData) (log : list UploadProgressEvent)
    : option (UploadStateData * list UploadProgressEvent) :=
  match order with
  | [] => Some (state, log)
  | index :: rest =>
    match parts !! index with
    | None => runParts uploadId parts ticksOf rest state log
    | Some part =>
      match uploadPart uploadId part (ticksOf (partNumber part)) state with
      | None => None
      | Some run =>
        runParts uploadId parts ticksOf rest (stateAfter run)
          (log ++ emitted run)
      end
    end
  end.

(** Whether some part of the run finds the coroutine cancelled: the
    [awaitAll()] of [performUpload] then throws the
    [CancellationException]. *)
Fixpoint seesCancellation (uploadId : string) (parts : list PartInfo)
    (ticksOf : nat → list Tick) (order : list nat)
    (state : UploadStateData) : bool :=
  match order with
  | [] => false
  | index :: rest =>
    match parts !! index with
    | None => seesCancellation uploadId parts ticksOf rest state
    | Some part =>
      match uploadPart uploadId part (ticksOf (partNumber part)) state with
      | None => false
      | Some run =>
        cancelled run
        || seesCancellation uploadId parts ticksOf rest (stateAfter run)
      end
    end
  end.

Definition keyLe (a b : nat * string) : Prop := (fst a ≤ fst b)%nat.

#[global] Instance keyLe_dec a b : Decision (keyLe a b).
Proof. unfold keyLe. apply _. Defined.

#[global] Instance keyLe_total : Total keyLe.
Proof. intros a b. unfold keyLe. lia. Qed.

#[global] Instance keyLe_trans : Transitive keyLe.
Proof. intros a b c. unfold keyLe. lia. Qed.

(** [state.partETags.toSortedMap().values] *)
Definition sortedETags (partETags : gmap nat string) : list string :=
  snd <$> merge_sort keyLe (map_to_list partETags).

(** [state.failedChunks.sorted()] *)
Definition sortedFailed (failedChunks : gset nat) : list nat :=
  merge_sort (λ a b, (a ≤ b)%nat) (elements failedChunks).

(** [performUpload], from the part table to the value the promise settles
    with, for a job whose registry entries are in place when it starts.
    When the job is cancelled meanwhile the [CancellationException] is
    thrown on, and no closing event is emitted. *)
Definition performUpload (uploadId : string) (uploadUrls : list string)
    (fileSize : Z) (ticksOf : nat → list Tick) (order : list nat)
    (state : UploadStateData)
    : option (UploadStateData * list UploadProgressEvent *
              (Error + UploadResult)) :=
  let parts := planParts fileSize uploadUrls in
  match runParts uploadId parts ticksOf order state [] with
  | None => None
  | Some (state', log) =>
    if seesCancellation uploadId parts ticksOf order state then
      Some (state', log, inl JobCancelled)
    else if decide (completedChunks state' ≠ List.length uploadUrls) then
      let e := UploadIncomplete (sortedFailed (failedChunks state')) in
      Some (state',
            log ++ [{| ev_type := "upload-failed"; ev_uploadId := uploadId;
                       ev_progress := None; ev_bytesUploaded := None;
                       ev_totalBytes := Some fileSize; ev_chunkIndex := None;
                       ev_errorMessage :=
                         Some ("Upload incomplete. Failed parts: " +:+
                               String.concat ", "
                                 (pretty <$> sortedFailed (failedChunks state')))
                     |}],
            inl e)
    else
      Some (state',
            log ++ [{| ev_type := "upload-completed"; ev_uploadId := uploadId;
                       ev_progress := Some (Qmake 1 1);
                       ev_bytesUploaded := Some fileSize;
                       ev_totalBytes := Some fileSize; ev_chunkIndex := None;
                       ev_errorMessage := None |}],
            inr {| res_uploadId := uploadId; res_success := true;
                   res_etags := sortedETags (partETags state') |})
  end.

(** The job [startUpload] launches, run to its end: [performUpload] on the
    registered state, the promise settled with its result or exception, and
    [cleanup(uploadId)] in the [finally]. *)
Definition uploadJob (uploadId : string) (launch : Launch)
    (ticksOf : nat → list Tick) (order : list nat) (u : NitroCloudUploader)
    : option (Outcome (Error + UploadResult)) :=
  match uploadStates u !! uploadId with
  | None => Some {| next := cleanup uploadId u; events := [];
                    value := inl UploadStateNotFound |}
  | Some state =>
    match activeUploads u !! uploadId with
    | None => Some {| next := cleanup uploadId u; events := [];
                      value := inl UploadJobNotFound |}
    | Some _ =>
      match performUpload uploadId (l_uploadUrls launch) (l_fileSize launch)
              ticksOf order state with
      | None => None
      | Some (_, log, result) =>
        Some {| next := cleanup uploadId u; events := log; value := result |}
      end
    end
  end.

Definition pauseUpload (uploadId : string) (u : NitroCloudUploader)
    : Outcome (Error + unit) :=
  match activeUploads u !! uploadId with
  | None => {| next := u; events := []; value := inl (UploadNotFound uploadId) |}
  | Some uploadJob =>
    {| next :=
         {| activeUploads :=
              <[uploadId := {| job_uploadId := job_uploadId uploadJob;
                               isPaused := true |}]> (activeUploads u);
            uploadStates := uploadStates u;
            eventListeners := eventListeners u;
            isNetworkAvailable := isNetworkAvailable u |};
       events := [plainEvent "upload-paused" uploadId];
       value := inr () |}
  end.

Definition resumeUpload (uploadId : string) (u : NitroCloudUploader)
    : Outcome (Error + unit) :=
  match activeUploads u !! uploadId with
  | None => {| next := u; events := []; value := inl (UploadNotFound uploadId) |}
  | Some uploadJob =>
    {| next :=
         {| activeUploads :=
              <[uploadId := {| job_uploadId := job_uploadId uploadJob;
                               isPaused := false |}]> (activeUploads u);
            uploadStates := uploadStates u;
            eventListeners := eventListeners u;
            isNetworkAvailable := isNetworkAvailable u |};
       events := [plainEvent "upload-resumed" uploadId];
       value := inr () |}
  end.

(** [cancelUpload]: the job, when there is one, is cancelled; the event is
    emitted and the registry entries removed either way. *)
Definition cancelUpload (uploadId : string) (u : NitroCloudUploader)
    : Outcome (Error + unit) :=
  {| next := cleanup uploadId u;
     events := [plainEvent "upload-cancelled" uploadId];
     value := inr () |}.

Definition getUploadState (uploadId : string) (u : NitroCloudUploader)
    : Error + UploadState :=
  match uploadStates u !! uploadId with
  | None => inl (NoUploadFound uploadId)
  | Some state =>
    let paused :=
      match activeUploads u !! uploadId with
      | Some uploadJob => isPaused uploadJob
      | None => false
      end in
    inr {| us_uploadId := uploadId;
           us_state :=
             if paused then "paused"
             else if decide (failedChunks state ≠ ∅) then "failed"
             else if decide (completedChunks state = totalChunks state)
                  then "completed"
             else "uploading";
           us_progress :=
             if 0 <? totalBytes state
             then ratio (bytesUploaded state) (totalBytes state)
             else Qmake 0 1;
           us_bytesUploaded := bytesUploaded state;
           us_totalBytes := totalBytes state;
           us_isPaused := paused;
           us_isNetworkAvailable := isNetworkAvailable u |}
  end.

Definition with_network (available : bool) (u : NitroCloudUploader)
    : NitroCloudUploader :=
  {| activeUploads := activeUploads u; uploadStates := uploadStates u;
     eventListeners := eventListeners u; isNetworkAvailable := available |}.

(** [NetworkCallback.onAvailable] *)
Definition onAvailable (u : NitroCloudUploader) : Outcome unit :=
  if isNetworkAvailable u then {| next := u; events := []; value := () |}
  else
    {| next := with_network true u;
       events := plainEvent "network-restored" <$>
                   elements (dom (activeUploads u));
       value := () |}.

(** [NetworkCallback.onLost] *)
Definition onLost (u : NitroCloudUploader) : Outcome unit :=
  {| next := with_network false u;
     events := plainEvent "network-lost" <$> elements (dom (activeUploads u));
     value := () |}.

(** [Long.toInt()]: the low 32 bits, as a signed number. *)
Definition longToInt (z : Z) : Z := (z + 2 ^ 31) `mod` 2 ^ 32 - 2 ^ 31.

(** How [readChunk] throws: the bounds check, [seek] at a negative offset,
    [ByteArray] of a negative size, or a read that is short. *)
Inductive ReadError :=
| InvalidChunkBounds (offset size fileLength : Z)
| NegativeSeek (offset : Z)
| NegativeArraySize (size : Z)
| ShortRead (bytesRead size : Z).

(** [RandomAccessFile.read(buffer)] on a regular file, [available] bytes
    before its end: what is there, up to the size of the buffer, and -1 at
    the end of the file. *)
Definition bytesReadInto (bufferSize available : Z) : Z :=
  if bufferSize =? 0 then 0
  else if available <=? 0 then -1
  else Z.min bufferSize available.

(** [readChunk] on a file that holds [content]. *)
Definition readChunk (content : list Byte.byte) (offset size : Z)
    : ReadError + list Byte.byte :=
  let fileLength := Z.of_nat (List.length content) in
  if fileLength <? wrap64 (offset + size) then
    inl (InvalidChunkBounds offset size fileLength)
  else if offset <? 0 then inl (NegativeSeek offset)
  else
    let bufferSize := longToInt size in
    if bufferSize <? 0 then inl (NegativeArraySize bufferSize)
    else
      let bytesRead := bytesReadInto bufferSize (fileLength - offset) in
      if bytesRead =? bufferSize then
        inr (take (Z.to_nat bytesRead) (drop (Z.to_nat offset) content))
      else inl (ShortRead bytesRead size).

End Android.

(** ** Android: the Kotlin class [UploadForegroundService] *)

Module UploadForegroundService.

Definition ACTION_START_UPLOAD : string :=
  "com.margelo.nitro.nitroclouduploader.START_UPLOAD".
Definition ACTION_STOP_UPLOAD : string :=
  "com.margelo.nitro.nitroclouduploader.STOP_UPLOAD".
Definition ACTION_UPDATE_PROGRESS : string :=
  "com.margelo.nitro.nitroclouduploader.UPDATE_PROGRESS".

(** An [Intent]: its action and the extras the service reads. *)
Record Intent := {
  action : option string;
  upload_id : option string;
  progress : option Z;
  message : option string
}.

(** What the service shows of a notification: the text, and the position
    of the progress bar out of 100 when there is one. *)
Record Notification := {
  contentText : string;
  progressBar : option Z
}.

(** What the service asks of the system.  [startForeground] may throw
    (the system refuses a start from the background, or the permission is
    missing); the service catches that and goes on. *)
Inductive Request :=
| StartForeground (notification : Notification)
| Notify (notification : Notification)
| StopForeground
| StopSelf.

Record Service := {
  currentUploadId : option string;
  currentProgress : Z;
  isServiceStarted : bool
}.

(** The service as constructed. *)
Definition created : Service :=
  {| currentUploadId := None; currentProgress := 0;
     isServiceStarted := false |}.

(** The companion's [startUploadService], [updateProgress] and
    [stopUploadService]: the intents they send. *)
Definition startUploadService (uploadId : string) : Intent :=
  {| action := Some ACTION_START_UPLOAD; upload_id := Some uploadId;
     progress := None; message := None |}.

Definition updateProgress (uploadId : string) (percent : Z) (text : string)
    : Intent :=
  {| action := Some ACTION_UPDATE_PROGRESS; upload_id := Some uploadId;
     progress := Some percent; message := Some text |}.

Definition stopUploadService : Intent :=
  {| action := Some ACTION_STOP_UPLOAD; upload_id := None;
     progress := None; message := None |}.

Definition createNotification (uploadId : option string) (percent : Z)
    (text : string) : Notification :=
  {| contentText := text;
     progressBar :=
       if (0 <=? percent) && (percent <=? 100) then Some percent else None |}.

(** [startForegroundService].  The fields are set before [startForeground]
    is called, and an exception of that call is caught and leaves them as
    set: the flag is up whether or not the service got into the
    foreground. *)
Definition startForegroundService (uploadId : option string) (s : Service)
    : Service * list Request :=
  if isServiceStarted s then (s, [])
  else
    ({| currentUploadId := uploadId; currentProgress := 0;
        isServiceStarted := true |},
     [StartForeground (createNotification uploadId 0 "Starting upload...")]).

Definition updateNotification (uploadId : option string) (percent : Z)
    (text : string) (s : Service) : Service * list Request :=
  if negb (isServiceStarted s) then (s, [])
  else
    ({| currentUploadId := uploadId; currentProgress := percent;
        isServiceStarted := isServiceStarted s |},
     [Notify (createNotification uploadId percent text)]).

Definition stopForegroundService (s : Service) : Service * list Request :=
  if negb (isServiceStarted s) then (s, [])
  else
    ({| currentUploadId := currentUploadId s;
        currentProgress := currentProgress s; isServiceStarted := false |},
     [StopForeground; StopSelf]).

(** [onStartCommand]; [None] is the null intent.  After [stopSelf()] the
    system may destroy the service and create it anew for the next intent;
    the flag is down either way, and the other two fields, which a new
    object would have reset, are written only. *)
Definition onStartCommand (intent : option Intent) (s : Service)
    : Service * list Request :=
  match intent with
  | None => (s, [])
  | Some i =>
    match action i with
    | None => (s, [])
    | Some a =>
      if String.eqb a ACTION_START_UPLOAD then
        startForegroundService (upload_id i) s
      else if String.eqb a ACTION_UPDATE_PROGRESS then
        updateNotification (upload_id i) (default 0 (progress i))
          (default "Uploading..."%string (message i)) s
      else if String.eqb a ACTION_STOP_UPLOAD then stopForegroundService s
      else (s, [])
    end
  end.

End UploadForegroundService.

(** ** Specification predicates *)

(** [tiles start parts stop]: the ranges [(offset, size)], taken in order,
    cover [start, stop) with neither gap nor overlap. *)
Fixpoint tiles (start : Z) (parts : list (Z * Z)) (stop : Z) : Prop :=
  match parts with
  | [] => start = stop
  | (offset, size) :: rest =>
    offset = start ∧ 0 ≤ size ∧ tiles (start + size) rest stop
  end.

Definition totalSize (parts : list (Z * Z)) : Z := foldr Z.add 0 (snd <$> parts).

(** The byte ranges of an Android part table. *)
Definition ranges (parts : list Android.PartInfo) : list (Z * Z) :=
  (λ part, (Android.offset part, Android.size part)) <$> parts.

(** The chunks a session has neither completed nor in flight: what the
    dispatch loop can still start. *)
Definition pendingChunks (s : IOS.UploadSession) : list nat :=
  filter (λ i, (i ∉ IOS.completedChunks s) ∧ (i ∉ IOS.activeTasks s))
    (seq 0 (List.length (IOS.uploadUrls s))).

(** ** Runs of an iOS session *)

(** What can happen to a started session: a delegate callback for the task
    of a chunk, or a call of [pause()], [resume()] or [cancel()]. *)
Inductive SessionStep :=
| TaskDone (index : nat) (outcome : IOS.TaskOutcome)
| PauseCalled
| ResumeCalled
| CancelCalled.

Definition sessionStep (step : SessionStep) (s : IOS.UploadSession)
    : IOS.UploadSession :=
  match step with
  | TaskDone index outcome => fst (IOS.didComplete index outcome s)
  | PauseCalled => IOS.pause s
  | ResumeCalled => IOS.resume s
  | CancelCalled => IOS.cancel s
  end.

(** The chunk and ETag a step records: those of a delegate callback that
    reaches the success branch. *)
Definition recorded (step : SessionStep) (s : IOS.UploadSession)
    : option (nat * string) :=
  match step with
  | TaskDone index (IOS.DidRespond statusCode allHeaderFields) =>
    if decide (index ∈ IOS.activeTasks s) then
      if decide (IOS.state s = IOS.uploading ∨ IOS.state s = IOS.paused) then
        if (200 <=? statusCode) && (statusCode <=? 299)
        then Some (index, IOS.responseETag allHeaderFields)
        else None
      else None
    else None
  | _ => None
  end.

(** A run: the session after the steps, and the chunks recorded on the way,
    in completion order. *)
Fixpoint runSession (steps : list SessionStep) (s : IOS.UploadSession)
    : IOS.UploadSession * list (nat * string) :=
  match steps with
  | [] => (s, [])
  | step :: rest =>
    let (s', log) := runSession rest (sessionStep step s) in
    (s', option_list (recorded step s) ++ log)
  end.

(** What holds of a session along a run, [log] being the chunks recorded so
    far. *)
Record SessionInv (s : IOS.UploadSession) (log : list (nat * string))
    : Prop := {
  inv_etags : List.length (IOS.etags s) = List.length (IOS.uploadUrls s);
  inv_completed : ∀ k, k ∈ IOS.completedChunks s ↔ k ∈ log.*1;
  inv_nodup : NoDup log.*1;
  inv_logged : ∀ k e, (k, e) ∈ log → IOS.etags s !! k = Some e;
  inv_active : ∀ k, k ∈ IOS.activeTasks s →
                 (k < List.length (IOS.uploadUrls s))%nat
                 ∧ (k ∉ IOS.completedChunks s);
  inv_range : ∀ k, k ∈ IOS.completedChunks s →
                (k < List.length (IOS.uploadUrls s))%nat;
  inv_success : ∀ result,
      IOS.resumedWith s = Some (inr result) → res_success result = true →
      res_etags result = IOS.etags s
      ∧ ∀ k, (k < List.length (IOS.uploadUrls s))%nat →
             k ∈ IOS.completedChunks s;
  inv_terminal : is_Some (IOS.resumedWith s) →
      IOS.hasResumedContinuation s = true
      ∧ IOS.state s ≠ IOS.uploading ∧ IOS.state s ≠ IOS.paused
}.

(** Strings made of one character only. *)
Fixpoint onlyChar (c : ascii) (s : string) : bool :=
  match s with
  | EmptyString => true
  | String a rest => Ascii.eqb a c && onlyChar c rest
  end.

(** ** Runs of an Android upload *)

(** A turn of the retry loop that finds the upload paused sleeps and
    starts over; every other turn is an attempt or the end of the loop. *)
Definition notPaused (tick : Android.Tick) : bool :=
  match tick with
  | Android.SeenPaused => false
  | _ => true
  end.


(** The state [startUpload] registers. *)
Definition freshState (fileSize : Z) (count : nat) : Android.UploadStateData :=
  {| Android.totalBytes := fileSize; Android.bytesUploaded := 0;
     Android.completedChunks := 0; Android.totalChunks := count;
     Android.partETags := ∅; Android.failedChunks := ∅ |}.

(** What holds of the shared state while the parts run: the counter counts
    the ETags stored, and every ETag stored under a part number is that of
    a successful response to an attempt of that part. *)
Definition StateInv (count : nat) (ticksOf : nat → list Android.Tick)
    (state : Android.UploadStateData) : Prop :=
  Android.completedChunks state = size (Android.partETags state)
  ∧ ∀ partNumber etag,
      Android.partETags state !! partNumber = Some etag →
      (1 ≤ partNumber ≤ count)%nat
      ∧ ∃ code headers errorBody,
          Android.Ran (Android.Responded code headers errorBody)
            ∈ ticksOf partNumber
          ∧ Android.isSuccessful code = true
          ∧ etag = Android.responseETag headers.

(** ** Sample inputs *)

Definition MiB : Z := 1024 * 1024.

(** An iOS file system in which every path decodes to itself and names a
    file of [fileSize] bytes. *)
Definition iosFiles (fileSize : Z) : IOS.Env :=
  {| IOS.removingPercentEncoding := Some;
     IOS.attributesOfItem := λ _, Some (Some fileSize) |}.

(** An Android file system in which every path names a readable file of
    [fileSize] bytes. *)
Definition androidFiles (fileSize : Z) : Android.Env :=
  {| Android.decodePath := Some;
     Android.fileAt := λ _, Some {| Android.canRead := true;
                                    Android.length := fileSize |} |}.

Definition threeUrls : list string :=
  ["https://bucket/part1"; "https://bucket/part2"; "https://bucket/part3"]%string.

(** A fresh iOS uploader, and the same after a valid [startUpload] of an
    11 MiB file over three URLs with [maxParallel = 2]. *)
Definition iosFresh : IOS.NitroCloudUploader :=
  {| IOS.currentUpload := None; IOS.isNetworkAvailable := true;
     IOS.eventListeners := ∅ |}.

Definition iosUploading : IOS.NitroCloudUploader :=
  IOS.next
    (IOS.startUpload (iosFiles (11 * MiB)) "upload-1" "/video.mp4" threeUrls
       (Some (Qmake 2 1)) iosFresh).

(** A fresh Android uploader, and the same after a valid [startUpload]. *)
Definition androidFresh : Android.NitroCloudUploader :=
  {| Android.activeUploads := ∅; Android.uploadStates := ∅;
     Android.eventListeners := ∅; Android.isNetworkAvailable := true |}.

Definition androidUploading : Android.NitroCloudUploader :=
  Android.next
    (Android.startUpload (androidFiles (11 * MiB)) "upload-1" "/video.mp4"
       threeUrls (Some (Qmake 2 1)) androidFresh).

(** The iOS upload above, paused, with the network gone. *)
Definition iosPausedSession : IOS.UploadSession :=
  {| IOS.uploadId := "upload-1"; IOS.uploadUrls := threeUrls;
     IOS.totalBytes := 11 * MiB; IOS.maxParallel := 2;
     IOS.chunkSize := 5 * MiB; IOS.activeTasks := {[0%nat; 1%nat]};
     IOS.completedChunks := ∅; IOS.etags := [""; ""; ""]%string;
     IOS.state := IOS.paused; IOS.bytesUploaded := 0; IOS.isPaused := true;
     IOS.hasResumedContinuation := false; IOS.resumedWith := None |}.

Definition iosPausedOffline : IOS.NitroCloudUploader :=
  {| IOS.currentUpload := Some iosPausedSession;
     IOS.isNetworkAvailable := false; IOS.eventListeners := ∅ |}.

(** The session [UploadSession.init] builds for the sample upload. *)
Definition iosSession : IOS.UploadSession :=
  {| IOS.uploadId := "upload-1"; IOS.uploadUrls := threeUrls;
     IOS.totalBytes := 11 * MiB; IOS.maxParallel := 2;
     IOS.chunkSize := 5 * MiB; IOS.activeTasks := ∅;
     IOS.completedChunks := ∅; IOS.etags := [""; ""; ""]%string;
     IOS.state := IOS.idle; IOS.bytesUploaded := 0; IOS.isPaused := false;
     IOS.hasResumedContinuation := false; IOS.resumedWith := None |}.

(** A response with status 200 and the given ETag header. *)
Definition iosOk (etag : string) : IOS.TaskOutcome :=
  IOS.DidRespond 200 {["Etag"%string := etag]}.

Definition androidOk (name etag : string) : Android.Tick :=
  Android.Ran (Android.Responded 200 [(name, etag)] None).

(** A run in which the chunks complete in the order 1, 0, 2, with a pause
    in between. *)
Definition outOfOrderSteps : list SessionStep :=
  [TaskDone 1 (iosOk "etag-b"); PauseCalled; TaskDone 0 (iosOk "etag-a");
   ResumeCalled; TaskDone 2 (iosOk "etag-c")].

Definition outOfOrderRun : IOS.UploadSession * list (nat * string) :=
  Eval vm_compute in runSession outOfOrderSteps (IOS.start iosSession).

(** Ticks for three parts: part 2 succeeds on its second attempt. *)
Definition sampleTicks (partNumber : nat) : list Android.Tick :=
  match partNumber with
  | 1%nat => [androidOk "ETag" "etag-a"]
  | 2%nat => [Android.Ran (Android.Threw "timeout"); androidOk "etag" "etag-b"]
  | _ => [androidOk "Etag" "etag-c"]
  end.

(** An iOS upload of a 3 MiB file through a single URL, and one of a
    25 MiB file through five URLs, two tasks at a time. *)
Definition iosSingle : IOS.NitroCloudUploader :=
  IOS.next
    (IOS.startUpload (iosFiles (3 * MiB)) "upload-1" "/clip.mp4"
       ["https://bucket/part1"%string] (Some (Qmake 3 1)) iosFresh).

Definition iosFive : IOS.UploadSession :=
  {| IOS.uploadId := "upload-1";
     IOS.uploadUrls := ["u1"; "u2"; "u3"; "u4"; "u5"]%string;
     IOS.totalBytes := 25 * MiB; IOS.maxParallel := 2;
     IOS.chunkSize := 5 * MiB; IOS.activeTasks := ∅;
     IOS.completedChunks := ∅; IOS.etags := [""; ""; ""; ""; ""]%string;
     IOS.state := IOS.idle; IOS.bytesUploaded := 0; IOS.isPaused := false;
     IOS.hasResumedContinuation := false; IOS.resumedWith := None |}.

(** Chunk 0 fails four times, each time while another transfer is active;
    it is started again whenever another chunk completes, and succeeds on
    its fifth attempt. *)
Definition fourFailures : list SessionStep :=
  [TaskDone 0 (IOS.DidFail "timed out"); TaskDone 1 (iosOk "etag-b");
   TaskDone 0 (IOS.DidFail "timed out"); TaskDone 2 (iosOk "etag-c");
   TaskDone 0 (IOS.DidFail "timed out"); TaskDone 3 (iosOk "etag-d");
   TaskDone 0 (IOS.DidFail "timed out"); TaskDone 4 (iosOk "etag-e");
   TaskDone 0 (iosOk "etag-a")].

(** Ticks for three parts on Android: part 2 fails on every attempt. *)
Definition failingTicks (partNumber : nat) : list Android.Tick :=
  match partNumber with
  | 2%nat => [Android.Ran (Android.Threw "timeout");
              Android.Ran (Android.Responded 503 [] None);
              Android.Ran (Android.Threw "reset");
              androidOk "ETag" "etag-b"]
  | 1%nat => [androidOk "ETag" "etag-a"]
  | _ => [androidOk "ETag" "etag-c"]
  end.

(** ** Further invariants of an iOS session *)

(** Never more transfers in flight than [maxParallel] allows. *)
Definition WithinParallel (s : IOS.UploadSession) : Prop :=
  Z.of_nat (size (IOS.activeTasks s)) ≤ Z.max 0 (IOS.maxParallel s).

(** The sum of [f] over a list of chunk indexes. *)
Definition sumOver (f : nat → Z) (chunks : list nat) : Z :=
  foldr (λ k acc, f k + acc) 0 chunks.




(** The bytes of [content] in a range. *)
Definition slice (content : list Byte.byte) (range : Z * Z)
    : list Byte.byte :=
  take (Z.to_nat range.2) (drop (Z.to_nat range.1) content).

(** A file of eleven bytes. *)
Definition elevenBytes : list Byte.byte :=
  [Byte.x00; Byte.x01; Byte.x02; Byte.x03; Byte.x04; Byte.x05; Byte.x06;
   Byte.x07; Byte.x08; Byte.x09; Byte.x0a].

(** What the system makes of a request, the service being in the
    foreground or not: [startForeground] puts it there unless it throws
    ([accepted] false), [stopForeground] takes it out. *)
Definition systemAfter (accepted inForeground : bool)
    (request : UploadForegroundService.Request) : bool :=
  match request with
  | UploadForegroundService.StartForeground _ => inForeground || accepted
  | UploadForegroundService.StopForeground => false
  | _ => inForeground
  end.

(** The service after a sequence of intents, whether it is in the
    foreground then, and what it asked of the system on the way.  Each
    intent comes with the answer of the system to a [startForeground]
    made while handling it: true when the call returns, false when it
    throws. *)
Fixpoint runService
    (intents : list (option UploadForegroundService.Intent * bool))
    (s : UploadForegroundService.Service) (inForeground : bool)
    : UploadForegroundService.Service * bool
      * list UploadForegroundService.Request :=
  match intents with
  | [] => (s, inForeground, [])
  | (intent, accepted) :: rest =>
    let '(s1, requests) := UploadForegroundService.onStartCommand intent s in
    let '(s2, inForeground', requests') :=
      runService rest s1 (foldl (systemAfter accepted) inForeground requests) in
    (s2, inForeground', requests ++ requests')
  end.

(** Reads the requests of the service against its flag
    [isServiceStarted]: [startForeground] is asked for only with the flag
    down, and raises it; notifications are posted and the foreground is
    left only with the flag up; leaving lowers it and is followed by
    [stopSelf].  [None] when a request is out of place; else the flag at
    the end. *)
Fixpoint followsFlag (started : bool)
    (requests : list UploadForegroundService.Request) : option bool :=
  match requests with
  | [] => Some started
  | UploadForegroundService.StartForeground _ :: rest =>
    if started then None else followsFlag true rest
  | UploadForegroundService.Notify _ :: rest =>
    if started then followsFlag true rest else None
  | UploadForegroundService.StopForeground
      :: UploadForegroundService.StopSelf :: rest =>
    if started then followsFlag false rest else None
  | _ => None
  end.

(** The notifications among the requests. *)
Definition notifications (requests : list UploadForegroundService.Request)
    : list UploadForegroundService.Notification :=
  omap (λ request,
          match request with
          | UploadForegroundService.StartForeground notification
          | UploadForegroundService.Notify notification => Some notification
          | _ => None
          end) requests.



(** The ceiling of [a / b] for a positive [b], as the specification means
    it. *)
Definition ceiling (a b : Z) : Z := - ((- a) / b).

(** ** The part plan *)

Section PartPlan.

Import IOS.

Lemma ceiling_spec a b :
  0 < b → (ceiling a b - 1) * b < a ∧ a ≤ ceiling a b * b.
Proof.
  intros Hb. unfold ceiling.
  pose proof (Z.div_mod (- a) b ltac:(lia)) as Hdm.
  pose proof (Z.mod_pos_bound (- a) b Hb) as Hm.
  nia.
Qed.

Lemma ceiling_unique a b c :
  0 < b → (c - 1) * b < a → a ≤ c * b → ceiling a b = c.
Proof.
  intros Hb Hlo Hhi. destruct (ceiling_spec a b Hb). nia.
Qed.

(** Rounding moves a quotient by at most a half. *)
Lemma roundHalfEven_near num den :
  0 < den → - den ≤ 2 * (roundHalfEven num den * den - num) ≤ den.
Proof.
  intros Hden. unfold roundHalfEven.
  pose proof (Z.div_mod num den ltac:(lia)) as Hdm.
  pose proof (Z.mod_pos_bound num den Hden) as Hr.
  destruct (Z.ltb_spec (2 * (num `mod` den)) den);
    [|destruct (Z.ltb_spec den (2 * (num `mod` den)));
      [|destruct (Z.even (num / den))]]; nia.
Qed.

(** A quotient of a number below 2^53 is rounded at a scale [2^-s] at which
    it has at least 53 bits. *)
Lemma nearestDouble_scale num den :
  0 < num < 2 ^ 53 → 0 < den →
  ∃ s, 0 ≤ s
       ∧ nearestDouble num den = (roundHalfEven (num * 2 ^ s) den, - s)
       ∧ 2 ^ 52 * den ≤ num * 2 ^ s.
Proof.
  intros Hnum Hden. unfold nearestDouble.
  pose proof (Z.log2_spec num ltac:(lia)) as Hln.
  pose proof (Z.log2_spec den Hden) as Hld.
  pose proof (Z.log2_nonneg num) as Hln0.
  pose proof (Z.log2_nonneg den) as Hld0.
  assert (Hlt53 : Z.log2 num < 53).
  { apply Z.log2_lt_pow2; lia. }
  set (ln := Z.log2 num) in *. set (ld := Z.log2 den) in *.
  set (k := ln - ld).
  assert (Hk : k ≤ 52) by (unfold k; lia).
  destruct (Z.leb_spec (den * 2 ^ Z.max 0 k) (num * 2 ^ Z.max 0 (- k)))
    as [Hge|Hlt].
  - exists (52 - k). split; [lia|].
    replace (Z.max 0 (- (k - 52))) with (52 - k) by lia.
    replace (Z.max 0 (k - 52)) with 0 by lia.
    rewrite Z.pow_0_r, Z.mul_1_r.
    replace (- (52 - k)) with (k - 52) by lia. split; [done|].
    destruct (Z.le_gt_cases 0 k) as [Hpos|Hneg].
    + replace (Z.max 0 k) with k in Hge by lia.
      replace (Z.max 0 (- k)) with 0 in Hge by lia.
      rewrite Z.pow_0_r, Z.mul_1_r in Hge.
      assert (Hsplit : 2 ^ 52 = 2 ^ k * 2 ^ (52 - k)).
      { rewrite <- Z.pow_add_r by lia. f_equal; lia. }
      rewrite Hsplit.
      assert (0 < 2 ^ (52 - k)) by (apply Z.pow_pos_nonneg; lia).
      nia.
    + replace (Z.max 0 k) with 0 in Hge by lia.
      replace (Z.max 0 (- k)) with (- k) in Hge by lia.
      rewrite Z.pow_0_r, Z.mul_1_r in Hge.
      assert (Hsplit : 2 ^ (52 - k) = 2 ^ 52 * 2 ^ (- k)).
      { rewrite <- Z.pow_add_r by lia. f_equal; lia. }
      rewrite Hsplit. nia.
  - exists (53 - k). split; [lia|].
    replace (Z.max 0 (- (k - 53))) with (53 - k) by lia.
    replace (Z.max 0 (k - 53)) with 0 by lia.
    rewrite Z.pow_0_r, Z.mul_1_r.
    replace (- (53 - k)) with (k - 53) by lia. split; [done|].
    assert (Hsplit : 2 ^ ln * 2 ^ (53 - k) = 2 ^ 52 * 2 ^ (ld + 1)).
    { rewrite <- !Z.pow_add_r by lia. f_equal; unfold k; lia. }
    assert (0 < 2 ^ (53 - k)) by (apply Z.pow_pos_nonneg; lia).
    replace (Z.succ ld) with (ld + 1) in Hld by lia.
    nia.
Qed.

(** Below 2^53 the doubles give the exact ceiling: the quotient is rounded
    by less than its distance to the next whole number. *)
Lemma ceilOfQuotient_exact a b :
  0 ≤ a < 2 ^ 53 → 0 < b < 2 ^ 53 →
  ceilOfQuotient a b = Some (ceiling a b).
Proof.
  intros Ha Hb. unfold ceilOfQuotient, doubleOfInt.
  destruct (Z.ltb_spec (Z.abs a) (2 ^ 53)); [|lia].
  destruct (Z.ltb_spec (Z.abs b) (2 ^ 53)); [|lia].
  destruct (Z.eqb_spec b 0); [lia|].
  destruct (Z.eqb_spec a 0) as [->|Hnz].
  { unfold ceiling. rewrite Z.opp_0, Z.div_0_l by lia. done. }
  rewrite !Z.abs_eq by lia.
  destruct (nearestDouble_scale a b ltac:(lia) ltac:(lia))
    as (s & Hs & -> & Hscale).
  destruct (Z.ltb_spec a 0); [lia|]. destruct (Z.ltb_spec b 0); [lia|].
  cbn [xorb].
  set (m := roundHalfEven (a * 2 ^ s) b).
  pose proof (roundHalfEven_near (a * 2 ^ s) b ltac:(lia)) as Hnear.
  fold m in Hnear.
  destruct (ceiling_spec a b ltac:(lia)) as [Hlo Hhi].
  set (c := ceiling a b) in *.
  assert (Hp : 0 < 2 ^ s) by (apply Z.pow_pos_nonneg; lia).
  set (P := 2 ^ s) in *.
  assert (Hroom : b < 2 * P) by nia.
  assert (Hupper : m ≤ c * P) by nia.
  assert (Hlower : (c - 1) * P < m) by nia.
  assert (Hm : - ((- m) / 2 ^ (- - s)) = c).
  { rewrite Z.opp_involutive. fold P. apply (ceiling_unique m P c); lia. }
  f_equal.
  destruct (Z.leb_spec 0 (- s)) as [Hz|?]; [|done].
  assert (s = 0) as -> by lia. cbn in *. unfold P in *. cbn in *.
  rewrite Z.mul_1_r. rewrite Z.div_1_r in Hm. lia.
Qed.

Lemma ceiling_bounds a b : 0 ≤ a → 0 < b → 0 ≤ ceiling a b ≤ a.
Proof.
  intros Ha Hb. destruct (ceiling_spec a b Hb) as [Hlo Hhi].
  split; [nia|]. destruct (Z.le_gt_cases (ceiling a b) a); [done|]. nia.
Qed.

Lemma calculatedChunkSize_exact fileSize count :
  0 ≤ fileSize < 2 ^ 53 →
  (1 ≤ count)%nat →
  Z.of_nat count < 2 ^ 53 →
  calculatedChunkSize fileSize count
    = Some (ceiling fileSize (Z.of_nat count)).
Proof.
  intros Hsize Hc Hmany. unfold calculatedChunkSize.
  rewrite ceilOfQuotient_exact by lia. cbn. unfold int64Of.
  pose proof (ceiling_bounds fileSize (Z.of_nat count)
                ltac:(lia) ltac:(lia)) as Hb.
  assert (Hpow : 2 ^ 53 < 2 ^ 63) by done.
  destruct (Z.leb_spec (- 2 ^ 63) (ceiling fileSize (Z.of_nat count)));
    [|lia].
  destruct (Z.ltb_spec (ceiling fileSize (Z.of_nat count)) (2 ^ 63));
    [done|lia].
Qed.

Lemma chunkSizeFor_exact fileSize count :
  0 ≤ fileSize < 2 ^ 53 →
  (1 ≤ count)%nat →
  Z.of_nat count < 2 ^ 53 →
  chunkSizeFor fileSize count
    = Some (Z.max (ceiling fileSize (Z.of_nat count)) minimumChunkSize).
Proof.
  intros Hsize Hc Hmany. unfold chunkSizeFor.
  by rewrite calculatedChunkSize_exact.
Qed.

Lemma chunkSizeFor_ge fileSize count chunkSize :
  chunkSizeFor fileSize count = Some chunkSize →
  minimumChunkSize ≤ chunkSize.
Proof.
  unfold chunkSizeFor.
  destruct (calculatedChunkSize fileSize count); [|done].
  intros [= <-]. lia.
Qed.

Lemma chunkSizeFor_covers fileSize count chunkSize :
  0 ≤ fileSize < 2 ^ 53 →
  (1 ≤ count)%nat →
  Z.of_nat count < 2 ^ 53 →
  chunkSizeFor fileSize count = Some chunkSize →
  fileSize ≤ Z.of_nat count * chunkSize.
Proof.
  intros Hsize Hc Hmany. rewrite chunkSizeFor_exact by done. intros [= <-].
  destruct (ceiling_spec fileSize (Z.of_nat count)) as [_ H]; [lia|].
  nia.
Qed.

(** The guard of [init] bounds the start of the last chunk when the URLs
    are not more than a chunk has bytes. *)
Lemma last_chunk_starts_inside fileSize count chunkSize :
  0 ≤ fileSize < 2 ^ 53 →
  (1 ≤ count)%nat →
  Z.of_nat count ≤ minimumChunkSize + 1 →
  requiredMinimumSize count ≤ fileSize →
  chunkSizeFor fileSize count = Some chunkSize →
  (Z.of_nat count - 1) * chunkSize ≤ fileSize.
Proof.
  intros Hsize Hc Hn Hreq. unfold requiredMinimumSize in Hreq.
  assert (Hmin : minimumChunkSize + 1 < 2 ^ 53) by done.
  rewrite chunkSizeFor_exact by lia. intros [= <-].
  destruct (ceiling_spec fileSize (Z.of_nat count)) as [Hlo _]; [lia|].
  destruct (Z.max_spec (ceiling fileSize (Z.of_nat count)) minimumChunkSize)
    as [[Hlt ->]|[Hge ->]]; [done|].
  nia.
Qed.

Lemma tiles_from c total (k m : nat) :
  0 ≤ c →
  (Z.of_nat (k + m) - 1) * c ≤ total →
  total ≤ Z.of_nat (k + m) * c →
  (1 ≤ m)%nat →
  tiles (Z.of_nat k * c)
    ((λ index, (chunkOffset c index, chunkLength c total index)) <$> seq k m)
    total.
Proof.
  revert k. induction m as [|m IH]; intros k Hc Hlo Hhi Hm; [lia|].
  cbn [seq fmap list_fmap tiles]. unfold chunkLength, chunkOffset.
  split; [done|].
  destruct m as [|m].
  - cbn. rewrite Nat2Z.inj_add in Hlo, Hhi. split; lia.
  - rewrite !Nat2Z.inj_add, !Nat2Z.inj_succ in Hlo, Hhi. split; [nia|].
    replace (Z.of_nat k * c + Z.min c (total - Z.of_nat k * c))
      with (Z.of_nat (S k) * c) by nia.
    apply IH; [done| | |lia];
      rewrite !Nat2Z.inj_add, !Nat2Z.inj_succ; lia.
Qed.

Lemma tiles_totalSize parts : ∀ start stop,
  tiles start parts stop → start + totalSize parts = stop.
Proof.
  induction parts as [|[o s] rest IH]; intros start stop; cbn.
  - unfold totalSize. cbn. lia.
  - intros (-> & Hs & Ht). apply IH in Ht. unfold totalSize in *. cbn. lia.
Qed.

Lemma partPlan_length chunkSize fileSize count :
  List.length (partPlan chunkSize fileSize count) = count.
Proof. unfold partPlan. by rewrite length_fmap, length_seq. Qed.

Lemma partPlan_lookup chunkSize fileSize count index :
  (index < count)%nat →
  partPlan chunkSize fileSize count !! index =
    Some (chunkOffset chunkSize index,
          chunkLength chunkSize fileSize index).
Proof.
  intros Hi. unfold partPlan.
  rewrite list_lookup_fmap, lookup_seq_lt; done.
Qed.

End PartPlan.

Section PartPlanClaims.

Import IOS.

(** C1 (as amended).  For every file size above zero and below 2^53 and
    every count of URLs from 1 to 5 MiB + 1 that passes the guard of
    [UploadSession.init] (the file has at least [(count - 1) * 5 MiB]
    bytes), [init] computes a chunk size, and the iOS part plan has exactly
    [count] parts; they tile [0, fileSize) without gap or overlap and their
    sizes add up to [fileSize]; the chunk size is
    [max(5 MiB, ceil(fileSize / count))], with the exact ceiling; parts
    [1 .. count - 1] have that size at offset
    [(partNumber - 1) * chunkSize], and the last part takes what remains
    (possibly nothing). *)
Theorem ios_part_plan_partitions (fileSize : Z) (count : nat) :
  0 < fileSize →
  fileSize < 2 ^ 53 →
  (1 ≤ count)%nat →
  Z.of_nat count ≤ 5 * 1024 * 1024 + 1 →
  requiredMinimumSize count ≤ fileSize →
  ∃ chunkSize,
    chunkSizeFor fileSize count = Some chunkSize ∧
    let plan := partPlan chunkSize fileSize count in
    chunkSize = Z.max (5 * 1024 * 1024) (ceiling fileSize (Z.of_nat count)) ∧
    (ceiling fileSize (Z.of_nat count) - 1) * Z.of_nat count < fileSize
      ≤ ceiling fileSize (Z.of_nat count) * Z.of_nat count ∧
    List.length plan = count ∧
    tiles 0 plan fileSize ∧
    totalSize plan = fileSize ∧
    (∀ partNumber : nat, (1 ≤ partNumber < count)%nat →
       plan !! (partNumber - 1)%nat =
         Some ((Z.of_nat partNumber - 1) * chunkSize, chunkSize)) ∧
    plan !! (count - 1)%nat =
      Some ((Z.of_nat count - 1) * chunkSize,
            fileSize - (Z.of_nat count - 1) * chunkSize).
Proof.
  intros Hpos Hsmall Hcount Hmany Hguard.
  assert (Hbound : Z.of_nat count < 2 ^ 53) by lia.
  pose proof (chunkSizeFor_exact fileSize count
                ltac:(lia) Hcount Hbound) as Hsize.
  eexists. split; [exact Hsize|].
  set (chunkSize := Z.max _ _) in *. intros plan.
  assert (Hmin : minimumChunkSize ≤ chunkSize)
    by (by eapply chunkSizeFor_ge).
  assert (Hcov : fileSize ≤ Z.of_nat count * chunkSize)
    by (eapply chunkSizeFor_covers; [| | |exact Hsize]; [lia|done|done]).
  assert (Hlast : (Z.of_nat count - 1) * chunkSize ≤ fileSize)
    by (eapply last_chunk_starts_inside;
        [| | | |exact Hsize]; [lia|done|done|done]).
  assert (Hmin' : 0 < minimumChunkSize) by done.
  assert (Htiles : tiles 0 plan fileSize).
  { pose proof (tiles_from chunkSize fileSize 0 count) as H.
    cbn in H. apply H; [lia|done|done|done]. }
  split_and!.
  - unfold chunkSize, minimumChunkSize. lia.
  - by apply ceiling_spec; lia.
  - by apply ceiling_spec; lia.
  - apply partPlan_length.
  - done.
  - apply tiles_totalSize in Htiles. lia.
  - intros partNumber [H1 H2]. unfold plan.
    rewrite partPlan_lookup by lia.
    unfold chunkLength, chunkOffset.
    replace (Z.of_nat (partNumber - 1)) with (Z.of_nat partNumber - 1) by lia.
    assert (Z.of_nat partNumber * chunkSize ≤ (Z.of_nat count - 1) * chunkSize)
      by (apply Z.mul_le_mono_nonneg_r; lia).
    f_equal. f_equal. lia.
  - unfold plan. rewrite partPlan_lookup by lia.
    unfold chunkLength, chunkOffset.
    replace (Z.of_nat (count - 1)) with (Z.of_nat count - 1) by lia.
    f_equal. f_equal. lia.
Qed.

Lemma ios_part_plan_partitions_witness :
  let plan := partPlan (5 * MiB) (11 * MiB) 3 in
  chunkSizeFor (11 * MiB) 3 = Some (5 * MiB) ∧
  plan = [(0, 5 * MiB); (5 * MiB, 5 * MiB); (10 * MiB, 1 * MiB)] ∧
  tiles 0 plan (11 * MiB) ∧ totalSize plan = 11 * MiB.
Proof.
  destruct (ios_part_plan_partitions (11 * MiB) 3
              ltac:(done) ltac:(done) ltac:(lia) ltac:(done) ltac:(done))
    as (chunkSize & Hsize & H).
  assert (Hfive : chunkSizeFor (11 * MiB) 3 = Some (5 * MiB)) by reflexivity.
  assert (chunkSize = 5 * MiB) as -> by congruence.
  cbv zeta in H. destruct H as (_ & _ & _ & Ht & Hs & _).
  split; [reflexivity|]. split; [reflexivity|]. split; [exact Ht|exact Hs].
Defined.

(** C1, as stated, fails on iOS.  For 8 MiB and three URLs the session is
    refused, so there is no plan at all; and the ranges [uploadChunk] would
    read there do not tile the file, the third having a negative size.  For
    2^54 + 2 bytes and three URLs, which pass the guard, the quotient is
    rounded down to a whole number, the chunk size is one less than the
    ceiling, and the three parts leave out three bytes of the file. *)
Lemma ios_part_plan_counterexample :
  (0 < 8 * MiB ∧ (1 ≤ List.length threeUrls)%nat ∧
   init (iosFiles (8 * MiB)) "upload-1" "/video.mp4" threeUrls 3 =
     inl (FileTooSmall (8 * MiB) 3 (10 * MiB)) ∧
   chunkSizeFor (8 * MiB) 3 = Some (5 * MiB) ∧
   partPlan (5 * MiB) (8 * MiB) 3 =
     [(0, 5 * MiB); (5 * MiB, 3 * MiB); (10 * MiB, - (2 * MiB))] ∧
   ¬ tiles 0 (partPlan (5 * MiB) (8 * MiB) 3) (8 * MiB) ∧
   totalSize (partPlan (5 * MiB) (8 * MiB) 3) ≠ 8 * MiB)
  ∧
  (0 < 2 ^ 54 + 2 ∧ requiredMinimumSize 3 ≤ 2 ^ 54 + 2 ∧
   ceiling (2 ^ 54 + 2) 3 = 6004799503160662 ∧
   chunkSizeFor (2 ^ 54 + 2) 3 = Some 6004799503160661 ∧
   partPlan 6004799503160661 (2 ^ 54 + 2) 3 =
     [(0, 6004799503160661); (6004799503160661, 6004799503160661);
      (12009599006321322, 6004799503160661)] ∧
   ¬ tiles 0 (partPlan 6004799503160661 (2 ^ 54 + 2) 3) (2 ^ 54 + 2) ∧
   totalSize (partPlan 6004799503160661 (2 ^ 54 + 2) 3) = 2 ^ 54 + 2 - 3).
Proof.
  split.
  - split; [done|]. split; [cbn; lia|]. split; [reflexivity|].
    split; [reflexivity|]. split; [reflexivity|]. split.
    + cbn. intros (_ & _ & _ & _ & H & _). discriminate H.
    + discriminate.
  - split; [done|]. split; [done|]. split; [reflexivity|].
    split; [reflexivity|]. split; [reflexivity|]. split.
    + cbn. intros (_ & _ & _ & _ & _ & _ & H). discriminate H.
    + reflexivity.
Qed.

(** The last part can be empty: 10 MiB over three URLs passes the guard and
    leaves nothing for the third part. *)
Lemma ios_part_plan_empty_last :
  requiredMinimumSize 3 ≤ 10 * MiB
  ∧ chunkSizeFor (10 * MiB) 3 = Some (5 * MiB)
  ∧ partPlan (5 * MiB) (10 * MiB) 3
    = [(0, 5 * MiB); (5 * MiB, 5 * MiB); (10 * MiB, 0)].
Proof. split; [done|]. split; reflexivity. Qed.

(** Beyond 5 MiB + 1 URLs the guard of [init] no longer bounds the plan:
    with 10^7 URLs and a file of 10^7 * 5 MiB + 1 bytes the session is
    accepted, the chunk size is 5 MiB + 1, and the last chunk would start
    past the end of the file. *)
Lemma ios_part_plan_many_urls (count : nat) :
  Z.of_nat count = 10000000 →
  let fileSize := 10000000 * (5 * MiB) + 1 in
  requiredMinimumSize count ≤ fileSize ∧
  chunkSizeFor fileSize count = Some (5 * MiB + 1) ∧
  fileSize < chunkOffset (5 * MiB + 1) (count - 1) ∧
  chunkLength (5 * MiB + 1) fileSize (count - 1) < 0.
Proof.
  intros Hn. cbv zeta.
  assert (Hn1 : Z.of_nat (count - 1) = 9999999) by lia.
  unfold requiredMinimumSize, chunkSizeFor, calculatedChunkSize, chunkLength,
    chunkOffset.
  rewrite Hn, Hn1. vm_compute. repeat split; discriminate.
Qed.

End PartPlanClaims.

Section AndroidPartPlan.

Import Android.

Lemma wrap64_id z : - 2 ^ 63 ≤ z < 2 ^ 63 → wrap64 z = z.
Proof.
  intros Hz. unfold wrap64. rewrite Z.mod_small; lia.
Qed.

(** Ranges given by a monotone list of boundaries tile what they span. *)
Lemma tiles_boundaries (parts : list (Z * Z)) : ∀ (b : nat → Z),
  (∀ i, (i < List.length parts)%nat →
        parts !! i = Some (b i, b (S i) - b i) ∧ b i ≤ b (S i)) →
  tiles (b 0%nat) parts (b (List.length parts)).
Proof.
  induction parts as [|[o s] rest IH]; intros b Hb; [done|].
  destruct (Hb 0%nat ltac:(cbn; lia)) as [Hhd Hle].
  cbn in Hhd. injection Hhd as -> ->.
  cbn [tiles]. split; [done|]. split; [lia|].
  replace (b 0%nat + (b 1%nat - b 0%nat)) with (b 1%nat) by lia.
  apply (IH (λ i, b (S i))). intros i Hi.
  apply (Hb (S i)). cbn. lia.
Qed.

(** The proportional split of [performUpload] tiles the file for every
    non-empty list of URLs, as long as [fileSize * count] fits a [Long]. *)
Lemma android_plan_partitions (fileSize : Z) (uploadUrls : list string) :
  0 < fileSize →
  uploadUrls ≠ [] →
  fileSize * Z.of_nat (List.length uploadUrls) < 2 ^ 63 →
  List.length (planParts fileSize uploadUrls) = List.length uploadUrls ∧
  tiles 0 (ranges (planParts fileSize uploadUrls)) fileSize ∧
  totalSize (ranges (planParts fileSize uploadUrls)) = fileSize.
Proof.
  intros Hpos Hne Hfit.
  set (n := List.length uploadUrls) in *.
  assert (Hn : (0 < n)%nat) by (destruct uploadUrls; [done|cbn; lia]).
  assert (Hsmall : fileSize < 2 ^ 63) by nia.
  assert (Hlen : List.length (planParts fileSize uploadUrls) = n).
  { unfold planParts. by rewrite length_imap. }
  assert (Ht : tiles 0 (ranges (planParts fileSize uploadUrls)) fileSize).
  { assert (Hlen' : List.length (ranges (planParts fileSize uploadUrls)) = n).
    { unfold ranges. by rewrite length_fmap. }
    pose proof (tiles_boundaries (ranges (planParts fileSize uploadUrls))
                  (λ i, fileSize * Z.of_nat i / Z.of_nat n)) as H.
    rewrite Hlen' in H. cbn beta in H.
    rewrite Z.mul_0_r, Z.div_0_l in H by lia.
    rewrite Z.div_mul in H by lia.
    apply H. intros i Hi.
    assert (Hmono : fileSize * Z.of_nat i / Z.of_nat n
                    ≤ fileSize * Z.of_nat (S i) / Z.of_nat n).
    { apply Z.div_le_mono; nia. }
    assert (Hhi : fileSize * Z.of_nat (S i) / Z.of_nat n ≤ fileSize).
    { apply Z.div_le_upper_bound; nia. }
    assert (Hlo : 0 ≤ fileSize * Z.of_nat i / Z.of_nat n).
    { apply Z.div_pos; nia. }
    split; [|done].
    unfold ranges, planParts. rewrite list_lookup_fmap, list_lookup_imap.
    destruct (lookup_lt_is_Some_2 uploadUrls i Hi) as [u ->]. cbn.
    fold n. unfold partInfo. cbn. f_equal.
    rewrite (wrap64_id (fileSize * Z.of_nat i)) by nia.
    rewrite Z.quot_div_nonneg by nia.
    f_equal.
    case_decide as Hlast.
    - rewrite wrap64_id by nia.
      replace (S i) with n by lia. rewrite Z.div_mul by lia. done.
    - rewrite (wrap64_id (fileSize * (Z.of_nat i + 1))) by nia.
      rewrite Z.quot_div_nonneg by nia.
      replace (Z.of_nat i + 1) with (Z.of_nat (S i)) by lia.
      rewrite wrap64_id; [done|]. lia. }
  split; [done|]. split; [done|].
  apply tiles_totalSize in Ht. lia.
Qed.

(** The Android split is not the fixed-chunk one: 11 MiB over three URLs
    gives three nearly equal parts, none of 5 MiB. *)
Lemma android_plan_is_proportional :
  ranges (planParts (11 * MiB) threeUrls) =
    [(0, 3844778); (3844778, 3844779); (7689557, 3844779)] ∧
  IOS.chunkSizeFor (11 * MiB) 3 = Some (5 * MiB) ∧
  IOS.partPlan (5 * MiB) (11 * MiB) 3 =
    [(0, 5 * MiB); (5 * MiB, 5 * MiB); (10 * MiB, 1 * MiB)].
Proof. split; [|split]; reflexivity. Qed.

End AndroidPartPlan.

(** ** The iOS dispatch loop *)

Section SessionLemmas.

Import IOS.

Lemma with_activeTasks_twice tasks tasks' s :
  with_activeTasks tasks (with_activeTasks tasks' s) = with_activeTasks tasks s.
Proof. by destruct s. Qed.

Lemma with_activeTasks_same s : with_activeTasks (activeTasks s) s = s.
Proof. by destruct s. Qed.

(** The loop either finds nothing left and nothing active and completes
    the session, or only adds active tasks. *)
Lemma dispatchLoop_cases fuel : ∀ s,
  (dispatchLoop fuel s = complete s ∧ activeTasks s = ∅
   ∧ getNextChunkIndex s = None) ∨
  (dispatchLoop fuel s = with_activeTasks (activeTasks (dispatchLoop fuel s)) s
   ∧ activeTasks s ⊆ activeTasks (dispatchLoop fuel s)).
Proof.
  induction fuel as [|fuel IH]; intros s; cbn [dispatchLoop].
  - right. by rewrite with_activeTasks_same.
  - destruct (Z.of_nat (size (activeTasks s)) <? maxParallel s).
    2: { right. by rewrite with_activeTasks_same. }
    destruct (getNextChunkIndex s) as [nextIndex|] eqn:Hnext.
    + right. destruct (IH (uploadChunk nextIndex s)) as [(_ & He & _)|[Heq Hsub]].
      * unfold uploadChunk in He. destruct s; cbn in He. set_solver.
      * unfold uploadChunk in Heq, Hsub |- *.
        rewrite with_activeTasks_twice in Heq. split; [done|].
        destruct s; cbn in *. set_solver.
    + case_decide as Hempty.
      * by left.
      * right. by rewrite with_activeTasks_same.
Qed.

Lemma getNextChunkIndex_Some s i :
  getNextChunkIndex s = Some i →
  (i < List.length (uploadUrls s))%nat ∧ (i ∉ completedChunks s)
  ∧ (i ∉ activeTasks s).
Proof.
  intros Hsome. unfold getNextChunkIndex in Hsome.
  apply find_some in Hsome as [Hin H]. rewrite in_seq in Hin.
  apply andb_true_iff in H as [H1 H2].
  apply bool_decide_eq_true in H1, H2. split; [lia|done].
Qed.

(** Starting a chunk takes it off the pending ones. *)
Lemma uploadChunk_pending s i :
  getNextChunkIndex s = Some i →
  (List.length (pendingChunks (uploadChunk i s))
   < List.length (pendingChunks s))%nat.
Proof.
  intros Hnext. apply getNextChunkIndex_Some in Hnext as (Hlt & Hdone & Hact).
  unfold pendingChunks, uploadChunk. cbn.
  rewrite <- (list_filter_filter_l
                (λ x, (x ∉ completedChunks s) ∧ (x ∉ {[i]} ∪ activeTasks s))
                (λ x, (x ∉ completedChunks s) ∧ (x ∉ activeTasks s))).
  - apply (length_filter_lt _ _ i).
    + apply list_elem_of_filter. split; [done|]. apply elem_of_seq. lia.
    + intros [_ Hi]. apply Hi, elem_of_union. left. by apply elem_of_singleton.
  - intros x [Hx1 Hx2]. split; [done|].
    intros Hx. apply Hx2, elem_of_union. by right.
Qed.

(** The loop ends by itself before its fuel runs out: any two amounts of
    fuel above the number of pending chunks give the same session.
    [uploadNextChunks] supplies one more than there are URLs. *)
Lemma dispatchLoop_enough_fuel fuel : ∀ fuel' s,
  (List.length (pendingChunks s) < fuel)%nat →
  (List.length (pendingChunks s) < fuel')%nat →
  dispatchLoop fuel s = dispatchLoop fuel' s.
Proof.
  induction fuel as [|fuel IH]; intros fuel' s Hf Hf'; [lia|].
  destruct fuel' as [|fuel']; [lia|]. cbn [dispatchLoop].
  destruct (Z.of_nat (size (activeTasks s)) <? maxParallel s); [|done].
  destruct (getNextChunkIndex s) as [i|] eqn:Hnext; [|done].
  pose proof (uploadChunk_pending s i Hnext).
  apply IH; lia.
Qed.

Lemma uploadNextChunks_fuel s fuel :
  state s = uploading →
  (List.length (uploadUrls s) < fuel)%nat →
  uploadNextChunks s = dispatchLoop fuel s.
Proof.
  intros Hst Hfuel. unfold uploadNextChunks. rewrite decide_True by done.
  assert (List.length (pendingChunks s) ≤ List.length (uploadUrls s))%nat.
  { unfold pendingChunks.
    etransitivity; [apply length_filter|]. by rewrite length_seq. }
  apply dispatchLoop_enough_fuel; lia.
Qed.

Lemma getNextChunkIndex_None s i :
  getNextChunkIndex s = None →
  (i < List.length (uploadUrls s))%nat →
  i ∈ completedChunks s ∨ i ∈ activeTasks s.
Proof.
  intros Hnone Hi. unfold getNextChunkIndex in Hnone.
  pose proof (find_none _ _ Hnone i) as H.
  rewrite in_seq in H. specialize (H ltac:(lia)).
  apply andb_false_iff in H as [H|H]; apply bool_decide_eq_false in H.
  - left. by apply dec_stable.
  - right. by apply dec_stable.
Qed.

(** While a chunk is still to complete, [uploadNextChunks] leaves all but
    the active tasks as they are. *)
Lemma uploadNextChunks_pending s :
  (∃ i, (i < List.length (uploadUrls s))%nat ∧ (i ∉ completedChunks s)) →
  uploadNextChunks s = with_activeTasks (activeTasks (uploadNextChunks s)) s.
Proof.
  intros (i & Hi & Hnot). unfold uploadNextChunks.
  case_decide; [|by rewrite with_activeTasks_same].
  destruct (dispatchLoop_cases (S (List.length (uploadUrls s))) s)
    as [(_ & Hempty & Hnone)|[Heq _]]; [|done].
  destruct (getNextChunkIndex_None s i Hnone Hi) as [?|Hact]; [done|].
  rewrite Hempty in Hact. set_solver.
Qed.

(** When every chunk can be staged the loop in full ends within its fuel,
    calls no delegate and leaves what [dispatchLoop] leaves. *)
Lemma dispatchLoopAt_staged staging fuel : ∀ s,
  (∀ index, (index < List.length (uploadUrls s))%nat →
            staging index = None) →
  (List.length (pendingChunks s) < fuel)%nat →
  dispatchLoopAt staging fuel s = Some (dispatchLoop fuel s, []).
Proof.
  induction fuel as [|fuel IH]; intros s Hstaged Hfuel; [lia|].
  cbn [dispatchLoopAt dispatchLoop].
  destruct (Z.of_nat (size (activeTasks s)) <? maxParallel s); [|done].
  destruct (getNextChunkIndex s) as [i|] eqn:Hnext; [|done].
  pose proof (uploadChunk_pending s i Hnext) as Hless.
  apply getNextChunkIndex_Some in Hnext as (Hi & _).
  unfold uploadChunkAt. rewrite (Hstaged i Hi).
  rewrite IH; [done|exact Hstaged|lia].
Qed.

Lemma uploadNextChunksAt_staged staging fuel s :
  (∀ index, (index < List.length (uploadUrls s))%nat →
            staging index = None) →
  (List.length (uploadUrls s) < fuel)%nat →
  uploadNextChunksAt staging fuel s = Some (uploadNextChunks s, []).
Proof.
  intros Hstaged Hfuel. unfold uploadNextChunksAt.
  case_decide as Hst.
  - assert (List.length (pendingChunks s) ≤ List.length (uploadUrls s))%nat.
    { unfold pendingChunks.
      etransitivity; [apply length_filter|]. by rewrite length_seq. }
    rewrite dispatchLoopAt_staged by (done || lia).
    by rewrite <- uploadNextChunks_fuel.
  - unfold uploadNextChunks. by rewrite decide_False.
Qed.

(** A chunk that cannot be staged keeps the loop turning: the failure
    leaves the number of active tasks and the next index as they are, so
    the same chunk is picked on every turn and the loop does not end. *)
Lemma dispatchLoopAt_spins staging index error fuel : ∀ s,
  Z.of_nat (size (activeTasks s)) < maxParallel s →
  getNextChunkIndex s = Some index →
  staging index = Some error →
  dispatchLoopAt staging fuel s = None.
Proof.
  induction fuel as [|fuel IH]; intros s Hroom Hnext Hthrows; [done|].
  cbn [dispatchLoopAt].
  destruct (Z.ltb_spec (Z.of_nat (size (activeTasks s))) (maxParallel s));
    [|lia].
  rewrite Hnext. unfold uploadChunkAt. rewrite Hthrows.
  rewrite IH; [done| | |done].
  - unfold fail. by destruct (hasResumedContinuation s).
  - unfold fail. by destruct (hasResumedContinuation s).
Qed.

(** The first turn on such a chunk fails the upload. *)
Lemma uploadChunkAt_throws staging index error s :
  staging index = Some error →
  hasResumedContinuation s = false →
  let '(s', calls) := uploadChunkAt staging index s in
  state s' = failed ∧ resumedWith s' = Some (inl error)
  ∧ activeTasks s' = activeTasks s
  ∧ calls = [DidFailChunk index error].
Proof.
  intros Hthrows Hpending. unfold uploadChunkAt, fail.
  by rewrite Hthrows, Hpending.
Qed.

Lemma resume_paused s :
  state s = paused →
  (∃ i, (i < List.length (uploadUrls s))%nat ∧ (i ∉ completedChunks s)) →
  resume s =
    with_activeTasks (activeTasks (resume s)) (with_state uploading false s).
Proof.
  intros Hp Hpending. unfold resume. rewrite decide_True by done.
  apply uploadNextChunks_pending. by destruct s.
Qed.

End SessionLemmas.

(** ** Pause, resume and the network observer *)

Section NetworkResume.

(** C2 (as amended).  The code keeps no pause reason.  On iOS a
    connectivity-restored event (a path update to [satisfied] while the
    network was unavailable) calls the same [resume()] as the explicit
    [resumeUpload]: every paused session that still has a chunk to
    complete, whoever paused it, is uploading again afterwards.  On Android
    the network callbacks never touch a job's pause flag; only
    [pauseUpload] and [resumeUpload] do. *)
Theorem network_restore_resumes_any_pause
    (u : IOS.NitroCloudUploader) (s : IOS.UploadSession)
    (a : Android.NitroCloudUploader) :
  IOS.currentUpload u = Some s →
  IOS.state s = IOS.paused →
  IOS.isNetworkAvailable u = false →
  (∃ i, (i < List.length (IOS.uploadUrls s))%nat
        ∧ (i ∉ IOS.completedChunks s)) →
  (IOS.currentUpload (IOS.next (IOS.pathUpdate true u)) = Some (IOS.resume s)
   ∧ IOS.currentUpload (IOS.next (IOS.resumeUpload (IOS.uploadId s) u))
     = Some (IOS.resume s)
   ∧ IOS.state (IOS.resume s) = IOS.uploading
   ∧ IOS.isPaused (IOS.resume s) = false)
  ∧ (Android.activeUploads (Android.next (Android.onAvailable a))
     = Android.activeUploads a
     ∧ Android.activeUploads (Android.next (Android.onLost a))
       = Android.activeUploads a).
Proof.
  intros Hcur Hpaused Hnet Hpending. split.
  - pose proof (resume_paused s Hpaused Hpending) as Hres.
    assert (Hwith : IOS.resumedWith (IOS.resume s) = IOS.resumedWith s).
    { rewrite Hres. by destruct s. }
    split_and!.
    + unfold IOS.pathUpdate. rewrite Hnet. cbn. rewrite Hcur.
      unfold IOS.settle. rewrite Hwith.
      case_decide as Hsome; [done|].
      destruct (IOS.resumedWith s) eqn:E; [|done].
      exfalso. apply Hsome. by eexists.
    + unfold IOS.resumeUpload, IOS.activeSession. rewrite Hcur.
      rewrite decide_True by done.
      unfold IOS.settle. rewrite Hwith.
      case_decide as Hsome; [done|].
      destruct (IOS.resumedWith s) eqn:E; [|done].
      exfalso. apply Hsome. by eexists.
    + rewrite Hres. done.
    + rewrite Hres. done.
  - unfold Android.onAvailable, Android.onLost.
    destruct (Android.isNetworkAvailable a); done.
Qed.

(** C2, as stated, fails on iOS: an upload paused through [pauseUpload]
    stays paused when the network drops, and is uploading again as soon as
    the network is back, with no call of [resumeUpload]. *)
Lemma ios_network_restore_overrides_user_pause :
  let u1 := IOS.next (IOS.pauseUpload "upload-1" iosUploading) in
  let u2 := IOS.next (IOS.pathUpdate false u1) in
  let u3 := IOS.next (IOS.pathUpdate true u2) in
  IOS.state <$> IOS.currentUpload iosUploading = Some IOS.uploading ∧
  IOS.value (IOS.pauseUpload "upload-1" iosUploading) = inr () ∧
  IOS.state <$> IOS.currentUpload u1 = Some IOS.paused ∧
  IOS.state <$> IOS.currentUpload u2 = Some IOS.paused ∧
  IOS.events (IOS.pathUpdate true u2)
    = [plainEvent "network-restored" "upload-1"] ∧
  IOS.state <$> IOS.currentUpload u3 = Some IOS.uploading ∧
  IOS.isPaused <$> IOS.currentUpload u3 = Some false.
Proof. vm_compute. repeat split; reflexivity. Qed.

Lemma iosPausedOffline_reached :
  IOS.next (IOS.pathUpdate false
              (IOS.next (IOS.pauseUpload "upload-1" iosUploading)))
  = iosPausedOffline.
Proof. vm_compute. reflexivity. Qed.

Lemma network_restore_resumes_any_pause_witness :
  IOS.state <$>
    IOS.currentUpload (IOS.next (IOS.pathUpdate true iosPausedOffline))
  = Some IOS.uploading.
Proof.
  destruct (network_restore_resumes_any_pause iosPausedOffline
              iosPausedSession androidFresh) as [(Hnext & _ & Hst & _) _].
  - reflexivity.
  - reflexivity.
  - reflexivity.
  - exists 0%nat. split; [cbn; lia|]. cbn. set_solver.
  - rewrite Hnext. cbn. by rewrite Hst.
Defined.

End NetworkResume.

(** ** Starting an upload *)

Section StartUpload.

Lemma init_accepted env uploadId filePath uploadUrls maxParallel session :
  IOS.init env uploadId filePath uploadUrls maxParallel = inr session →
  IOS.uploadId session = uploadId
  ∧ IOS.uploadUrls session = uploadUrls
  ∧ IOS.maxParallel session = maxParallel
  ∧ IOS.chunkSizeFor (IOS.totalBytes session) (List.length uploadUrls)
    = Some (IOS.chunkSize session)
  ∧ IOS.requiredMinimumSize (List.length uploadUrls) ≤ IOS.totalBytes session
  ∧ IOS.activeTasks session = ∅
  ∧ IOS.completedChunks session = ∅
  ∧ IOS.etags session = replicate (List.length uploadUrls) ""%string
  ∧ IOS.state session = IOS.idle
  ∧ IOS.isPaused session = false
  ∧ IOS.hasResumedContinuation session = false
  ∧ IOS.resumedWith session = None.
Proof.
  unfold IOS.init. intros H.
  destruct (IOS.removingPercentEncoding env filePath) as [decodedPath|];
    [|done].
  destruct (IOS.attributesOfItem env decodedPath) as [[fileSize|]|];
    [|done|done].
  destruct (IOS.chunkSizeFor fileSize (List.length uploadUrls))
    as [chunkSize|] eqn:Hsize; [|done].
  destruct (2 ^ 63 <=? IOS.requiredMinimumSize (List.length uploadUrls));
    [done|].
  destruct (fileSize <? IOS.requiredMinimumSize (List.length uploadUrls))
    eqn:Hguard; [done|].
  apply Z.ltb_ge in Hguard. injection H as <-. cbn. by repeat split.
Qed.

(** With no URL the quotient of [init] is not a number, and its
    conversion traps: an accepted session has a URL. *)
Lemma init_urls env uploadId filePath uploadUrls maxParallel session :
  IOS.init env uploadId filePath uploadUrls maxParallel = inr session →
  uploadUrls ≠ [].
Proof.
  intros Hinit ->. revert Hinit. unfold IOS.init.
  destruct (IOS.removingPercentEncoding env filePath) as [decodedPath|];
    [|done].
  destruct (IOS.attributesOfItem env decodedPath) as [[fileSize|]|];
    [|done|done].
  assert (Htrap : IOS.chunkSizeFor fileSize (List.length (@nil string))
                  = None) by reflexivity.
  by rewrite Htrap.
Qed.

(** Starting a fresh session with at least one URL resumes no
    continuation: the session is uploading. *)
Lemma start_fresh env uploadId filePath uploadUrls maxParallel session :
  IOS.init env uploadId filePath uploadUrls maxParallel = inr session →
  uploadUrls ≠ [] →
  IOS.start session =
    IOS.with_activeTasks (IOS.activeTasks (IOS.start session))
      (IOS.with_state IOS.uploading false session).
Proof.
  intros Hinit Hne.
  destruct (init_accepted _ _ _ _ _ _ Hinit)
    as (_ & Hurls & _ & _ & _ & _ & Hdone & _ & _ & Hp & _ & _).
  unfold IOS.start. rewrite Hp.
  apply uploadNextChunks_pending. exists 0%nat.
  destruct session; cbn in *. subst. split; [|set_solver].
  destruct uploadUrls; [done|cbn; lia].
Qed.

(** What [startUpload] and [beginUpload] share: the checks, and the
    session they register. *)
Lemma beginUpload_rejects env uploadId filePath uploadUrls maxParallel u e :
  IOS.value (IOS.beginUpload env uploadId filePath uploadUrls maxParallel u)
    = Some e →
  IOS.startUpload env uploadId filePath uploadUrls maxParallel u
  = IOS.beginUpload env uploadId filePath uploadUrls maxParallel u.
Proof.
  unfold IOS.startUpload, IOS.beginUpload.
  repeat (case_decide; [done|]).
  destruct (IOS.currentUpload u); [done|].
  destruct (IOS.intOf _); [|done].
  by destruct (IOS.init _ _ _ _ _).
Qed.

(** C3 (as amended).  A [startUpload] whose id, path and URL list are not
    empty: on iOS, while any upload is in progress (under the same id or
    another), it fails with the already-in-progress error naming that
    upload and leaves the uploader as it was; with no upload in progress, a
    [maxParallel] within the range of [Int] and an accepted file, a new
    session is constructed and registered as the current upload, in state
    uploading, when the call suspends; and when every chunk can be staged
    the queued dispatch ends and leaves that session registered and
    uploading.  On Android it fails with the already-in-progress error when
    the id is registered; when the id is not registered, the path decodes
    and the file is readable and not empty, a new job and state are
    registered under the id and the entries of all other ids stay, so
    uploads under distinct ids run side by side. *)
Theorem start_upload_registration
    (env : IOS.Env) (aenv : Android.Env)
    (u : IOS.NitroCloudUploader) (a : Android.NitroCloudUploader)
    (uploadId filePath : string) (uploadUrls : list string)
    (maxParallel : option Q) :
  uploadId ≠ ""%string → filePath ≠ ""%string → uploadUrls ≠ [] →
  let b := IOS.beginUpload env uploadId filePath uploadUrls maxParallel u in
  let o := IOS.startUpload env uploadId filePath uploadUrls maxParallel u in
  let r := Android.startUpload aenv uploadId filePath uploadUrls maxParallel a in
  (∀ existing, IOS.currentUpload u = Some existing →
     IOS.value b = Some (IOS.AlreadyInProgress (IOS.uploadId existing))
     ∧ IOS.next b = u ∧ IOS.events b = [] ∧ IOS.settled b = None)
  ∧ (∀ parallel session,
       IOS.currentUpload u = None →
       IOS.intOf (default (Qmake 3 1) maxParallel) = Some parallel →
       IOS.init env uploadId filePath uploadUrls parallel = inr session →
       let registered := IOS.beginStart session in
       IOS.value b = None
       ∧ IOS.currentUpload (IOS.next b) = Some registered
       ∧ IOS.uploadId registered = uploadId
       ∧ IOS.state registered = IOS.uploading
       ∧ IOS.activeTasks registered = ∅
       ∧ ∀ staging,
           (∀ index, (index < List.length uploadUrls)%nat →
                     staging index = None) →
           IOS.uploadNextChunksAt staging (S (List.length uploadUrls))
             registered = Some (IOS.start session, [])
           ∧ IOS.value o = None
           ∧ IOS.currentUpload (IOS.next o) = Some (IOS.start session)
           ∧ IOS.uploadId (IOS.start session) = uploadId
           ∧ IOS.state (IOS.start session) = IOS.uploading)
  ∧ (is_Some (Android.activeUploads a !! uploadId) →
       Android.value r = inl (Android.AlreadyInProgress uploadId))
  ∧ (∀ decodedPath file,
       Android.activeUploads a !! uploadId = None →
       Android.decodePath aenv filePath = Some decodedPath →
       Android.fileAt aenv decodedPath = Some file →
       Android.canRead file = true →
       Android.length file ≠ 0 →
       (∃ launch, Android.value r = inr launch
                  ∧ Android.l_uploadUrls launch = uploadUrls)
       ∧ is_Some (Android.activeUploads (Android.next r) !! uploadId)
       ∧ is_Some (Android.uploadStates (Android.next r) !! uploadId)
       ∧ ∀ other, other ≠ uploadId →
           Android.activeUploads (Android.next r) !! other
           = Android.activeUploads a !! other
           ∧ Android.uploadStates (Android.next r) !! other
             = Android.uploadStates a !! other).
Proof.
  intros Hid Hpath Hurls b o r. split_and!.
  - intros existing Hcur. unfold b, IOS.beginUpload.
    rewrite !decide_False by done. by rewrite Hcur.
  - intros parallel session Hcur Hint Hinit registered.
    destruct (init_accepted _ _ _ _ _ _ Hinit)
      as (Hsid & Hsurls & _ & _ & _ & Htasks & _ & _ & _ & _ & _ & Hnone).
    assert (Hb : b = {| IOS.next :=
                          IOS.with_currentUpload (Some registered) u;
                        IOS.events := IOS.events b;
                        IOS.settled := None; IOS.value := None |}).
    { unfold b, IOS.beginUpload.
      rewrite !decide_False by done. by rewrite Hcur, Hint, Hinit. }
    split_and!.
    + by rewrite Hb.
    + by rewrite Hb.
    + unfold registered. by destruct session.
    + unfold registered. by destruct session.
    + unfold registered. by destruct session.
    + intros staging Hstaged.
      pose proof (start_fresh _ _ _ _ _ _ Hinit Hurls) as Hstart.
      assert (Hw : IOS.resumedWith (IOS.start session) = None).
      { rewrite Hstart. by destruct session. }
      split_and!.
      * unfold IOS.start. fold (IOS.beginStart session). fold registered.
        apply uploadNextChunksAt_staged.
        -- intros index Hi. apply Hstaged.
           unfold registered in Hi. destruct session; cbn in *. by subst.
        -- unfold registered. destruct session; cbn in *. subst. lia.
      * unfold o, IOS.startUpload.
        rewrite !decide_False by done. rewrite Hcur, Hint, Hinit.
        unfold IOS.settle. rewrite Hnone, Hw.
        by rewrite decide_False by (by intros [? ?]).
      * unfold o, IOS.startUpload.
        rewrite !decide_False by done. rewrite Hcur, Hint, Hinit.
        unfold IOS.settle. rewrite Hnone, Hw.
        by rewrite decide_False by (by intros [? ?]).
      * rewrite Hstart. by destruct session.
      * rewrite Hstart. by destruct session.
  - intros Hreg. unfold r, Android.startUpload. by rewrite decide_True.
  - intros decodedPath file Hfree Hdecoded Hfile Hread Hsize.
    unfold r, Android.startUpload.
    rewrite decide_False by (rewrite Hfree; by intros [? ?]).
    rewrite Hdecoded, Hfile, Hread. cbn.
    destruct (Android.length file =? 0) eqn:Hz; [apply Z.eqb_eq in Hz; done|].
    cbn. split_and!.
    + by eexists.
    + rewrite lookup_insert_eq. by eexists.
    + rewrite lookup_insert_eq. by eexists.
    + intros other Hother. by rewrite !lookup_insert_ne.
Qed.

Lemma start_upload_registration_witness :
  IOS.value
    (IOS.beginUpload (iosFiles (11 * MiB)) "upload-2" "/audio.m4a" threeUrls
       (Some (Qmake 2 1)) iosUploading)
  = Some (IOS.AlreadyInProgress "upload-1")
  ∧ is_Some
      (Android.activeUploads
         (Android.next
            (Android.startUpload (androidFiles (11 * MiB)) "upload-2"
               "/audio.m4a" threeUrls (Some (Qmake 2 1)) androidUploading))
       !! "upload-1"%string).
Proof.
  destruct (start_upload_registration (iosFiles (11 * MiB))
              (androidFiles (11 * MiB)) iosUploading androidUploading
              "upload-2" "/audio.m4a" threeUrls (Some (Qmake 2 1))
              ltac:(done) ltac:(done) ltac:(done))
    as (Hios & _ & _ & Handroid).
  split.
  - destruct (IOS.currentUpload iosUploading) as [existing|] eqn:Hcur;
      [|vm_compute in Hcur; discriminate Hcur].
    destruct (Hios existing eq_refl) as (-> & _).
    vm_compute in Hcur. injection Hcur as <-. reflexivity.
  - destruct (Handroid "/audio.m4a"%string
                {| Android.canRead := true; Android.length := 11 * MiB |})
      as (_ & _ & _ & Hother); [vm_compute; reflexivity|reflexivity|
                                reflexivity|reflexivity|done|].
    destruct (Hother "upload-1"%string ltac:(done)) as [-> _].
    vm_compute. by eexists.
Defined.

(** C3, as stated, fails on iOS: with the upload of [upload-1] in progress,
    a valid [startUpload] under the unregistered id [upload-2] is rejected
    and nothing is registered for it. *)
Lemma ios_second_upload_rejected :
  let o := IOS.startUpload (iosFiles (11 * MiB)) "upload-2" "/audio.m4a"
             threeUrls (Some (Qmake 2 1)) iosUploading in
  IOS.uploadId <$> IOS.currentUpload iosUploading = Some "upload-1"%string ∧
  IOS.getUploadState "upload-2" iosUploading = inl IOS.NoActiveUpload ∧
  IOS.value o = Some (IOS.AlreadyInProgress "upload-1") ∧
  IOS.next o = iosUploading ∧
  IOS.getUploadState "upload-2" (IOS.next o) = inl IOS.NoActiveUpload ∧
  IOS.value
    (IOS.startUpload (iosFiles (11 * MiB)) "upload-2" "/audio.m4a"
       threeUrls (Some (Qmake 2 1)) iosFresh) = None.
Proof. vm_compute. repeat split; reflexivity. Qed.

(** On Android the rejected second call is not harmless: the [catch] of
    [startUpload] runs [cleanup(uploadId)], which drops the job and the
    state of the upload in progress from the registry. *)
Lemma android_duplicate_start_unregisters env uploadId filePath uploadUrls
    maxParallel (a : Android.NitroCloudUploader) :
  is_Some (Android.activeUploads a !! uploadId) →
  let r := Android.startUpload env uploadId filePath uploadUrls maxParallel a in
  Android.value r = inl (Android.AlreadyInProgress uploadId)
  ∧ Android.activeUploads (Android.next r) !! uploadId = None
  ∧ Android.uploadStates (Android.next r) !! uploadId = None
  ∧ Android.getUploadState uploadId (Android.next r)
    = inl (Android.NoUploadFound uploadId).
Proof.
  intros Hreg r. unfold r, Android.startUpload. rewrite decide_True by done.
  cbn. unfold Android.getUploadState. cbn.
  by rewrite !lookup_delete_eq.
Qed.

End StartUpload.

(** ** Validation *)

Section Validation.

(** A rejected [startUpload] leaves the iOS uploader as it was. *)
Lemma ios_rejection_leaves_no_state env uploadId filePath uploadUrls
    maxParallel u e :
  IOS.value (IOS.startUpload env uploadId filePath uploadUrls maxParallel u)
    = Some e →
  IOS.next (IOS.startUpload env uploadId filePath uploadUrls maxParallel u) = u
  ∧ IOS.events (IOS.startUpload env uploadId filePath uploadUrls maxParallel u)
    = [].
Proof.
  unfold IOS.startUpload.
  repeat (case_decide; [done|]).
  destruct (IOS.currentUpload u); [done|].
  destruct (IOS.intOf _); [|done].
  destruct (IOS.init _ _ _ _ _); [done|].
  destruct (IOS.settle _ _ _) as [[? ?] ?]. done.
Qed.

(** The checks iOS makes: empty id, path or URL list, a path that names no
    file, and a file below [(count - 1) * 5 MiB] (for sizes below 2^53,
    where the conversions of [init] do not trap). *)
Lemma ios_validation env uploadId filePath uploadUrls maxParallel u :
  let o := IOS.startUpload env uploadId filePath uploadUrls maxParallel u in
  (uploadId = ""%string → IOS.value o = Some IOS.UploadIdEmpty)
  ∧ (uploadId ≠ ""%string → filePath = ""%string →
     IOS.value o = Some IOS.FilePathEmpty)
  ∧ (uploadId ≠ ""%string → filePath ≠ ""%string → uploadUrls = [] →
     IOS.value o = Some IOS.UploadUrlsEmpty)
  ∧ (uploadId ≠ ""%string → filePath ≠ ""%string → uploadUrls ≠ [] →
     IOS.currentUpload u = None →
     ∀ parallel decodedPath,
       IOS.intOf (default (Qmake 3 1) maxParallel) = Some parallel →
       IOS.removingPercentEncoding env filePath = Some decodedPath →
       (IOS.attributesOfItem env decodedPath = None →
        IOS.value o = Some (IOS.FileNotFound decodedPath))
       ∧ (∀ fileSize,
            IOS.attributesOfItem env decodedPath = Some (Some fileSize) →
            0 ≤ fileSize →
            fileSize < (Z.of_nat (List.length uploadUrls) - 1) * (5 * MiB) →
            (Z.of_nat (List.length uploadUrls) - 1) * (5 * MiB) < 2 ^ 53 →
            IOS.value o
            = Some (IOS.FileTooSmall fileSize (List.length uploadUrls)
                      ((Z.of_nat (List.length uploadUrls) - 1) * (5 * MiB))))).
Proof.
  intros o. unfold o, IOS.startUpload. split_and!.
  - intros ->. done.
  - intros ? ->. by rewrite decide_False.
  - intros ? ? ->.
    rewrite (decide_False (P := uploadId = ""%string)) by done.
    by rewrite (decide_False (P := filePath = ""%string)).
  - intros ? ? Hurls Hcur parallel decodedPath Hint Hdec.
    rewrite !decide_False by done.
    rewrite Hcur, Hint. unfold IOS.init. rewrite Hdec. split.
    + by intros ->.
    + intros fileSize -> Hpos Hsmall Hbound.
      change (5 * MiB) with IOS.minimumChunkSize in Hsmall, Hbound |- *.
      fold (IOS.requiredMinimumSize (List.length uploadUrls))
        in Hsmall, Hbound |- *.
      assert (Hcount : (1 ≤ List.length uploadUrls)%nat)
        by (destruct uploadUrls; [done|cbn; lia]).
      assert (Hmany : Z.of_nat (List.length uploadUrls) < 2 ^ 53).
      { unfold IOS.requiredMinimumSize, IOS.minimumChunkSize in Hbound. lia. }
      rewrite chunkSizeFor_exact by (done || lia).
      assert (Hpow : 2 ^ 53 < 2 ^ 63) by done.
      destruct (Z.leb_spec (2 ^ 63)
                  (IOS.requiredMinimumSize (List.length uploadUrls))); [lia|].
      apply Z.ltb_lt in Hsmall. by rewrite Hsmall.
Qed.

(** The checks Android makes: a path that does not decode or names no
    file, an unreadable file, an empty file. *)
Lemma android_validation env uploadId filePath uploadUrls maxParallel a :
  Android.activeUploads a !! uploadId = None →
  let r := Android.startUpload env uploadId filePath uploadUrls maxParallel a in
  (Android.decodePath env filePath = None →
   Android.value r = inl (Android.IllegalEscape filePath))
  ∧ ∀ decodedPath,
      Android.decodePath env filePath = Some decodedPath →
      (Android.fileAt env decodedPath = None →
       Android.value r = inl (Android.FileNotFound decodedPath))
      ∧ (∀ file, Android.fileAt env decodedPath = Some file →
           (Android.canRead file = false →
            Android.value r = inl (Android.CannotRead decodedPath))
           ∧ (Android.canRead file = true → Android.length file = 0 →
              Android.value r = inl Android.FileEmpty)).
Proof.
  intros Hfree r. unfold r, Android.startUpload.
  rewrite decide_False by (rewrite Hfree; by intros [? ?]).
  split; [by intros ->|]. intros decodedPath ->. split.
  - by intros ->.
  - intros file ->. split.
    + by intros ->.
    + intros -> ->. done.
Qed.

(** C5 fails on both platforms, each missing checks the other makes.  iOS
    accepts an empty file when there is a single URL (the guard compares
    with [(1 - 1) * 5 MiB = 0]): a session is registered and uploading.
    Android accepts an empty upload id, an empty URL list (the upload then
    resolves successfully with no ETag) and a file too small for the
    requested number of parts. *)
Theorem validation_gaps :
  (let o := IOS.startUpload (iosFiles 0) "upload-1" "/empty.bin"
              ["https://bucket/part1"%string] (Some (Qmake 3 1)) iosFresh in
   IOS.value o = None
   ∧ IOS.totalBytes <$> IOS.currentUpload (IOS.next o) = Some 0
   ∧ IOS.state <$> IOS.currentUpload (IOS.next o) = Some IOS.uploading)
  ∧ (let r := Android.startUpload (androidFiles (8 * MiB)) "" "/video.mp4"
                threeUrls (Some (Qmake 3 1)) androidFresh in
     is_Some (Android.uploadStates (Android.next r) !! ""%string)
     ∧ ∃ launch, Android.value r = inr launch)
  ∧ (let r := Android.startUpload (androidFiles (8 * MiB)) "upload-1"
                "/video.mp4" [] (Some (Qmake 3 1)) androidFresh in
     Android.uploadStates (Android.next r) !! "upload-1"%string
     = Some (freshState (8 * MiB) 0)
     ∧ (∃ launch, Android.value r = inr launch)
     ∧ ∃ log,
         Android.performUpload "upload-1" [] (8 * MiB) (λ _, []) []
           (freshState (8 * MiB) 0)
         = Some (freshState (8 * MiB) 0, log,
                 inr {| res_uploadId := "upload-1"; res_success := true;
                        res_etags := [] |}))
  ∧ (let r := Android.startUpload (androidFiles (8 * MiB)) "upload-1"
                "/video.mp4" threeUrls (Some (Qmake 3 1)) androidFresh in
     8 * MiB < (3 - 1) * Android.MIN_CHUNK_SIZE
     ∧ is_Some (Android.uploadStates (Android.next r) !! "upload-1"%string)
     ∧ ∃ launch, Android.value r = inr launch).
Proof.
  split_and!.
  - vm_compute. repeat split; reflexivity.
  - cbv zeta. split; [vm_compute; by eexists|]. by eexists.
  - cbv zeta. split; [vm_compute; reflexivity|].
    split; [by eexists|]. eexists. vm_compute. reflexivity.
  - cbv zeta. split; [done|]. split; [vm_compute; by eexists|]. by eexists.
Qed.

End Validation.

(** ** Parallelism *)

Section Parallelism.

(** Android clamps: the parallelism handed to [performUpload] is within
    1 and 10, equal to the (truncated) argument when that is in range, 1
    below, 10 above, and 3 without an argument. *)
Lemma android_parallelism_clamped (maxParallel : option Q) :
  1 ≤ Android.parallelOf maxParallel ≤ 10
  ∧ (∀ d, maxParallel = Some d →
       (1 ≤ truncate d ≤ 10 → Android.parallelOf maxParallel = truncate d)
       ∧ (truncate d < 1 → Android.parallelOf maxParallel = 1)
       ∧ (10 < truncate d → Android.parallelOf maxParallel = 10))
  ∧ (maxParallel = None → Android.parallelOf maxParallel = 3).
Proof.
  assert (Hclamp : ∀ x,
    1 ≤ Android.coerceIn 1 10 x ≤ 10
    ∧ (1 ≤ x ≤ 10 → Android.coerceIn 1 10 x = x)
    ∧ (x < 1 → Android.coerceIn 1 10 x = 1)
    ∧ (10 < x → Android.coerceIn 1 10 x = 10)).
  { intros x. unfold Android.coerceIn.
    destruct (Z.ltb_spec x 1), (Z.ltb_spec 10 x); lia. }
  split; [|split].
  - destruct maxParallel as [d|]; cbn; [apply Hclamp|lia].
  - intros d ->. unfold Android.parallelOf.
    destruct (Hclamp (Android.toInt d)) as (_ & Hin & Hlo & Hhi).
    assert (Hint : Android.toInt d
                   = Z.max (- 2147483648) (Z.min 2147483647 (truncate d)))
      by reflexivity.
    split; [|split]; intros Hd.
    + rewrite Hin by lia. lia.
    + apply Hlo. lia.
    + apply Hhi. lia.
  - by intros ->.
Qed.

Lemma android_parallelism_examples :
  Android.parallelOf (Some (Qmake 0 1)) = 1
  ∧ Android.parallelOf (Some (Qmake 25 1)) = 10
  ∧ Android.parallelOf None = 3
  ∧ Android.parallelOf (Some (Qmake 7 2)) = 3.
Proof. repeat split; reflexivity. Qed.

Lemma android_launch_parallelism env uploadId filePath uploadUrls
    maxParallel a launch :
  Android.value
    (Android.startUpload env uploadId filePath uploadUrls maxParallel a)
    = inr launch →
  Android.l_maxParallel launch = Android.parallelOf maxParallel.
Proof.
  unfold Android.startUpload. repeat case_match; cbn; try done.
  by intros [= <-].
Qed.

(** With no room for a task the dispatch loop starts nothing. *)
Lemma dispatchLoop_no_room fuel s :
  IOS.maxParallel s ≤ Z.of_nat (size (IOS.activeTasks s)) →
  IOS.dispatchLoop fuel s = s.
Proof.
  intros H. destruct fuel; [done|]. cbn.
  destruct (Z.of_nat (size (IOS.activeTasks s)) <? IOS.maxParallel s) eqn:E;
    [|done].
  apply Z.ltb_lt in E. lia.
Qed.

(** A delegate callback for a task that is not active changes nothing. *)
Lemma didComplete_not_active index outcome s :
  index ∉ IOS.activeTasks s → IOS.didComplete index outcome s = (s, []).
Proof. intros H. unfold IOS.didComplete. by rewrite decide_False. Qed.

(** C6 fails on iOS, which passes [Int(maxParallel ?? 3)] on as it is.
    With [maxParallel = 0] the session is registered and uploading but has
    no active task, no delegate callback can change it and its promise
    never settles; with 25 the session runs 25 tasks at a time (here all
    three chunks at once).  Without the argument the value is 3. *)
Theorem ios_parallelism_not_clamped :
  (let o := IOS.startUpload (iosFiles (11 * MiB)) "upload-1" "/video.mp4"
              threeUrls (Some (Qmake 0 1)) iosFresh in
   IOS.value o = None ∧ IOS.settled o = None
   ∧ IOS.maxParallel <$> IOS.currentUpload (IOS.next o) = Some 0
   ∧ IOS.state <$> IOS.currentUpload (IOS.next o) = Some IOS.uploading
   ∧ IOS.activeTasks <$> IOS.currentUpload (IOS.next o) = Some ∅
   ∧ ∀ index outcome,
       IOS.taskDidComplete index outcome (IOS.next o)
       = {| IOS.next := IOS.next o; IOS.events := []; IOS.settled := None;
            IOS.value := () |})
  ∧ (let o := IOS.startUpload (iosFiles (11 * MiB)) "upload-1" "/video.mp4"
                threeUrls (Some (Qmake 25 1)) iosFresh in
     IOS.maxParallel <$> IOS.currentUpload (IOS.next o) = Some 25
     ∧ size <$> (IOS.activeTasks <$> IOS.currentUpload (IOS.next o))
       = Some 3%nat)
  ∧ (let o := IOS.startUpload (iosFiles (11 * MiB)) "upload-1" "/video.mp4"
                threeUrls None iosFresh in
     IOS.maxParallel <$> IOS.currentUpload (IOS.next o) = Some 3).
Proof.
  split_and!.
  - cbv zeta. split_and!; vm_compute; reflexivity.
  - vm_compute. split; reflexivity.
  - vm_compute. reflexivity.
Qed.

End Parallelism.

(** ** Cancelling *)

Section Cancel.

Lemma cancel_twice s : IOS.cancel (IOS.cancel s) = IOS.cancel s.
Proof.
  unfold IOS.cancel. destruct (IOS.hasResumedContinuation s) eqn:E.
  - by rewrite E.
  - done.
Qed.

Lemma cancel_state s :
  IOS.hasResumedContinuation s = false →
  IOS.state (IOS.cancel s) = IOS.cancelled
  ∧ IOS.activeTasks (IOS.cancel s) = ∅
  ∧ IOS.resumedWith (IOS.cancel s)
    = Some (inr {| res_uploadId := IOS.uploadId s; res_success := false;
                   res_etags := [] |}).
Proof. intros H. unfold IOS.cancel. rewrite H. done. Qed.

Lemma ios_cancel_unregisters uploadId u :
  IOS.activeSession uploadId (IOS.next (IOS.cancelUpload uploadId u)) = None.
Proof.
  unfold IOS.cancelUpload.
  destruct (IOS.activeSession uploadId u) as [session|] eqn:Hact; [|done].
  unfold IOS.settle.
  repeat case_match; simplify_eq; done.
Qed.

(** What holds of [cancelUpload] on both platforms: it returns without
    error whether or not an upload with that id exists; a second cancel
    returns without error and leaves the uploader as the first left it,
    and cancelling a cancelled session leaves it as it is; and after a
    cancel [getUploadState] for the id fails with the not-found error, the
    registry entry being gone.  On iOS a cancel that finds no upload emits
    nothing; on Android every call emits [upload-cancelled]. *)
Lemma cancel_returns_and_unregisters
    (u : IOS.NitroCloudUploader) (a : Android.NitroCloudUploader)
    (uploadId : string) (s : IOS.UploadSession) :
  let u1 := IOS.next (IOS.cancelUpload uploadId u) in
  let a1 := Android.next (Android.cancelUpload uploadId a) in
  (IOS.value (IOS.cancelUpload uploadId u) = inr ()
   ∧ (IOS.activeSession uploadId u = None →
      IOS.cancelUpload uploadId u
      = {| IOS.next := u; IOS.events := []; IOS.settled := None;
           IOS.value := inr () |})
   ∧ IOS.cancelUpload uploadId u1
     = {| IOS.next := u1; IOS.events := []; IOS.settled := None;
          IOS.value := inr () |}
   ∧ IOS.cancel (IOS.cancel s) = IOS.cancel s
   ∧ IOS.activeSession uploadId u1 = None
   ∧ IOS.getUploadState uploadId u1 = inl IOS.NoActiveUpload)
  ∧ (Android.value (Android.cancelUpload uploadId a) = inr ()
     ∧ Android.value (Android.cancelUpload uploadId a1) = inr ()
     ∧ Android.next (Android.cancelUpload uploadId a1) = a1
     ∧ Android.events (Android.cancelUpload uploadId a1)
       = [plainEvent "upload-cancelled" uploadId]
     ∧ Android.activeUploads a1 !! uploadId = None
     ∧ Android.uploadStates a1 !! uploadId = None
     ∧ Android.getUploadState uploadId a1
       = inl (Android.NoUploadFound uploadId)).
Proof.
  intros u1 a1.
  pose proof (ios_cancel_unregisters uploadId u) as Hgone. fold u1 in Hgone.
  split; split_and!.
  - unfold IOS.cancelUpload. destruct (IOS.activeSession uploadId u); [|done].
    by destruct (IOS.settle _ _ _) as [[? ?] ?].
  - unfold IOS.cancelUpload. by intros ->.
  - unfold IOS.cancelUpload. by rewrite Hgone.
  - apply cancel_twice.
  - done.
  - unfold IOS.getUploadState. by rewrite Hgone.
  - done.
  - done.
  - unfold a1, Android.cancelUpload, Android.cleanup. cbn.
    by rewrite !delete_delete_eq.
  - done.
  - unfold a1. cbn. apply lookup_delete_eq.
  - unfold a1. cbn. apply lookup_delete_eq.
  - unfold Android.getUploadState, a1. cbn. by rewrite lookup_delete_eq.
Qed.

(** C7 fails on Android.  [cancelUpload] there emits [upload-cancelled]
    (and cancels the notification) whatever it finds, so a second cancel of
    a cancelled upload and a cancel under an id that was never registered
    are no no-ops: each emits the event again, for an upload that does not
    exist.  iOS returns at its guard in both cases and emits nothing, and
    [pauseUpload] and [resumeUpload] of Android themselves reject an id
    that is not registered.  The rest of the claim holds here: the calls
    return without error, and after the first cancel [getUploadState]
    fails with the not-found error. *)
Theorem android_cancel_repeats_event :
  (let first := Android.cancelUpload "upload-1" androidUploading in
   let second := Android.cancelUpload "upload-1" (Android.next first) in
   is_Some (Android.activeUploads androidUploading !! "upload-1"%string)
   ∧ Android.value first = inr ()
   ∧ Android.getUploadState "upload-1" (Android.next first)
     = inl (Android.NoUploadFound "upload-1")
   ∧ second
     = {| Android.next := Android.next first;
          Android.events := [plainEvent "upload-cancelled" "upload-1"];
          Android.value := inr () |})
  ∧ Android.cancelUpload "upload-9" androidFresh
    = {| Android.next := androidFresh;
         Android.events := [plainEvent "upload-cancelled" "upload-9"];
         Android.value := inr () |}
  ∧ Android.pauseUpload "upload-9" androidFresh
    = {| Android.next := androidFresh; Android.events := [];
         Android.value := inl (Android.UploadNotFound "upload-9") |}
  ∧ Android.resumeUpload "upload-9" androidFresh
    = {| Android.next := androidFresh; Android.events := [];
         Android.value := inl (Android.UploadNotFound "upload-9") |}
  ∧ (let first := IOS.cancelUpload "upload-1" iosUploading in
     IOS.getUploadState "upload-1" (IOS.next first) = inl IOS.NoActiveUpload
     ∧ IOS.cancelUpload "upload-1" (IOS.next first)
       = {| IOS.next := IOS.next first; IOS.events := [];
            IOS.settled := None; IOS.value := inr () |})
  ∧ IOS.cancelUpload "upload-9" iosFresh
    = {| IOS.next := iosFresh; IOS.events := []; IOS.settled := None;
         IOS.value := inr () |}.
Proof.
  split_and!.
  - cbv zeta. split_and!; [vm_compute; by eexists|vm_compute; reflexivity..].
  - vm_compute. reflexivity.
  - vm_compute. reflexivity.
  - vm_compute. reflexivity.
  - cbv zeta. split; vm_compute; reflexivity.
  - vm_compute. reflexivity.
Qed.

(** Cancelling the sample uploads while two transfers are active. *)
Lemma cancel_during_transfers :
  let o := IOS.cancelUpload "upload-1" iosUploading in
  size <$> (IOS.activeTasks <$> IOS.currentUpload iosUploading) = Some 2%nat
  ∧ IOS.currentUpload (IOS.next o) = None
  ∧ IOS.settled o
    = Some (inr {| res_uploadId := "upload-1"; res_success := false;
                   res_etags := [] |})
  ∧ ev_type <$> IOS.events o = ["upload-cancelled"; "upload-failed"]%string
  ∧ IOS.getUploadState "upload-1" (IOS.next o) = inl IOS.NoActiveUpload
  ∧ Android.getUploadState "upload-1"
      (Android.next (Android.cancelUpload "upload-1" androidUploading))
    = inl (Android.NoUploadFound "upload-1").
Proof. vm_compute. repeat split; reflexivity. Qed.

End Cancel.

(** ** The order of the ETags: iOS *)

Section IOSRuns.

Import IOS.

Lemma dispatchLoop_tasks fuel : ∀ s k,
  k ∈ activeTasks (dispatchLoop fuel s) →
  k ∈ activeTasks s
  ∨ ((k < List.length (uploadUrls s))%nat ∧ (k ∉ completedChunks s)).
Proof.
  induction fuel as [|fuel IH]; intros s k; cbn [dispatchLoop]; [by left|].
  destruct (Z.of_nat (size (activeTasks s)) <? maxParallel s); [|by left].
  destruct (getNextChunkIndex s) as [nextIndex|] eqn:Hnext.
  - intros Hk. apply getNextChunkIndex_Some in Hnext as (? & ? & ?).
    apply IH in Hk as [Hk|Hk].
    + unfold uploadChunk in Hk. cbn in Hk.
      apply elem_of_union in Hk as [Hk|Hk]; [|by left].
      apply elem_of_singleton in Hk as ->. by right.
    + right. done.
  - case_decide; [|by left].
    unfold complete. destruct (hasResumedContinuation s); by left.
Qed.

Lemma inv_tasks s log tasks :
  SessionInv s log →
  (∀ k, k ∈ tasks →
        (k < List.length (uploadUrls s))%nat ∧ (k ∉ completedChunks s)) →
  SessionInv (with_activeTasks tasks s) log.
Proof. intros [] Htasks. by destruct s; split. Qed.

Lemma inv_with_state s log st p :
  SessionInv s log →
  (is_Some (resumedWith s) → st ≠ uploading ∧ st ≠ paused) →
  SessionInv (with_state st p s) log.
Proof.
  intros [] Hst. destruct s; split; cbn in *; try done.
  intros Hsome. split; [by apply inv_terminal0|by apply Hst].
Qed.

Lemma inv_finish s log st v :
  SessionInv s log →
  st ≠ uploading → st ≠ paused →
  (∀ result, v = inr result → res_success result = true →
     res_etags result = etags s
     ∧ ∀ k, (k < List.length (uploadUrls s))%nat → k ∈ completedChunks s) →
  SessionInv (finish st v s) log.
Proof.
  intros [] Hu Hp Hv. destruct s; split; cbn in *; try done.
  intros result [= ->]. by apply Hv.
Qed.

Lemma inv_complete s log :
  SessionInv s log →
  (∀ k, (k < List.length (uploadUrls s))%nat → k ∈ completedChunks s) →
  SessionInv (complete s) log.
Proof.
  intros Hinv Hall. unfold complete.
  destruct (hasResumedContinuation s); [done|].
  apply inv_finish; [done..|]. intros result [= <-] _. done.
Qed.

Lemma inv_fail s log error :
  SessionInv s log → SessionInv (fail error s) log.
Proof.
  intros Hinv. unfold fail.
  destruct (hasResumedContinuation s); [done|].
  apply inv_finish; done.
Qed.

Lemma inv_uploadNextChunks s log :
  SessionInv s log → SessionInv (uploadNextChunks s) log.
Proof.
  intros Hinv. unfold uploadNextChunks. case_decide; [|done].
  destruct (dispatchLoop_cases (S (List.length (uploadUrls s))) s)
    as [(-> & Hempty & Hnone)|[-> _]].
  - apply inv_complete; [done|]. intros k Hk.
    destruct (getNextChunkIndex_None s k Hnone Hk) as [?|Hact]; [done|].
    rewrite Hempty in Hact. set_solver.
  - apply inv_tasks; [done|]. intros k Hk.
    apply dispatchLoop_tasks in Hk as [Hk|Hk]; [|done].
    by apply (inv_active _ _ Hinv).
Qed.

Lemma inv_recordChunk s log index etag :
  SessionInv s log →
  (index < List.length (uploadUrls s))%nat →
  index ∉ completedChunks s →
  index ∉ activeTasks s →
  resumedWith s = None →
  SessionInv (recordChunk index etag s) (log ++ [(index, etag)]).
Proof.
  intros [] Hlt Hnew Hidle Hnone. destruct s; split; cbn in *.
  - by rewrite length_insert.
  - intros k. rewrite fmap_app, elem_of_app, elem_of_union. cbn.
    rewrite elem_of_singleton, list_elem_of_singleton, inv_completed0.
    tauto.
  - rewrite fmap_app. cbn. apply NoDup_app. split; [done|].
    split; [|apply NoDup_singleton].
    intros k Hk ->%list_elem_of_singleton. by apply Hnew, inv_completed0.
  - intros k e [Hin|Hin%list_elem_of_singleton]%elem_of_app.
    + rewrite list_lookup_insert_ne; [by apply inv_logged0|].
      intros <-. apply Hnew, inv_completed0.
      apply list_elem_of_fmap. by exists (index, e).
    + injection Hin as -> ->. apply list_lookup_insert_eq. lia.
  - intros k Hk. destruct (inv_active0 k Hk) as [? Hnot].
    split; [done|]. rewrite elem_of_union, elem_of_singleton.
    intros [->|?]; done.
  - intros k [->%elem_of_singleton|Hk]%elem_of_union; [done|].
    by apply inv_range0.
  - by rewrite Hnone.
  - rewrite Hnone. by intros [? ?].
Qed.

(** A set of chunk indexes below [n] that has [n] elements has them all. *)
Lemma all_completed (chunks : gset nat) n :
  (∀ k, k ∈ chunks → (k < n)%nat) → size chunks = n →
  ∀ k, (k < n)%nat → k ∈ chunks.
Proof.
  intros Hrange Hsize k Hk.
  assert (Heq : chunks = set_seq 0 n).
  { apply set_subseteq_size_eq.
    - intros x Hx. apply elem_of_set_seq. specialize (Hrange x Hx). lia.
    - rewrite size_set_seq. lia. }
  rewrite Heq. apply elem_of_set_seq. lia.
Qed.

Lemma inv_step step s log :
  SessionInv s log →
  SessionInv (sessionStep step s) (log ++ option_list (recorded step s)).
Proof.
  intros Hinv. destruct step as [index outcome| | |]; cbn [sessionStep recorded].
  - unfold didComplete. case_decide as Hact.
    2: { destruct outcome; rewrite ?decide_False by done;
         cbn; by rewrite app_nil_r. }
    destruct (inv_active _ _ Hinv index Hact) as [Hlt Hnew].
    set (s1 := with_activeTasks (activeTasks s ∖ {[index]}) s).
    assert (Hinv1 : SessionInv s1 log).
    { apply inv_tasks; [done|]. intros k Hk.
      apply (inv_active _ _ Hinv).
      by apply elem_of_difference in Hk as [Hk _]. }
    assert (Hst : state s1 = state s) by (by destruct s).
    assert (Hfail : ∀ error,
              SessionInv (chunkDidFail index error s1).1 log).
    { intros error. unfold chunkDidFail. cbn.
      repeat case_match; try done. by apply inv_fail. }
    rewrite Hst. case_decide as Hlive.
    2: { destruct outcome; cbn; by rewrite app_nil_r. }
    destruct outcome as [description| |statusCode allHeaderFields].
    + cbn [option_list]. rewrite app_nil_r. apply Hfail.
    + cbn [option_list]. rewrite app_nil_r. apply Hfail.
    + destruct ((200 <=? statusCode) && (statusCode <=? 299)).
      2: { cbn [option_list]. rewrite app_nil_r. apply Hfail. }
      cbn [option_list fst].
      assert (Hnone : resumedWith s1 = None).
      { destruct (resumedWith s1) eqn:E; [|done].
        destruct (inv_terminal _ _ Hinv1) as (_ & Hu & Hp); [by eexists|].
        rewrite Hst in Hu, Hp. by destruct Hlive. }
      assert (Hinv2 : SessionInv
                        (recordChunk index (responseETag allHeaderFields) s1)
                        (log ++ [(index, responseETag allHeaderFields)])).
      { apply inv_recordChunk; [done|done|done| |done].
        unfold s1. cbn. intros [_ Hx]%elem_of_difference.
        apply Hx. by apply elem_of_singleton. }
      case_decide as Hall.
      * apply inv_complete; [done|].
        apply all_completed; [|done]. apply (inv_range _ _ Hinv2).
      * by apply inv_uploadNextChunks.
  - rewrite app_nil_r. unfold pause. case_decide as Hu; [|done].
    apply inv_with_state; [done|]. intros Hsome.
    destruct (inv_terminal _ _ Hinv Hsome) as (_ & ? & _). done.
  - rewrite app_nil_r. unfold resume. case_decide as Hp; [|done].
    apply inv_uploadNextChunks, inv_with_state; [done|]. intros Hsome.
    destruct (inv_terminal _ _ Hinv Hsome) as (_ & _ & ?). done.
  - rewrite app_nil_r. unfold cancel.
    destruct (hasResumedContinuation s) eqn:Hres; [done|].
    apply inv_tasks; [|set_solver].
    apply inv_finish; [done..|]. by intros result [= <-].
Qed.

Lemma inv_run steps : ∀ s log0 s' log,
  SessionInv s log0 →
  runSession steps s = (s', log) →
  SessionInv s' (log0 ++ log).
Proof.
  induction steps as [|step rest IH]; intros s log0 s' log Hinv Hrun.
  - injection Hrun as <- <-. by rewrite app_nil_r.
  - cbn in Hrun.
    destruct (runSession rest (sessionStep step s)) as [s1 log1] eqn:Hrest.
    injection Hrun as <- <-. rewrite app_assoc.
    eapply IH; [|done]. by apply inv_step.
Qed.

Lemma inv_start env uploadId filePath uploadUrls maxParallel session :
  init env uploadId filePath uploadUrls maxParallel = inr session →
  SessionInv (start session) [].
Proof.
  intros Hinit.
  destruct (init_accepted _ _ _ _ _ _ Hinit)
    as (_ & Hurls & _ & _ & _ & Hact & Hdone & Hetags & _ & _ & _ & Hnone).
  unfold start. apply inv_uploadNextChunks, inv_with_state.
  - split.
    + by rewrite Hetags, Hurls, length_replicate.
    + intros k. rewrite Hdone. cbn. set_solver.
    + cbn. apply NoDup_nil_2.
    + intros k e Hin. by apply elem_of_nil in Hin.
    + intros k. rewrite Hact. set_solver.
    + intros k. rewrite Hdone. set_solver.
    + by rewrite Hnone.
    + rewrite Hnone. by intros [? ?].
  - rewrite Hnone. by intros [? ?].
Qed.

Lemma uploadNextChunks_urls s :
  uploadUrls (uploadNextChunks s) = uploadUrls s.
Proof.
  unfold uploadNextChunks. case_decide; [|done].
  destruct (dispatchLoop_cases (S (List.length (uploadUrls s))) s)
    as [(-> & _)|[-> _]]; [|done].
  unfold complete. by destruct (hasResumedContinuation s).
Qed.

Lemma sessionStep_urls step s :
  uploadUrls (sessionStep step s) = uploadUrls s.
Proof.
  destruct step as [index outcome| | |]; cbn [sessionStep].
  - unfold didComplete, chunkDidFail, fail, complete.
    repeat case_match; cbn; rewrite ?uploadNextChunks_urls; done.
  - unfold pause. by case_decide.
  - unfold resume. case_decide; [|done]. by rewrite uploadNextChunks_urls.
  - unfold cancel. by destruct (hasResumedContinuation s).
Qed.

Lemma runSession_urls steps : ∀ s s' log,
  runSession steps s = (s', log) → uploadUrls s' = uploadUrls s.
Proof.
  induction steps as [|step rest IH]; intros s s' log Hrun.
  - by injection Hrun as <- <-.
  - cbn in Hrun.
    destruct (runSession rest (sessionStep step s)) as [s1 log1] eqn:Hrest.
    injection Hrun as <- <-.
    rewrite (IH _ _ _ Hrest). apply sessionStep_urls.
Qed.

(** Whatever the steps of a run, a successful result has one ETag per URL,
    the chunks recorded are the chunks [0 .. n-1], each once, and the ETag
    at position [k] is the one recorded for chunk [k]. *)
Lemma ios_etags_by_chunk env uploadId filePath uploadUrls maxParallel session
    steps s log result :
  init env uploadId filePath uploadUrls maxParallel = inr session →
  runSession steps (start session) = (s, log) →
  resumedWith s = Some (inr result) →
  res_success result = true →
  List.length (res_etags result) = List.length uploadUrls
  ∧ log.*1 ≡ₚ seq 0 (List.length uploadUrls)
  ∧ ∀ k e, (k, e) ∈ log → res_etags result !! k = Some e.
Proof.
  intros Hinit Hrun Hres Hok.
  pose proof (inv_run steps _ [] _ _ (inv_start _ _ _ _ _ _ Hinit) Hrun)
    as Hinv. cbn in Hinv.
  destruct (inv_success _ _ Hinv result Hres Hok) as [Hetags Hall].
  assert (Hn : IOS.uploadUrls s = uploadUrls).
  { rewrite (runSession_urls _ _ _ _ Hrun). unfold start.
    rewrite uploadNextChunks_urls. cbn.
    by destruct (init_accepted _ _ _ _ _ _ Hinit) as (_ & -> & _). }
  rewrite Hn in Hall. split_and!.
  - rewrite Hetags, (inv_etags _ _ Hinv). by rewrite Hn.
  - apply NoDup_Permutation; [apply (inv_nodup _ _ Hinv)|apply NoDup_seq|].
    intros k. rewrite elem_of_seq, <- (inv_completed _ _ Hinv). split.
    + intros Hk. apply (inv_range _ _ Hinv) in Hk. rewrite Hn in Hk. lia.
    + intros Hk. apply Hall. lia.
  - intros k e Hin. rewrite Hetags. by apply (inv_logged _ _ Hinv).
Qed.

End IOSRuns.

(** ** The order of the ETags: Android *)

Section AndroidRuns.

Import Android.

Lemma planParts_lookup fileSize uploadUrls index part :
  planParts fileSize uploadUrls !! index = Some part →
  partNumber part = (index + 1)%nat
  ∧ (index < List.length uploadUrls)%nat.
Proof.
  unfold planParts. rewrite list_lookup_imap.
  destruct (uploadUrls !! index) as [u|] eqn:Hu; [|done].
  intros [= <-]. split; [done|]. by apply lookup_lt_Some in Hu.
Qed.

(** The loop leaves the stored ETags and the counter alone, or ends on a
    successful response whose ETag it stores under the part number. *)
Lemma retryLoop_etags uploadId part ticks : ∀ retries run run',
  retryLoop uploadId part ticks retries run = Some run' →
  (partETags (stateAfter run') = partETags (stateAfter run)
   ∧ completedChunks (stateAfter run') = completedChunks (stateAfter run)
   ∧ (ok run = false → ok run' = false))
  ∨ (∃ code headers errorBody,
       Ran (Responded code headers errorBody) ∈ ticks
       ∧ isSuccessful code = true
       ∧ partETags (stateAfter run')
         = <[partNumber part := responseETag headers]>
             (partETags (stateAfter run))
       ∧ completedChunks (stateAfter run')
         = S (completedChunks (stateAfter run))
       ∧ ok run' = true).
Proof.
  induction ticks as [|tick rest IH]; intros retries run run'.
  - cbn [retryLoop]. destruct (MAX_RETRIES <=? retries)%nat; [|done].
    intros [= <-]. by left.
  - cbn [retryLoop]. destruct (MAX_RETRIES <=? retries)%nat.
    { intros [= <-]. by left. }
    destruct tick as [| |attempt].
    + intros Hrun. apply IH in Hrun as [Hsame|Hdone].
      * left. cbn in Hsame. destruct Hsame as (? & ? & Hk).
           split; [done|]. split; [done|]. intros _. by apply Hk.
      * right. destruct Hdone as (code & headers & body & Hin & Hrest).
        exists code, headers, body. split; [by right|]. exact Hrest.
    + intros [= <-]. by left.
    + destruct (attemptError attempt) as [message|] eqn:Herr.
      * destruct (S retries <? MAX_RETRIES)%nat; intros Hrun;
          apply IH in Hrun as [Hsame|Hdone].
        -- left. cbn in Hsame. destruct Hsame as (? & ? & Hk).
           split; [done|]. split; [done|]. intros _. by apply Hk.
        -- right. destruct Hdone as (code & headers & body & Hin & Hrest).
           exists code, headers, body. split; [by right|]. exact Hrest.
        -- left. cbn in Hsame. destruct Hsame as (? & ? & Hk).
           split; [done|]. split; [done|]. intros _. by apply Hk.
        -- right. destruct Hdone as (code & headers & body & Hin & Hrest).
           exists code, headers, body. split; [by right|]. exact Hrest.
      * intros [= <-]. right.
        destruct attempt as [message|code headers body]; [done|].
        cbn in Herr. destruct (isSuccessful code) eqn:Hok; [|done].
        exists code, headers, body. split; [by left|done].
Qed.

Lemma uploadPart_inv count ticksOf uploadId part state run :
  (1 ≤ partNumber part ≤ count)%nat →
  StateInv count ticksOf state →
  uploadPart uploadId part (ticksOf (partNumber part)) state = Some run →
  StateInv count ticksOf (stateAfter run).
Proof.
  intros Hpn [Hcount Hetags]. unfold uploadPart.
  case_decide as Hkey; [by intros [= <-]|].
  intros Hrun. apply retryLoop_etags in Hrun as [(He & Hc & _)|Hdone];
    cbn in *.
  - split; [by rewrite Hc, He|]. by rewrite He.
  - destruct Hdone as (code & headers & body & Hin & Hok & He & Hc & _).
    assert (Hfree : partETags state !! partNumber part = None).
    { destruct (partETags state !! partNumber part) eqn:E; [|done].
      exfalso. apply Hkey. by eexists. }
    split.
    + rewrite Hc, He, map_size_insert_None by done. by rewrite Hcount.
    + intros pn etag. rewrite He.
      destruct (decide (pn = partNumber part)) as [->|Hne].
      * rewrite lookup_insert_eq. intros [= <-]. split; [done|].
        by exists code, headers, body.
      * rewrite lookup_insert_ne by done. apply Hetags.
Qed.

Lemma runParts_inv count ticksOf uploadId fileSize uploadUrls order :
  ∀ state log state' log',
  count = List.length uploadUrls →
  StateInv count ticksOf state →
  runParts uploadId (planParts fileSize uploadUrls) ticksOf order state log
    = Some (state', log') →
  StateInv count ticksOf state'.
Proof.
  induction order as [|index rest IH]; intros state log state' log' Hn Hinv.
  - by intros [= <- <-].
  - cbn [runParts].
    destruct (planParts fileSize uploadUrls !! index) as [part|] eqn:Hpart.
    2: { by apply IH. }
    destruct (uploadPart uploadId part (ticksOf (partNumber part)) state)
      as [run|] eqn:Hrun; [|done].
    apply IH; [done|].
    apply planParts_lookup in Hpart as [Hpn Hlt].
    eapply uploadPart_inv; [|done..]. lia.
Qed.




End AndroidRuns.

(** ** The order of the ETags *)

Section ETagOrder.



(** The sample Android upload from [startUpload] to the end of its job:
    the promise resolves with the ETags in part order and the registry is
    empty again. *)
Example android_upload_end_to_end :
  let r := Android.startUpload (androidFiles (11 * MiB)) "upload-1"
             "/video.mp4" threeUrls None androidFresh in
  ∃ launch done,
    Android.value r = inr launch
    ∧ Android.l_maxParallel launch = 3
    ∧ Android.uploadJob "upload-1" launch sampleTicks [2; 0; 1]%nat
        (Android.next r) = Some done
    ∧ Android.value done
      = inr {| res_uploadId := "upload-1"; res_success := true;
               res_etags := ["etag-a"; "etag-b"; "etag-c"]%string |}
    ∧ Android.next done = androidFresh
    ∧ ev_type <$> Android.events done
      = ["chunk-completed"; "upload-progress"; "chunk-completed";
         "upload-progress"; "chunk-completed"; "upload-progress";
         "upload-completed"]%string.
Proof.
  cbv zeta. eexists. eexists. split; [reflexivity|]. split; [reflexivity|].
  split; [vm_compute; reflexivity|]. repeat split; vm_compute; reflexivity.
Qed.

End ETagOrder.

(** ** Listeners *)

Section EventBus.

Lemma addListener_many (callbacks : list Callback) :
  ∀ (eventListeners : Listeners) (eventType : string),
  callbacks ≠ [] →
  foldl (λ listeners callback, addListener eventType callback listeners)
    eventListeners callbacks !! eventType
  = Some (default [] (eventListeners !! eventType) ++ callbacks).
Proof.
  induction callbacks as [|callback rest IH]; intros listeners eventType Hne;
    [done|].
  cbn [foldl]. destruct rest as [|callback' rest'].
  - cbn. unfold addListener. by rewrite lookup_insert_eq.
  - rewrite IH by done. unfold addListener.
    rewrite lookup_insert_eq. cbn. by rewrite <- app_assoc.
Qed.

(** C10.  [addListener] appends to the listeners of its event type and
    leaves the other types alone, so any number of listeners can be
    registered under one type; [emitEvent] calls the listeners of the
    event's own type in registration order and then those registered under
    ["all"], each registered listener being called; [removeListener]
    removes all the listeners of its type at once and leaves those of the
    other types (["all"] among them) as they are. *)
Theorem listeners_append_and_fan_out
    (eventListeners : Listeners) (eventType other : string)
    (callback : Callback) (callbacks : list Callback)
    (event : UploadProgressEvent) :
  (addListener eventType callback eventListeners !! eventType
   = Some (default [] (eventListeners !! eventType) ++ [callback])
   ∧ (other ≠ eventType →
      addListener eventType callback eventListeners !! other
      = eventListeners !! other)
   ∧ default []
       (foldl (λ listeners cb, addListener eventType cb listeners)
          eventListeners callbacks !! eventType)
     = default [] (eventListeners !! eventType) ++ callbacks)
  ∧ (emitEvent eventListeners event
     = ((λ cb, (cb, event)) <$> default [] (eventListeners !! ev_type event))
       ++ ((λ cb, (cb, event)) <$> default [] (eventListeners !! "all"%string))
     ∧ (∀ cb, cb ∈ default [] (eventListeners !! ev_type event) →
              (cb, event) ∈ emitEvent eventListeners event)
     ∧ (∀ cb, cb ∈ default [] (eventListeners !! "all"%string) →
              (cb, event) ∈ emitEvent eventListeners event)
     ∧ (∀ cb e, (cb, e) ∈ emitEvent eventListeners event →
          e = event
          ∧ (cb ∈ default [] (eventListeners !! ev_type event)
             ∨ cb ∈ default [] (eventListeners !! "all"%string))))
  ∧ (removeListener eventType eventListeners !! eventType = None
     ∧ (other ≠ eventType →
        removeListener eventType eventListeners !! other
        = eventListeners !! other)
     ∧ (ev_type event = eventType → eventType ≠ "all"%string →
        emitEvent (removeListener eventType eventListeners) event
        = (λ cb, (cb, event)) <$> default [] (eventListeners !! "all"%string))).
Proof.
  split_and!.
  - unfold addListener. by rewrite lookup_insert_eq.
  - intros Hne. unfold addListener. by rewrite lookup_insert_ne.
  - destruct callbacks as [|cb rest]; [by rewrite app_nil_r|].
    by rewrite addListener_many.
  - done.
  - intros cb Hcb. unfold emitEvent. apply elem_of_app. left.
    by apply (list_elem_of_fmap_2 (λ c, (c, event))).
  - intros cb Hcb. unfold emitEvent. apply elem_of_app. right.
    by apply (list_elem_of_fmap_2 (λ c, (c, event))).
  - intros cb e. unfold emitEvent.
    rewrite elem_of_app, !list_elem_of_fmap.
    intros [(cb' & [= -> ->] & Hin)|(cb' & [= -> ->] & Hin)]; auto.
  - unfold removeListener. apply lookup_delete_eq.
  - intros Hne. unfold removeListener. by rewrite lookup_delete_ne.
  - intros Htype Hall. unfold emitEvent, removeListener.
    rewrite Htype, lookup_delete_eq, lookup_delete_ne by done. done.
Qed.

Lemma listeners_append_and_fan_out_witness :
  let listeners :=
    addListener "all" 9%nat
      (addListener "upload-progress" 2%nat
         (addListener "upload-progress" 1%nat (∅ : Listeners))) in
  let event := plainEvent "upload-progress" "upload-1" in
  emitEvent listeners event = [(1, event); (2, event); (9, event)]%nat
  ∧ emitEvent (removeListener "upload-progress" listeners) event
    = [(9%nat, event)]
  ∧ removeListener "upload-progress" listeners !! "all"%string
    = Some [9%nat].
Proof.
  cbv zeta.
  set (listeners := addListener "all" 9%nat _).
  set (event := plainEvent "upload-progress" "upload-1").
  destruct (listeners_append_and_fan_out listeners "upload-progress" "all"
              0%nat [] event) as (_ & (Hemit & _) & (_ & Hother & Hgone)).
  split; [|split].
  - rewrite Hemit. vm_compute. reflexivity.
  - rewrite (Hgone ltac:(reflexivity) ltac:(done)). vm_compute. reflexivity.
  - rewrite (Hother ltac:(done)). vm_compute. reflexivity.
Defined.

End EventBus.

(** ** The ETag of a response *)

Section ETag.

Import Android.

Lemma header_ignores_case headers :
  header "ETag" headers = header "etag" headers.
Proof. reflexivity. Qed.

Lemma header_Some name headers v :
  header name headers = Some v →
  ∃ n, (n, v) ∈ headers ∧ lowercase n = lowercase name.
Proof.
  unfold header. intros Hh.
  destruct (last (filter _ headers)) as [[n v']|] eqn:Hlast; [|done].
  injection Hh as ->. exists n.
  apply last_Some_elem_of in Hlast.
  apply list_elem_of_filter in Hlast as [Heq Hin]. split; [done|].
  unfold equalsIgnoreCase in Heq. cbn in Heq.
  apply String.eqb_eq in Heq. done.
Qed.

Lemma header_None name headers :
  header name headers = None →
  ∀ n v, (n, v) ∈ headers → lowercase n ≠ lowercase name.
Proof.
  unfold header. intros Hh n v Hin Heq.
  destruct (last (filter (λ h, equalsIgnoreCase name h.1 = true) headers))
    eqn:Hlast; [done|].
  apply last_None in Hlast.
  assert (Hmem : (n, v) ∈ filter (λ h, equalsIgnoreCase name h.1 = true)
                            headers).
  { apply list_elem_of_filter. split; [|done].
    unfold equalsIgnoreCase. cbn. apply String.eqb_eq. done. }
  rewrite Hlast in Hmem. by apply elem_of_nil in Hmem.
Qed.

(** What [trim] leaves neither starts nor ends with the character. *)
Lemma trimStart_head c s a rest :
  trimStart c s = String a rest → a ≠ c.
Proof.
  induction s as [|b s IH]; cbn; [done|].
  destruct (Ascii.eqb_spec b c) as [->|Hne]; [done|].
  by intros [= <- _].
Qed.

Lemma trimEnd_head c s a rest :
  trimEnd c s = String a rest → ∃ rest', s = String a rest'.
Proof.
  destruct s as [|b s]; cbn; [done|].
  destruct (trimEnd c s); [|intros [= <- _]; by eexists].
  destruct (Ascii.eqb b c); [done|]. intros [= <- _]. by eexists.
Qed.

Lemma trim_head s a rest :
  trim quote s = String a rest → a ≠ quote.
Proof.
  unfold trim. intros H. apply trimEnd_head in H as [rest' H].
  by apply trimStart_head in H.
Qed.

Lemma append_cons a s t : (String a s +:+ t = String a (s +:+ t))%string.
Proof. reflexivity. Qed.

Lemma append_nil t : ("" +:+ t = t)%string.
Proof. reflexivity. Qed.

Lemma trimEnd_last c s :
  ∀ front, trimEnd c s ≠ (front +:+ String c EmptyString)%string.
Proof.
  induction s as [|b s IH]; intros front; cbn [trimEnd].
  - destruct front; [rewrite append_nil|rewrite append_cons]; done.
  - destruct (trimEnd c s) as [|a kept] eqn:E.
    + destruct (Ascii.eqb_spec b c) as [->|Hne].
      * destruct front; [rewrite append_nil|rewrite append_cons]; done.
      * destruct front as [|f front];
          [rewrite append_nil; congruence|rewrite append_cons].
        intros [= _ Hk]. by apply (IH front).
    + destruct front as [|f front];
        [rewrite append_nil; done|rewrite append_cons].
      intros [= _ Hk]. by apply (IH front).
Qed.

Lemma trim_last s front :
  trim quote s ≠ (front +:+ String quote EmptyString)%string.
Proof. apply trimEnd_last. Qed.

Lemma trimStart_decompose c s :
  ∃ pre, s = (pre +:+ trimStart c s)%string ∧ onlyChar c pre = true.
Proof.
  induction s as [|a s (pre & Hs & Hpre)]; cbn [trimStart].
  - by exists EmptyString.
  - destruct (Ascii.eqb_spec a c) as [->|Hne].
    + exists (String c pre). rewrite append_cons, <- Hs. split; [done|].
      cbn. by rewrite Ascii.eqb_refl.
    + by exists EmptyString.
Qed.

Lemma trimEnd_decompose c s :
  ∃ post, s = (trimEnd c s +:+ post)%string ∧ onlyChar c post = true.
Proof.
  induction s as [|a s (post & Hs & Hpost)]; cbn [trimEnd].
  - by exists EmptyString.
  - destruct (trimEnd c s) as [|k kept] eqn:E.
    + rewrite append_nil in Hs. subst s.
      destruct (Ascii.eqb_spec a c) as [->|Hne].
      * exists (String c post). rewrite append_nil. split; [done|].
        cbn. by rewrite Ascii.eqb_refl.
      * exists post. by rewrite append_cons, append_nil.
    + exists post. rewrite append_cons, <- Hs. done.
Qed.

(** [trim] removes a run of the character at each end and nothing else. *)
Lemma trim_decompose c s :
  ∃ pre post,
    s = (pre +:+ trim c s +:+ post)%string
    ∧ onlyChar c pre = true ∧ onlyChar c post = true.
Proof.
  destruct (trimStart_decompose c s) as (pre & Hs & Hpre).
  destruct (trimEnd_decompose c (trimStart c s)) as (post & Ht & Hpost).
  exists pre, post. unfold trim. by rewrite <- Ht.
Qed.

(** Android: the ETag of a successful response is the value of the last
    header whose name is ["etag"] in any letter case, without leading and
    trailing quote characters, and is empty when there is no such header. *)
Lemma android_etag_spec headers :
  (∀ v, header "etag" headers = Some v →
        responseETag headers = trim quote v)
  ∧ (header "etag" headers = None → responseETag headers = ""%string)
  ∧ (∀ v, header "etag" headers = Some v →
        ∃ pre post,
          v = (pre +:+ responseETag headers +:+ post)%string
          ∧ onlyChar quote pre = true ∧ onlyChar quote post = true)
  ∧ (∀ a rest, responseETag headers = String a rest → a ≠ quote)
  ∧ (∀ front, responseETag headers
              ≠ (front +:+ String quote EmptyString)%string).
Proof.
  unfold responseETag. rewrite header_ignores_case.
  destruct (header "etag" headers) as [v|]; split_and!; try done.
  - by intros ? [= <-].
  - intros ? [= <-]. apply trim_decompose.
  - apply trim_head.
  - apply trim_last.
  - intros []; done.
Qed.

(** A successful response without an ETag header still completes the
    part, with the empty string stored. *)
Lemma android_missing_etag_is_success uploadId part code errorBody rest state :
  isSuccessful code = true →
  partETags state !! partNumber part = None →
  ∃ run,
    uploadPart uploadId part (Ran (Responded code [] errorBody) :: rest) state
    = Some run
    ∧ ok run = true
    ∧ partETags (stateAfter run) !! partNumber part = Some ""%string
    ∧ failedChunks (stateAfter run) = failedChunks state ∖ {[partNumber part]}.
Proof.
  intros Hok Hfree. unfold uploadPart.
  rewrite decide_False by (rewrite Hfree; by intros [? ?]).
  cbn. rewrite Hok. eexists. split; [done|]. cbn.
  by rewrite lookup_insert_eq.
Qed.

(** C9 fails on iOS, which returns the header value as it is: for a 2xx
    response carrying the quoted ETag the storage service sends, the chunk
    completes with the quotes still around the ETag, where Android strips
    them; and the lookup tries the two spellings [Etag] and [ETag] of the
    dictionary key only, where Android ignores case.  A response without
    the header completes the chunk with the empty string on both. *)
Theorem ios_etag_keeps_quotes :
  let quoted := String quote ("9b2cf535f27731c9" +:+ String quote "")%string in
  IOS.responseETag {["Etag"%string := quoted]} = quoted
  ∧ Android.responseETag [("Etag"%string, quoted)] = "9b2cf535f27731c9"%string
  ∧ (let '(s, log) :=
       runSession [TaskDone 0 (IOS.DidRespond 200 {["Etag"%string := quoted]})]
         (IOS.start iosSession) in
     IOS.etags s = [quoted; ""; ""]%string ∧ log = [(0%nat, quoted)])
  ∧ IOS.responseETag {["etag"%string := "9b2cf535f27731c9"%string]}
    = ""%string
  ∧ Android.responseETag [("etag", "9b2cf535f27731c9")]%string
    = "9b2cf535f27731c9"%string
  ∧ IOS.responseETag ∅ = ""%string
  ∧ (runSession [TaskDone 0 (IOS.DidRespond 200 ∅)] (IOS.start iosSession)).2
    = [(0%nat, ""%string)].
Proof. vm_compute. repeat split; reflexivity. Qed.

End ETag.

(** ** Retries *)

Section Retries.

Import Android.

(** At most [MAX_RETRIES] attempts are made for a part. *)
Lemma retryLoop_attempts uploadId part ticks : ∀ retries run run',
  retryLoop uploadId part ticks retries run = Some run' →
  (attempts run' ≤ attempts run + (MAX_RETRIES - retries))%nat.
Proof.
  induction ticks as [|tick rest IH]; intros retries run run';
    cbn [retryLoop]; destruct (Nat.leb_spec MAX_RETRIES retries) as [Hle|Hlt];
    try (intros [= <-]; lia); try done.
  destruct tick as [| |attempt].
  - intros Hrun. apply IH in Hrun. cbn in Hrun. unfold MAX_RETRIES in *. lia.
  - intros [= <-]. cbn. lia.
  - destruct (attemptError attempt).
    + destruct (S retries <? MAX_RETRIES)%nat; intros Hrun;
        apply IH in Hrun; cbn in Hrun; unfold MAX_RETRIES in *; lia.
    + intros [= <-]. cbn. unfold MAX_RETRIES in *. lia.
Qed.

Lemma android_attempt_budget uploadId part ticks state run :
  uploadPart uploadId part ticks state = Some run →
  (attempts run ≤ 3)%nat.
Proof.
  unfold uploadPart. case_decide; [intros [= <-]; cbn; lia|].
  intros Hrun. apply retryLoop_attempts in Hrun. cbn in Hrun. lia.
Qed.

(** Two failed attempts and a successful third: the part succeeds, after
    sleeping one and then two seconds. *)
Lemma android_third_attempt_succeeds uploadId part state a1 a2 m1 m2
    code headers errorBody rest :
  partETags state !! partNumber part = None →
  attemptError a1 = Some m1 → attemptError a2 = Some m2 →
  isSuccessful code = true →
  uploadPart uploadId part
    (Ran a1 :: Ran a2 :: Ran (Responded code headers errorBody) :: rest) state
  = Some {| ok := true;
            stateAfter := recordPart part (responseETag headers) state;
            emitted := partEvents uploadId part
                         (recordPart part (responseETag headers) state);
            delays := [1000; 2000]; attempts := 3;
            cancelled := false |}.
Proof.
  intros Hfree H1 H2 Hok. unfold uploadPart.
  rewrite decide_False by (rewrite Hfree; by intros [? ?]).
  cbn. rewrite H1. cbn. rewrite H2. cbn. by rewrite Hok.
Qed.

(** Three failed attempts: the part is marked failed, [chunk-failed] is
    emitted with the last error, and no fourth attempt is made whatever
    would follow. *)
Lemma android_three_failures uploadId part state a1 a2 a3 m1 m2 m3 rest :
  partETags state !! partNumber part = None →
  attemptError a1 = Some m1 → attemptError a2 = Some m2 →
  attemptError a3 = Some m3 →
  uploadPart uploadId part (Ran a1 :: Ran a2 :: Ran a3 :: rest) state
  = Some {| ok := false; stateAfter := markFailed part state;
            emitted := [chunkFailedEvent uploadId part m3];
            delays := [1000; 2000]; attempts := 3;
            cancelled := false |}.
Proof.
  intros Hfree H1 H2 H3. unfold uploadPart.
  rewrite decide_False by (rewrite Hfree; by intros [? ?]).
  cbn. rewrite H1. cbn. rewrite H2. cbn. rewrite H3. cbn.
  by destruct rest.
Qed.

(** A pause seen by the loop costs a second and no attempt. *)
Lemma android_pause_costs_no_attempt uploadId part state code headers
    errorBody rest :
  partETags state !! partNumber part = None →
  isSuccessful code = true →
  uploadPart uploadId part
    (SeenPaused :: SeenPaused :: Ran (Responded code headers errorBody) :: rest)
    state
  = Some {| ok := true;
            stateAfter := recordPart part (responseETag headers) state;
            emitted := partEvents uploadId part
                         (recordPart part (responseETag headers) state);
            delays := [1000; 1000]; attempts := 1;
            cancelled := false |}.
Proof.
  intros Hfree Hok. unfold uploadPart.
  rewrite decide_False by (rewrite Hfree; by intros [? ?]).
  cbn. by rewrite Hok.
Qed.

(** The loop ends by its third attempt; only turns that find the upload
    paused prolong it. *)
Lemma retryLoop_returns uploadId part ticks : ∀ retries run,
  (MAX_RETRIES - retries
   ≤ List.length (filter (λ tick, notPaused tick = true) ticks))%nat →
  is_Some (retryLoop uploadId part ticks retries run).
Proof.
  induction ticks as [|tick rest IH]; intros retries run; cbn [retryLoop];
    destruct (Nat.leb_spec MAX_RETRIES retries) as [Hle|Hlt];
    try (intros _; by eexists).
  - unfold MAX_RETRIES in *. cbn. lia.
  - destruct tick as [| |attempt].
    + rewrite filter_cons_False by done. apply IH.
    + intros _. by eexists.
    + rewrite filter_cons_True by done. cbn [List.length]. intros Hlen.
      destruct (attemptError attempt); [|by eexists].
      destruct (S retries <? MAX_RETRIES)%nat; apply IH;
        unfold MAX_RETRIES in *; lia.
Qed.

(** Other parts leave a part's entry in [failedChunks] alone. *)
Lemma retryLoop_failed_kept uploadId part ticks pn : ∀ retries run run',
  pn ≠ partNumber part →
  retryLoop uploadId part ticks retries run = Some run' →
  pn ∈ failedChunks (stateAfter run) → pn ∈ failedChunks (stateAfter run').
Proof.
  induction ticks as [|tick rest IH]; intros retries run run' Hne;
    cbn [retryLoop]; destruct (MAX_RETRIES <=? retries)%nat;
    try (by intros [= <-]); try done.
  destruct tick as [| |attempt].
  - intros Hrun Hin. by apply (IH _ _ _ Hne Hrun).
  - by intros [= <-].
  - destruct (attemptError attempt).
    + destruct (S retries <? MAX_RETRIES)%nat; intros Hrun Hin;
        apply (IH _ _ _ Hne Hrun); cbn; [done|].
      apply elem_of_union. by right.
    + intros [= <-] Hin. cbn. apply elem_of_difference. split; [done|].
      by intros ->%elem_of_singleton.
Qed.

(** A part whose first three attempts fail stays without ETag and is in
    [failedChunks] once it has run, whatever the other parts do. *)
Lemma runParts_exhausted uploadId fileSize uploadUrls ticksOf index
    a1 a2 a3 m1 m2 m3 rest order :
  ticksOf (index + 1)%nat = Ran a1 :: Ran a2 :: Ran a3 :: rest →
  attemptError a1 = Some m1 → attemptError a2 = Some m2 →
  attemptError a3 = Some m3 →
  (index < List.length uploadUrls)%nat →
  ∀ state log state' log',
  partETags state !! (index + 1)%nat = None →
  index ∈ order ∨ (index + 1)%nat ∈ failedChunks state →
  runParts uploadId (planParts fileSize uploadUrls) ticksOf order state log
    = Some (state', log') →
  partETags state' !! (index + 1)%nat = None
  ∧ (index + 1)%nat ∈ failedChunks state'.
Proof.
  intros Hticks H1 H2 H3 Hlt.
  induction order as [|i order IH]; intros state log state' log' Hfree Hseen.
  - intros [= <- <-]. split; [done|].
    destruct Hseen as [Hin|?]; [by apply elem_of_nil in Hin|done].
  - cbn [runParts].
    destruct (planParts fileSize uploadUrls !! i) as [part|] eqn:Hpart.
    2: { apply IH; [done|]. destruct Hseen as [Hin|?]; [|by right].
         apply elem_of_cons in Hin as [->|?]; [|by left].
         apply lookup_ge_None in Hpart. unfold planParts in Hpart.
         rewrite length_imap in Hpart. lia. }
    destruct (planParts_lookup _ _ _ _ Hpart) as [Hpn _].
    destruct (uploadPart uploadId part (ticksOf (partNumber part)) state)
      as [run|] eqn:Hrun; [|done].
    destruct (decide (i = index)) as [->|Hne].
    + rewrite Hpn, Hticks in Hrun.
      rewrite (android_three_failures _ _ _ _ _ _ _ _ _ _
                 ltac:(by rewrite Hpn) H1 H2 H3) in Hrun.
      injection Hrun as <-. cbn [stateAfter emitted].
      apply IH; cbn; [done|]. right. rewrite Hpn.
      apply elem_of_union. left. by apply elem_of_singleton.
    + assert (Hother : (index + 1)%nat ≠ partNumber part) by lia.
      apply IH.
      * revert Hrun. unfold uploadPart. case_decide; [by intros [= <-]|].
        intros Hrun. apply retryLoop_etags in Hrun as [(-> & _)|Hdone];
          [done|].
        destruct Hdone as (? & ? & ? & _ & _ & -> & _). cbn.
        by rewrite lookup_insert_ne.
      * destruct Hseen as [Hin|Hin].
        -- left. apply elem_of_cons in Hin as [->|?]; done.
        -- right. revert Hrun. unfold uploadPart.
           case_decide; [by intros [= <-]|]. intros Hrun.
           by apply (retryLoop_failed_kept _ _ _ _ _ _ _ Hother Hrun).
Qed.

(** A part that fails on all three attempts fails the upload: whatever the
    other parts do and in whatever order the parts end, the promise is
    rejected, with the error listing that part number unless the job was
    cancelled, and no ETag is returned. *)
Lemma android_exhausted_part_fails_upload uploadId uploadUrls fileSize
    ticksOf order index a1 a2 a3 m1 m2 m3 rest state log result :
  ticksOf (index + 1)%nat = Ran a1 :: Ran a2 :: Ran a3 :: rest →
  attemptError a1 = Some m1 → attemptError a2 = Some m2 →
  attemptError a3 = Some m3 →
  (index < List.length uploadUrls)%nat →
  index ∈ order →
  performUpload uploadId uploadUrls fileSize ticksOf order
    (freshState fileSize (List.length uploadUrls))
    = Some (state, log, result) →
  result = inl JobCancelled
  ∨ ∃ failedParts,
      result = inl (UploadIncomplete failedParts)
      ∧ (index + 1)%nat ∈ failedParts.
Proof.
  intros Hticks H1 H2 H3 Hlt Hin. unfold performUpload.
  destruct (runParts _ _ _ _ _ _) as [[state' log']|] eqn:Hrun; [|done].
  destruct (seesCancellation _ _ _ _ _); [intros [= <- <- <-]; by left|].
  assert (Hfresh : partETags (freshState fileSize (List.length uploadUrls))
                   !! (index + 1)%nat = None) by apply lookup_empty.
  destruct (runParts_exhausted _ _ _ _ _ _ _ _ _ _ _ _ _ Hticks H1 H2 H3 Hlt
              _ _ _ _ Hfresh (or_introl Hin) Hrun) as [Hfree Hfailed].
  assert (Hinv : StateInv (List.length uploadUrls) ticksOf state').
  { eapply runParts_inv; [done| |done].
    split; [done|]. intros pn etag. cbn. by rewrite lookup_empty. }
  case_decide as Hall.
  - intros [= <- <- <-]. right. eexists. split; [done|].
    unfold sortedFailed. rewrite merge_sort_Permutation.
    by apply elem_of_elements.
  - exfalso.
    assert (Hcount : completedChunks state' = List.length uploadUrls).
    { by destruct (decide (completedChunks state' = List.length uploadUrls)). }
    destruct Hinv as [Hsize Hetags].
    assert (Hdom : dom (partETags state')
                   = set_seq 1 (List.length uploadUrls)).
    { apply set_subseteq_size_eq.
      - intros pn [etag Hpn]%elem_of_dom.
        apply elem_of_set_seq. destruct (Hetags pn etag Hpn) as [? _]. lia.
      - rewrite size_set_seq, size_dom. lia. }
    assert (Hmem : (index + 1)%nat ∈ dom (partETags state')).
    { rewrite Hdom. apply elem_of_set_seq. lia. }
    apply elem_of_dom in Hmem as [? Hmem]. congruence.
Qed.

(** A failed part does not stop the others and fails the upload: with part
    2 failing three times, parts 1 and 3 are uploaded all the same, and the
    upload is rejected with the message listing part 2; the ETags of parts
    1 and 3 are in no result. *)
Lemma android_failed_part_example :
  ∃ state log,
    performUpload "upload-1" threeUrls (11 * MiB) failingTicks [1; 0; 2]%nat
      (freshState (11 * MiB) 3)
    = Some (state, log, inl (UploadIncomplete [2%nat]))
    ∧ completedChunks state = 2%nat
    ∧ map_to_list (partETags state)
      ≡ₚ [(1%nat, "etag-a"%string); (3%nat, "etag-c"%string)]
    ∧ ev_type <$> log
      = ["chunk-failed"; "chunk-completed"; "upload-progress";
         "chunk-completed"; "upload-progress"; "upload-failed"]%string
    ∧ ev_errorMessage <$> last log
      = Some (Some "Upload incomplete. Failed parts: 2"%string).
Proof.
  destruct (performUpload "upload-1" threeUrls (11 * MiB) failingTicks
              [1; 0; 2]%nat (freshState (11 * MiB) 3))
    as [[[state log] r]|] eqn:Hrun; [|vm_compute in Hrun; discriminate Hrun].
  exists state, log. vm_compute in Hrun.
  injection Hrun as <- <- <-. split; [reflexivity|]. split; [reflexivity|].
  split; [|split; reflexivity].
  vm_compute. apply Permutation_refl || apply perm_swap.
Qed.

End Retries.

Section IOSRetries.

(** C4 fails on iOS, which has no attempt budget and no backoff.  A part
    whose transfer fails while no other transfer is active fails the whole
    upload at once, on its first attempt: here the single part of a 3 MiB
    upload times out once and the promise is rejected.  And a part whose
    transfers fail while others are active is started again each time
    another part completes, without limit: here part 1 fails four times and
    the upload still succeeds on its fifth attempt. *)
Theorem ios_no_attempt_budget :
  (let o := IOS.taskDidComplete 0 (IOS.DidFail "timed out") iosSingle in
   IOS.activeTasks <$> IOS.currentUpload iosSingle = Some {[0%nat]}
   ∧ IOS.settled o = Some (inl (IOS.TransportError "timed out"))
   ∧ IOS.currentUpload (IOS.next o) = None
   ∧ ev_type <$> IOS.events o = ["chunk-failed"; "upload-failed"]%string)
  ∧ (let o := IOS.taskDidComplete 0 (IOS.DidRespond 503 ∅) iosSingle in
     IOS.settled o = Some (inl (IOS.ChunkFailed 0)))
  ∧ (let '(s, log) := runSession fourFailures (IOS.start iosFive) in
     IOS.resumedWith s
     = Some (inr {| res_uploadId := "upload-1"; res_success := true;
                    res_etags := ["etag-a"; "etag-b"; "etag-c"; "etag-d";
                                  "etag-e"]%string |})
     ∧ IOS.state s = IOS.completed).
Proof. vm_compute. repeat split; reflexivity. Qed.

End IOSRetries.

(** * Further properties of the code *)

(** ** iOS sessions along a run *)

Section IOSSessionRuns.

Import IOS.

(** What a delegate callback can do to a session: nothing; drop the task,
    and perhaps fail; or drop it, record the chunk and then complete or
    dispatch. *)
Lemma didComplete_shape index outcome s :
  let s1 := with_activeTasks (activeTasks s ∖ {[index]}) s in
  let s' := (didComplete index outcome s).1 in
  (s' = s ∧ recorded (TaskDone index outcome) s = None)
  ∨ (index ∈ activeTasks s ∧ recorded (TaskDone index outcome) s = None
     ∧ (s' = s1
        ∨ ((state s = uploading ∨ state s = paused)
           ∧ ∃ error, s' = fail error s1)))
  ∨ (index ∈ activeTasks s ∧ (state s = uploading ∨ state s = paused)
     ∧ ∃ etag, recorded (TaskDone index outcome) s = Some (index, etag)
       ∧ (s' = complete (recordChunk index etag s1)
          ∨ s' = uploadNextChunks (recordChunk index etag s1))).
Proof.
  cbv zeta. unfold didComplete, recorded.
  case_decide as Hact.
  2: { left. split; [done|]. by destruct outcome. }
  right.
  change (state (with_activeTasks (activeTasks s ∖ {[index]}) s))
    with (state s).
  case_decide as Hlive.
  2: { left. split; [done|]. split; [by destruct outcome|]. by left. }
  assert (Hfail : ∀ error,
            (chunkDidFail index error
               (with_activeTasks (activeTasks s ∖ {[index]}) s)).1
            = with_activeTasks (activeTasks s ∖ {[index]}) s
            ∨ ∃ error',
                (chunkDidFail index error
                   (with_activeTasks (activeTasks s ∖ {[index]}) s)).1
                = fail error'
                    (with_activeTasks (activeTasks s ∖ {[index]}) s)).
  { intros error. unfold chunkDidFail. cbn [fst].
    repeat case_match; eauto. }
  destruct outcome as [description| |statusCode allHeaderFields].
  - left. split; [done|]. split; [done|].
    destruct (Hfail (TransportError description)) as [->|[e ->]]; eauto.
  - left. split; [done|]. split; [done|].
    destruct (Hfail (ChunkFailed index)) as [->|[e ->]]; eauto.
  - destruct ((200 <=? statusCode) && (statusCode <=? 299)).
    + right. split; [done|]. split; [done|].
      exists (responseETag allHeaderFields). split; [done|].
      cbn [fst]. case_decide; auto.
    + left. split; [done|]. split; [done|].
      destruct (Hfail (ChunkFailed index)) as [->|[e ->]]; eauto.
Qed.

(** Fields the session operations leave alone. *)
Lemma complete_fields s :
  activeTasks (complete s) = activeTasks s
  ∧ maxParallel (complete s) = maxParallel s
  ∧ isPaused (complete s) = isPaused s
  ∧ bytesUploaded (complete s) = bytesUploaded s
  ∧ totalBytes (complete s) = totalBytes s
  ∧ chunkSize (complete s) = chunkSize s
  ∧ (state (complete s) = state s ∨ state (complete s) = completed).
Proof.
  unfold complete. destruct (hasResumedContinuation s); cbn; auto 10.
Qed.

Lemma fail_fields error s :
  activeTasks (fail error s) = activeTasks s
  ∧ maxParallel (fail error s) = maxParallel s
  ∧ isPaused (fail error s) = isPaused s
  ∧ bytesUploaded (fail error s) = bytesUploaded s
  ∧ totalBytes (fail error s) = totalBytes s
  ∧ chunkSize (fail error s) = chunkSize s
  ∧ (state (fail error s) = state s ∨ state (fail error s) = failed).
Proof.
  unfold fail. destruct (hasResumedContinuation s); cbn; auto 10.
Qed.

(** [uploadNextChunks] changes the active tasks, or completes. *)
Lemma uploadNextChunks_shape s :
  uploadNextChunks s = complete s
  ∨ uploadNextChunks s = with_activeTasks (activeTasks (uploadNextChunks s)) s.
Proof.
  unfold uploadNextChunks. case_decide; [|right; by rewrite with_activeTasks_same].
  destruct (dispatchLoop_cases (S (List.length (uploadUrls s))) s)
    as [(-> & _)|[Heq _]]; [by left|by right].
Qed.

Lemma dispatchLoop_within fuel : ∀ s,
  WithinParallel s → WithinParallel (dispatchLoop fuel s).
Proof.
  induction fuel as [|fuel IH]; intros s Hs; cbn [dispatchLoop]; [done|].
  destruct (Z.ltb_spec (Z.of_nat (size (activeTasks s))) (maxParallel s))
    as [Hroom|]; [|done].
  destruct (getNextChunkIndex s) as [i|] eqn:Hnext.
  - apply IH. apply getNextChunkIndex_Some in Hnext as (_ & _ & Hnew).
    unfold WithinParallel, uploadChunk in *. cbn.
    rewrite size_union by (intros x ->%elem_of_singleton; done).
    rewrite size_singleton. lia.
  - case_decide; [|done].
    unfold WithinParallel in *.
    by destruct (complete_fields s) as (-> & -> & _).
Qed.

Lemma uploadNextChunks_within s :
  WithinParallel s → WithinParallel (uploadNextChunks s).
Proof.
  intros Hs. unfold uploadNextChunks. case_decide; [|done].
  by apply dispatchLoop_within.
Qed.

Lemma step_within step s :
  WithinParallel s → WithinParallel (sessionStep step s).
Proof.
  intros Hs. destruct step as [index outcome| | |]; cbn [sessionStep].
  - assert (Hs1 : WithinParallel
                    (with_activeTasks (activeTasks s ∖ {[index]}) s)).
    { unfold WithinParallel in *. cbn.
      assert (size (activeTasks s ∖ {[index]}) ≤ size (activeTasks s))%nat.
      { apply subseteq_size. intros x [Hx _]%elem_of_difference. done. }
      lia. }
    destruct (didComplete_shape index outcome s)
      as [[-> _]|[(_ & _ & [->|(_ & e & ->)])|(_ & _ & etag & _ & [->| ->])]].
    + done.
    + done.
    + unfold WithinParallel in *.
      by destruct (fail_fields e
                     (with_activeTasks (activeTasks s ∖ {[index]}) s))
        as (-> & -> & _).
    + unfold WithinParallel in *.
      by destruct (complete_fields
                     (recordChunk index etag
                        (with_activeTasks (activeTasks s ∖ {[index]}) s)))
        as (-> & -> & _).
    + by apply uploadNextChunks_within.
  - unfold pause. by case_decide.
  - unfold resume. case_decide; [|done]. by apply uploadNextChunks_within.
  - unfold cancel. destruct (hasResumedContinuation s); [done|].
    unfold WithinParallel. cbn. rewrite size_empty. lia.
Qed.

Lemma uploadNextChunks_maxParallel s :
  maxParallel (uploadNextChunks s) = maxParallel s.
Proof.
  destruct (uploadNextChunks_shape s) as [->| ->]; [|done].
  by destruct (complete_fields s) as (_ & -> & _).
Qed.

Lemma step_maxParallel step s :
  maxParallel (sessionStep step s) = maxParallel s.
Proof.
  destruct step as [index outcome| | |]; cbn [sessionStep].
  - destruct (didComplete_shape index outcome s)
      as [[-> _]|[(_ & _ & [->|(_ & e & ->)])|(_ & _ & etag & _ & [->| ->])]];
      try done.
    + by destruct (fail_fields e
                     (with_activeTasks (activeTasks s ∖ {[index]}) s))
        as (_ & -> & _).
    + by destruct (complete_fields
                     (recordChunk index etag
                        (with_activeTasks (activeTasks s ∖ {[index]}) s)))
        as (_ & -> & _).
    + by rewrite uploadNextChunks_maxParallel.
  - unfold pause. by case_decide.
  - unfold resume. case_decide; [|done].
    by rewrite uploadNextChunks_maxParallel.
  - unfold cancel. by destruct (hasResumedContinuation s).
Qed.

Lemma run_within steps : ∀ s s' log,
  WithinParallel s → runSession steps s = (s', log) →
  WithinParallel s' ∧ maxParallel s' = maxParallel s.
Proof.
  induction steps as [|step rest IH]; intros s s' log Hs Hrun.
  - by injection Hrun as <- <-.
  - cbn in Hrun.
    destruct (runSession rest (sessionStep step s)) as [s1 log1] eqn:Hrest.
    injection Hrun as <- <-.
    destruct (IH _ _ _ (step_within step s Hs) Hrest) as [? ->].
    split; [done|]. apply step_maxParallel.
Qed.

(** X1.  Along every run of a started session the number of transfers in
    flight never exceeds [maxParallel] (nor zero when that is negative),
    whatever callbacks, pauses, resumes and cancels occur. *)
Theorem ios_transfers_within_parallelism env uploadId filePath uploadUrls
    maxParallel session steps s log :
  init env uploadId filePath uploadUrls maxParallel = inr session →
  runSession steps (start session) = (s, log) →
  Z.of_nat (size (activeTasks s)) ≤ Z.max 0 maxParallel.
Proof.
  intros Hinit Hrun.
  destruct (init_accepted _ _ _ _ _ _ Hinit)
    as (_ & _ & Hmax & _ & _ & Hact & _).
  assert (Hstart : WithinParallel (start session)).
  { unfold start. apply uploadNextChunks_within.
    unfold WithinParallel. cbn. rewrite Hact, size_empty. lia. }
  destruct (run_within _ _ _ _ Hstart Hrun) as [Hw Hm].
  unfold WithinParallel in Hw. rewrite Hm in Hw.
  unfold start in Hw. rewrite uploadNextChunks_maxParallel in Hw.
  cbn in Hw. by rewrite Hmax in Hw.
Qed.

Lemma ios_transfers_within_parallelism_witness :
  Z.of_nat (size (activeTasks outOfOrderRun.1)) ≤ Z.max 0 2.
Proof.
  apply (ios_transfers_within_parallelism (iosFiles (11 * MiB)) "upload-1"
           "/video.mp4" threeUrls 2 iosSession outOfOrderSteps
           outOfOrderRun.1 outOfOrderRun.2).
  - reflexivity.
  - vm_compute. reflexivity.
Defined.

(** X2.  Along every run of a started session each chunk is recorded at
    most once; a recorded chunk lies within the URL list, is completed, is
    never in flight again, and its ETag sits at its own position; and no
    chunk is in flight and completed at once. *)
Theorem ios_chunk_recorded_once env uploadId filePath uploadUrls maxParallel
    session steps s log :
  init env uploadId filePath uploadUrls maxParallel = inr session →
  runSession steps (start session) = (s, log) →
  NoDup log.*1
  ∧ (∀ k e, (k, e) ∈ log →
       (k < List.length uploadUrls)%nat
       ∧ k ∈ completedChunks s ∧ (k ∉ activeTasks s)
       ∧ etags s !! k = Some e)
  ∧ (∀ k, k ∈ activeTasks s →
       (k < List.length uploadUrls)%nat ∧ (k ∉ completedChunks s)).
Proof.
  intros Hinit Hrun.
  pose proof (inv_run steps _ [] _ _ (inv_start _ _ _ _ _ _ Hinit) Hrun)
    as Hinv. cbn in Hinv.
  assert (Hn : IOS.uploadUrls s = uploadUrls).
  { rewrite (runSession_urls _ _ _ _ Hrun). unfold start.
    rewrite uploadNextChunks_urls. cbn.
    by destruct (init_accepted _ _ _ _ _ _ Hinit) as (_ & -> & _). }
  split; [apply (inv_nodup _ _ Hinv)|]. split.
  - intros k e Hin.
    assert (Hk : k ∈ completedChunks s).
    { apply (inv_completed _ _ Hinv), list_elem_of_fmap. by exists (k, e). }
    split_and!.
    + rewrite <- Hn. by apply (inv_range _ _ Hinv).
    + done.
    + intros Hact. by destruct (inv_active _ _ Hinv k Hact).
    + by apply (inv_logged _ _ Hinv).
  - intros k Hk. rewrite <- Hn. by apply (inv_active _ _ Hinv).
Qed.

Lemma ios_chunk_recorded_once_witness :
  NoDup outOfOrderRun.2.*1
  ∧ etags outOfOrderRun.1 !! 1%nat = Some "etag-b"%string.
Proof.
  destruct (ios_chunk_recorded_once (iosFiles (11 * MiB)) "upload-1"
              "/video.mp4" threeUrls 2 iosSession outOfOrderSteps
              outOfOrderRun.1 outOfOrderRun.2 eq_refl)
    as (Hnodup & Hlog & _).
  - vm_compute. reflexivity.
  - split; [exact Hnodup|].
    destruct (Hlog 1%nat "etag-b"%string) as (_ & _ & _ & He); [|exact He].
    vm_compute. left.
Defined.

(** Once the continuation was resumed no step changes anything but the set
    of tasks in flight, which can only shrink, and nothing is recorded. *)
Lemma step_terminal step s :
  hasResumedContinuation s = true →
  state s ≠ uploading → state s ≠ paused →
  sessionStep step s = with_activeTasks (activeTasks (sessionStep step s)) s
  ∧ activeTasks (sessionStep step s) ⊆ activeTasks s
  ∧ recorded step s = None.
Proof.
  intros Hres Hu Hp. destruct step as [index outcome| | |];
    cbn [sessionStep recorded].
  - destruct (didComplete_shape index outcome s)
      as [[-> Hrec]|[(_ & Hrec & [->|([?|?] & _)])|(_ & [?|?] & _)]];
      try done.
    + by rewrite with_activeTasks_same.
    + split; [done|]. split; [|done].
      intros x [Hx _]%elem_of_difference. done.
  - unfold pause. rewrite decide_False by done.
    by rewrite with_activeTasks_same.
  - unfold resume. rewrite decide_False by done.
    by rewrite with_activeTasks_same.
  - unfold cancel. rewrite Hres. by rewrite with_activeTasks_same.
Qed.

Lemma run_terminal steps : ∀ s s' log,
  hasResumedContinuation s = true →
  state s ≠ uploading → state s ≠ paused →
  runSession steps s = (s', log) →
  s' = with_activeTasks (activeTasks s') s
  ∧ activeTasks s' ⊆ activeTasks s ∧ log = [].
Proof.
  induction steps as [|step rest IH]; intros s s' log Hres Hu Hp Hrun.
  - injection Hrun as <- <-. by rewrite with_activeTasks_same.
  - cbn in Hrun.
    destruct (runSession rest (sessionStep step s)) as [s1 log1] eqn:Hrest.
    injection Hrun as <- <-.
    destruct (step_terminal step s Hres Hu Hp) as (Heq & Hsub & ->).
    rewrite Heq in Hrest.
    apply IH in Hrest as (Hs1 & Hsub1 & ->); [|done..].
    rewrite with_activeTasks_twice in Hs1. split; [done|].
    split; [|done]. cbn in Hsub1. set_solver.
Qed.

(** X3.  The result of an upload is final: once the continuation of a
    started session was resumed (with a result or an error), every further
    callback, pause, resume or cancel leaves its state, ETags, progress and
    result as they are and records no chunk; only the set of tasks in
    flight may shrink. *)
Theorem ios_result_is_final env uploadId filePath uploadUrls maxParallel
    session steps s log later s' log' :
  init env uploadId filePath uploadUrls maxParallel = inr session →
  runSession steps (start session) = (s, log) →
  is_Some (resumedWith s) →
  runSession later s = (s', log') →
  s' = with_activeTasks (activeTasks s') s
  ∧ activeTasks s' ⊆ activeTasks s
  ∧ log' = [].
Proof.
  intros Hinit Hrun Hsome Hlater.
  pose proof (inv_run steps _ [] _ _ (inv_start _ _ _ _ _ _ Hinit) Hrun)
    as Hinv. cbn in Hinv.
  destruct (inv_terminal _ _ Hinv Hsome) as (Hres & Hu & Hp).
  by apply (run_terminal later s).
Qed.

Lemma ios_result_is_final_witness :
  (runSession [ResumeCalled; TaskDone 0 (iosOk "late"); CancelCalled]
     outOfOrderRun.1).1 = outOfOrderRun.1.
Proof.
  destruct (runSession [ResumeCalled; TaskDone 0 (iosOk "late"); CancelCalled]
              outOfOrderRun.1) as [s' log'] eqn:Hlater.
  destruct (ios_result_is_final (iosFiles (11 * MiB)) "upload-1"
              "/video.mp4" threeUrls 2 iosSession outOfOrderSteps
              outOfOrderRun.1 outOfOrderRun.2 _ s' log' eq_refl
              ltac:(vm_compute; reflexivity) ltac:(by eexists) Hlater)
    as (Heq & Hsub & _).
  cbn [fst]. rewrite Heq.
  assert (Hnone : activeTasks s' = ∅).
  { apply set_eq. intros x. split; [|set_solver].
    intros Hx. apply Hsub in Hx. revert Hx. vm_compute. done. }
  rewrite Hnone. reflexivity.
Defined.

(** A step other than [resume()] on a session that is not uploading starts
    no task and does not make it uploading. *)
Lemma step_not_uploading step s :
  state s ≠ uploading → step ≠ ResumeCalled →
  state (sessionStep step s) ≠ uploading
  ∧ activeTasks (sessionStep step s) ⊆ activeTasks s.
Proof.
  intros Hu Hstep. destruct step as [index outcome| | |];
    cbn [sessionStep]; [| |done|].
  - assert (Hsub : activeTasks s ∖ {[index]} ⊆ activeTasks s).
    { intros x [Hx _]%elem_of_difference. done. }
    destruct (didComplete_shape index outcome s)
      as [[-> _]|[(_ & _ & [->|(_ & e & ->)])|(_ & _ & etag & _ & [->| ->])]].
    + done.
    + done.
    + destruct (fail_fields e
                  (with_activeTasks (activeTasks s ∖ {[index]}) s))
        as (-> & _ & _ & _ & _ & _ & [->| ->]); done.
    + destruct (complete_fields
                  (recordChunk index etag
                     (with_activeTasks (activeTasks s ∖ {[index]}) s)))
        as (-> & _ & _ & _ & _ & _ & [->| ->]); done.
    + unfold uploadNextChunks. rewrite decide_False by done. done.
  - unfold pause. by rewrite decide_False.
  - unfold cancel. destruct (hasResumedContinuation s); [done|].
    cbn. split; [done|]. set_solver.
Qed.

(** X4.  From a pause until the next [resume()] no transfer is started:
    along every run without a resume, a paused session never becomes
    uploading and its tasks in flight only go away. *)
Theorem ios_no_dispatch_while_paused (s : UploadSession) steps s' log :
  state s = paused →
  ResumeCalled ∉ steps →
  runSession steps s = (s', log) →
  state s' ≠ uploading ∧ activeTasks s' ⊆ activeTasks s.
Proof.
  intros Hp. assert (Hu : state s ≠ uploading) by (by rewrite Hp).
  clear Hp. revert s s' log Hu.
  induction steps as [|step rest IH]; intros s s' log Hu Hno Hrun.
  - by injection Hrun as <- <-.
  - cbn in Hrun.
    destruct (runSession rest (sessionStep step s)) as [s1 log1] eqn:Hrest.
    injection Hrun as <- <-.
    destruct (step_not_uploading step s Hu) as [Hu' Hsub].
    { intros ->. apply Hno. by left. }
    destruct (IH _ _ _ Hu' ltac:(intros ?; apply Hno; by right) Hrest)
      as [? Hsub']. split; [done|]. set_solver.
Qed.

Lemma ios_no_dispatch_while_paused_witness :
  let s' := (runSession [TaskDone 0 (iosOk "etag-a"); PauseCalled]
               iosPausedSession).1 in
  state s' ≠ uploading ∧ activeTasks s' ⊆ activeTasks iosPausedSession.
Proof.
  cbv zeta.
  apply (ios_no_dispatch_while_paused iosPausedSession
           [TaskDone 0 (iosOk "etag-a"); PauseCalled] _
           (runSession [TaskDone 0 (iosOk "etag-a"); PauseCalled]
              iosPausedSession).2).
  - reflexivity.
  - intros H. apply elem_of_cons in H as [H|H]; [discriminate H|].
    apply elem_of_cons in H as [H|H]; [discriminate H|].
    by apply elem_of_nil in H.
  - by destruct (runSession _ _).
Defined.

Lemma sumOver_app f l1 l2 : sumOver f (l1 ++ l2) = sumOver f l1 + sumOver f l2.
Proof.
  induction l1 as [|k l1 IH]; cbn; [done|]. unfold sumOver in *. cbn. lia.
Qed.

Lemma sumOver_perm f l1 l2 : l1 ≡ₚ l2 → sumOver f l1 = sumOver f l2.
Proof.
  induction 1 as [|k l l' _ IH|k k' l|l l' l'' _ IH1 _ IH2];
    unfold sumOver in *; cbn; lia.
Qed.

Lemma sumOver_nonneg f l : (∀ k, k ∈ l → 0 ≤ f k) → 0 ≤ sumOver f l.
Proof.
  induction l as [|k l IH]; intros Hf; unfold sumOver in *; cbn; [done|].
  assert (0 ≤ f k) by (apply Hf; by left).
  assert (0 ≤ foldr (λ k acc, f k + acc) 0 l)
    by (apply IH; intros; apply Hf; by right).
  lia.
Qed.

Lemma sumOver_sub f l m :
  NoDup l → (∀ k, k ∈ l → k ∈ m) → (∀ k, k ∈ m → 0 ≤ f k) →
  sumOver f l ≤ sumOver f m.
Proof.
  intros Hnd Hsub Hf.
  destruct (submseteq_Permutation l m (NoDup_submseteq _ _ Hnd Hsub))
    as [rest Hperm].
  rewrite (sumOver_perm f _ _ Hperm), sumOver_app.
  assert (0 ≤ sumOver f rest); [|lia].
  apply sumOver_nonneg. intros k Hk. apply Hf. rewrite Hperm.
  apply elem_of_app. by right.
Qed.

Lemma sumOver_plan c total l :
  sumOver (chunkLength c total) l
  = totalSize ((λ index, (chunkOffset c index, chunkLength c total index))
                 <$> l).
Proof.
  induction l as [|k l IH]; [done|].
  unfold sumOver, totalSize in *. cbn. by rewrite IH.
Qed.

Lemma uploadNextChunks_bytes s :
  bytesUploaded (uploadNextChunks s) = bytesUploaded s
  ∧ totalBytes (uploadNextChunks s) = totalBytes s
  ∧ chunkSize (uploadNextChunks s) = chunkSize s.
Proof.
  destruct (uploadNextChunks_shape s) as [->| ->]; [|done].
  by destruct (complete_fields s) as (_ & _ & _ & -> & -> & -> & _).
Qed.

(** Each recorded chunk adds its length to [bytesUploaded]; nothing else
    changes it, nor the total or the chunk size. *)
Lemma step_bytes step s log :
  bytesUploaded s = sumOver (chunkLength (chunkSize s) (totalBytes s)) log.*1 →
  bytesUploaded (sessionStep step s)
  = sumOver (chunkLength (chunkSize s) (totalBytes s))
      (log ++ option_list (recorded step s)).*1
  ∧ totalBytes (sessionStep step s) = totalBytes s
  ∧ chunkSize (sessionStep step s) = chunkSize s.
Proof.
  intros Hb. destruct step as [index outcome| | |];
    [cbn [sessionStep]
    |cbn [sessionStep recorded option_list]; rewrite ?app_nil_r..].
  - destruct (didComplete_shape index outcome s)
      as [[-> ->]|[(_ & -> & [->|(_ & e & ->)])
                  |(_ & _ & etag & -> & [->| ->])]];
      cbn [option_list]; rewrite ?app_nil_r; try done.
    + by destruct (fail_fields e
                     (with_activeTasks (activeTasks s ∖ {[index]}) s))
        as (_ & _ & _ & -> & -> & -> & _).
    + destruct (complete_fields
                  (recordChunk index etag
                     (with_activeTasks (activeTasks s ∖ {[index]}) s)))
        as (_ & _ & _ & -> & -> & -> & _).
      cbn. rewrite fmap_app, sumOver_app, Hb. unfold sumOver. cbn.
      split; [lia|done].
    + destruct (uploadNextChunks_bytes
                  (recordChunk index etag
                     (with_activeTasks (activeTasks s ∖ {[index]}) s)))
        as (-> & -> & ->).
      cbn. rewrite fmap_app, sumOver_app, Hb. unfold sumOver. cbn.
      split; [lia|done].
  - unfold pause. by case_decide.
  - unfold resume. case_decide; [|done].
    by destruct (uploadNextChunks_bytes (with_state uploading false s))
      as (-> & -> & ->).
  - unfold cancel. by destruct (hasResumedContinuation s).
Qed.

Lemma run_bytes steps : ∀ s log0 s' log,
  bytesUploaded s
  = sumOver (chunkLength (chunkSize s) (totalBytes s)) log0.*1 →
  runSession steps s = (s', log) →
  bytesUploaded s'
  = sumOver (chunkLength (chunkSize s) (totalBytes s)) (log0 ++ log).*1
  ∧ totalBytes s' = totalBytes s ∧ chunkSize s' = chunkSize s.
Proof.
  induction steps as [|step rest IH]; intros s log0 s' log Hb Hrun.
  - injection Hrun as <- <-. by rewrite app_nil_r.
  - cbn in Hrun.
    destruct (runSession rest (sessionStep step s)) as [s1 log1] eqn:Hrest.
    injection Hrun as <- <-.
    destruct (step_bytes step s log0 Hb) as (Hb1 & Ht & Hc).
    rewrite <- Ht, <- Hc in Hb1.
    destruct (IH _ _ _ _ Hb1 Hrest) as (Hb2 & -> & ->).
    rewrite Ht, Hc in Hb2. by rewrite app_assoc.
Qed.

Lemma init_bytes env uploadId filePath uploadUrls maxParallel session :
  init env uploadId filePath uploadUrls maxParallel = inr session →
  bytesUploaded session = 0.
Proof.
  unfold init. repeat case_match; try done. by intros [= <-].
Qed.

(** The chunk size of an accepted file below 2^53 bytes with at most
    5 MiB + 1 URLs: at least 5 MiB, and such that the chunks cover the file
    and the last one starts inside it. *)
Lemma init_plan env uploadId filePath uploadUrls maxParallel session :
  init env uploadId filePath uploadUrls maxParallel = inr session →
  uploadUrls ≠ [] →
  Z.of_nat (List.length uploadUrls) ≤ 5 * 1024 * 1024 + 1 →
  0 ≤ totalBytes session < 2 ^ 53 →
  minimumChunkSize ≤ chunkSize session
  ∧ totalBytes session ≤ Z.of_nat (List.length uploadUrls) * chunkSize session
  ∧ (Z.of_nat (List.length uploadUrls) - 1) * chunkSize session
    ≤ totalBytes session.
Proof.
  intros Hinit Hne Hmany Hsize.
  destruct (init_accepted _ _ _ _ _ _ Hinit)
    as (_ & _ & _ & Hchunk & Hguard & _).
  assert (Hn : (1 ≤ List.length uploadUrls)%nat)
    by (destruct uploadUrls; [done|cbn; lia]).
  split_and!.
  - by eapply chunkSizeFor_ge.
  - eapply chunkSizeFor_covers; [| | |exact Hchunk]; [done|done|lia].
  - by eapply last_chunk_starts_inside.
Qed.

(** X5.  For an accepted, non-empty file below 2^53 bytes and at most
    5 MiB + 1 URLs: along every run of the started session [bytesUploaded]
    is the sum of the lengths of the chunks recorded so far, stays between
    0 and [totalBytes], and equals [totalBytes] once the upload has
    completed successfully. *)
Theorem ios_bytes_uploaded_accounts_for_chunks env uploadId filePath
    uploadUrls maxParallel session steps s log :
  init env uploadId filePath uploadUrls maxParallel = inr session →
  uploadUrls ≠ [] →
  Z.of_nat (List.length uploadUrls) ≤ 5 * 1024 * 1024 + 1 →
  0 < totalBytes session →
  totalBytes session < 2 ^ 53 →
  runSession steps (start session) = (s, log) →
  totalBytes s = totalBytes session
  ∧ bytesUploaded s
    = sumOver (chunkLength (chunkSize session) (totalBytes session)) log.*1
  ∧ 0 ≤ bytesUploaded s ≤ totalBytes s
  ∧ (∀ result, resumedWith s = Some (inr result) →
       res_success result = true → bytesUploaded s = totalBytes s).
Proof.
  intros Hinit Hne Hmany Hpos Hsmall Hrun.
  destruct (init_accepted _ _ _ _ _ _ Hinit)
    as (_ & Hurls & _ & Hchunk & Hguard & _).
  destruct (init_plan _ _ _ _ _ _ Hinit Hne Hmany ltac:(lia))
    as (Hc & Hcov & Hlast).
  set (n := List.length uploadUrls) in *.
  assert (Hn : (1 ≤ n)%nat) by (destruct uploadUrls; [done|cbn; lia]).
  set (c := chunkSize session) in *. set (total := totalBytes session) in *.
  assert (Hmin : 0 < minimumChunkSize) by done.
  assert (Hall : sumOver (chunkLength c total) (seq 0 n) = total).
  { rewrite sumOver_plan.
    pose proof (tiles_from c total 0 n) as Ht. cbn in Ht.
    specialize (Ht ltac:(lia) Hlast Hcov Hn).
    apply tiles_totalSize in Ht. lia. }
  assert (Hnonneg : ∀ k, k ∈ seq 0 n → 0 ≤ chunkLength c total k).
  { intros k Hk%elem_of_seq. unfold chunkLength, chunkOffset.
    assert (Z.of_nat k * c ≤ (Z.of_nat n - 1) * c)
      by (apply Z.mul_le_mono_nonneg_r; lia).
    lia. }
  assert (Hstart : bytesUploaded (start session)
                   = sumOver (chunkLength (chunkSize (start session))
                                (totalBytes (start session))) ([] : list (nat * string)).*1).
  { unfold start.
    destruct (uploadNextChunks_bytes (with_state uploading (isPaused session)
                                        session)) as (-> & _ & _).
    cbn. apply (init_bytes _ _ _ _ _ _ Hinit). }
  destruct (run_bytes _ _ _ _ _ Hstart Hrun) as (Hb & Ht & _).
  assert (Hfields : totalBytes (start session) = total
                    ∧ chunkSize (start session) = c).
  { unfold start.
    by destruct (uploadNextChunks_bytes (with_state uploading (isPaused session)
                                           session)) as (_ & -> & ->). }
  destruct Hfields as [Ht0 Hc0]. rewrite Ht0, Hc0 in Hb. rewrite Ht0 in Ht.
  rewrite app_nil_l in Hb.
  pose proof (inv_run steps _ [] _ _ (inv_start _ _ _ _ _ _ Hinit) Hrun)
    as Hinv. cbn in Hinv.
  assert (Hurls' : IOS.uploadUrls s = uploadUrls).
  { rewrite (runSession_urls _ _ _ _ Hrun). unfold start.
    by rewrite uploadNextChunks_urls. }
  split; [done|]. split; [done|]. split.
  - rewrite Hb, Ht. split.
    + apply sumOver_nonneg. intros k Hk. apply Hnonneg, elem_of_seq.
      apply (inv_completed _ _ Hinv), (inv_range _ _ Hinv) in Hk.
      rewrite Hurls' in Hk. fold n in Hk. lia.
    + apply Z.le_trans with (sumOver (chunkLength c total) (seq 0 n));
        [|by rewrite Hall].
      apply sumOver_sub; [apply (inv_nodup _ _ Hinv)| |done].
      intros k Hk. apply elem_of_seq.
      apply (inv_completed _ _ Hinv), (inv_range _ _ Hinv) in Hk.
      rewrite Hurls' in Hk. fold n in Hk. lia.
  - intros result Hres Hok.
    destruct (ios_etags_by_chunk _ _ _ _ _ _ _ _ _ _ Hinit Hrun Hres Hok)
      as (_ & Hperm & _).
    rewrite Hb, Ht, (sumOver_perm _ _ _ Hperm). done.
Qed.

Lemma ios_bytes_uploaded_accounts_for_chunks_witness :
  bytesUploaded outOfOrderRun.1 = 11 * MiB.
Proof.
  destruct (ios_bytes_uploaded_accounts_for_chunks (iosFiles (11 * MiB))
              "upload-1" "/video.mp4" threeUrls 2 iosSession outOfOrderSteps
              outOfOrderRun.1 outOfOrderRun.2 eq_refl)
    as (Ht & _ & _ & Hdone).
  - done.
  - cbn. lia.
  - done.
  - done.
  - vm_compute. reflexivity.
  - rewrite (Hdone _ eq_refl eq_refl). reflexivity.
Defined.

End IOSSessionRuns.

(** ** The Android part table and its parts *)

Section AndroidParts.

Import Android.

(** Without overflow the offsets of the part table are the rounded-down
    proportional boundaries. *)
Lemma partInfo_exact fileSize (count index : nat) url :
  0 < fileSize → (index < count)%nat →
  fileSize * Z.of_nat count < 2 ^ 63 →
  partNumber (partInfo fileSize count index url) = (index + 1)%nat
  ∧ Android.url (partInfo fileSize count index url) = url
  ∧ offset (partInfo fileSize count index url)
    = fileSize * Z.of_nat index / Z.of_nat count
  ∧ size (partInfo fileSize count index url)
    = fileSize * Z.of_nat (S index) / Z.of_nat count
      - fileSize * Z.of_nat index / Z.of_nat count.
Proof.
  intros Hpos Hlt Hfit. unfold partInfo. cbn.
  assert (Hi : 0 ≤ fileSize * Z.of_nat index
               ≤ fileSize * Z.of_nat (S index)) by nia.
  assert (Hc : fileSize * Z.of_nat (S index) ≤ fileSize * Z.of_nat count)
    by nia.
  assert (Hexp : 0 < 2 ^ 63) by done.
  assert (Hhi : fileSize * Z.of_nat (S index) / Z.of_nat count ≤ fileSize).
  { apply Z.div_le_upper_bound; nia. }
  assert (Hlo : 0 ≤ fileSize * Z.of_nat index / Z.of_nat count).
  { apply Z.div_pos; nia. }
  assert (Hmono : fileSize * Z.of_nat index / Z.of_nat count
                  ≤ fileSize * Z.of_nat (S index) / Z.of_nat count).
  { apply Z.div_le_mono; nia. }
  rewrite (wrap64_id (fileSize * Z.of_nat index)) by lia.
  rewrite Z.quot_div_nonneg by lia.
  split; [done|]. split; [done|]. split; [done|].
  case_decide as Hlast.
  - assert (Hsmall : fileSize < 2 ^ 63) by nia.
    replace (S index) with count by lia.
    rewrite Z.div_mul by lia. rewrite wrap64_id; [done|]. lia.
  - replace (Z.of_nat index + 1) with (Z.of_nat (S index)) by lia.
    rewrite (wrap64_id (fileSize * Z.of_nat (S index))) by lia.
    rewrite Z.quot_div_nonneg by lia.
    rewrite wrap64_id; [done|]. lia.
Qed.

(** Consecutive proportional boundaries are a quotient apart, or a
    quotient and one. *)
Lemma boundaries_even (total count index : Z) :
  0 ≤ total → 0 < count → 0 ≤ index →
  total / count
  ≤ total * (index + 1) / count - total * index / count
  ≤ total / count + 1.
Proof.
  intros Ht Hc Hi.
  pose proof (Z.mul_div_le total count Hc).
  pose proof (Z.mul_succ_div_gt total count Hc).
  pose proof (Z.mul_div_le (total * index) count Hc).
  pose proof (Z.mul_succ_div_gt (total * index) count Hc).
  pose proof (Z.mul_div_le (total * (index + 1)) count Hc).
  pose proof (Z.mul_succ_div_gt (total * (index + 1)) count Hc).
  nia.
Qed.

(** X8.  On Android, for a non-empty file whose size times the number of
    URLs fits a [Long], the part table of [performUpload] cuts the file
    into consecutive ranges that cover it exactly; part [i + 1] goes to the
    URL at position [i]; and the parts are even: each has the size
    [fileSize / count] rounded down, or one byte more. *)
Theorem android_parts_split_evenly (fileSize : Z) (uploadUrls : list string) :
  0 < fileSize →
  uploadUrls ≠ [] →
  fileSize * Z.of_nat (List.length uploadUrls) < 2 ^ 63 →
  tiles 0 (ranges (planParts fileSize uploadUrls)) fileSize
  ∧ ∀ index part,
      planParts fileSize uploadUrls !! index = Some part →
      partNumber part = (index + 1)%nat
      ∧ uploadUrls !! index = Some (url part)
      ∧ fileSize / Z.of_nat (List.length uploadUrls) ≤ size part
        ≤ fileSize / Z.of_nat (List.length uploadUrls) + 1.
Proof.
  intros Hpos Hne Hfit. split.
  { by apply android_plan_partitions. }
  intros index part. unfold planParts. rewrite list_lookup_imap.
  destruct (uploadUrls !! index) as [u|] eqn:Hu; [|done].
  intros [= <-]. apply lookup_lt_Some in Hu as Hlt.
  destruct (partInfo_exact fileSize (List.length uploadUrls) index u
              Hpos Hlt Hfit) as (-> & -> & _ & ->).
  split; [done|]. split; [done|].
  replace (Z.of_nat (S index)) with (Z.of_nat index + 1) by lia.
  apply boundaries_even; lia.
Qed.

Lemma android_parts_split_evenly_witness :
  tiles 0 (ranges (planParts (11 * MiB) threeUrls)) (11 * MiB)
  ∧ ∀ index part,
      planParts (11 * MiB) threeUrls !! index = Some part →
      partNumber part = (index + 1)%nat
      ∧ threeUrls !! index = Some (url part)
      ∧ 11 * MiB / 3 ≤ size part ≤ 11 * MiB / 3 + 1.
Proof.
  apply (android_parts_split_evenly (11 * MiB) threeUrls);
    [reflexivity|discriminate|reflexivity].
Defined.

(** The sleeps of the retry loop after a failed attempt: one second after
    the first, two after the second. *)
Lemma retryLoop_delays uploadId part ticks : ∀ retries run run',
  retryLoop uploadId part ticks retries run = Some run' →
  (∀ d, d ∈ delays run → d = 1000 ∨ d = 2000) →
  ∀ d, d ∈ delays run' → d = 1000 ∨ d = 2000.
Proof.
  induction ticks as [|tick rest IH]; intros retries run run';
    cbn [retryLoop]; destruct (Nat.leb_spec MAX_RETRIES retries) as [Hle|Hlt];
    try (by intros [= <-]); try done.
  destruct tick as [| |attempt].
  - intros Hrun Hd. apply (IH _ _ _ Hrun). cbn. intros d.
    rewrite elem_of_app, list_elem_of_singleton. intros [?| ->]; auto.
  - by intros [= <-].
  - destruct (attemptError attempt).
    + destruct (Nat.ltb_spec (S retries) MAX_RETRIES) as [Hmore|Hlast];
        intros Hrun Hd; apply (IH _ _ _ Hrun); cbn; [|done].
      intros d. rewrite elem_of_app, list_elem_of_singleton.
      intros [?| ->]; [auto|]. unfold MAX_RETRIES in *.
      destruct retries as [|[|?]]; [by left|by right|lia].
    + by intros [= <-].
Qed.

(** X9.  On Android [uploadPart] ends on any schedule in which the job is
    found not paused at least three times, after at most three attempts and
    with sleeps of one or two seconds only.  It returns true exactly when
    the part has an ETag stored afterwards; when it returns false the
    stored ETags and the count of completed parts are as before. *)
Theorem android_part_settles_within_budget uploadId part ticks state :
  (3 ≤ List.length (filter (λ tick, notPaused tick = true) ticks))%nat →
  ∃ run,
    uploadPart uploadId part ticks state = Some run
    ∧ (attempts run ≤ 3)%nat
    ∧ (∀ d, d ∈ delays run → d = 1000 ∨ d = 2000)
    ∧ (ok run = true ↔ is_Some (partETags (stateAfter run) !! partNumber part))
    ∧ (ok run = false →
       partETags (stateAfter run) = partETags state
       ∧ completedChunks (stateAfter run) = completedChunks state).
Proof.
  intros Hticks.
  destruct (uploadPart uploadId part ticks state) as [run|] eqn:Hrun.
  2: { exfalso. revert Hrun. unfold uploadPart. case_decide; [done|].
       intros Hnone.
       destruct (retryLoop_returns uploadId part ticks 0
                   {| ok := false; stateAfter := state; emitted := [];
                      delays := []; attempts := 0;
            cancelled := false |}) as [? Hsome];
         [unfold MAX_RETRIES; lia|congruence]. }
  exists run. split; [done|]. split; [by eapply android_attempt_budget|].
  revert Hrun. unfold uploadPart. case_decide as Hkey.
  { intros [= <-]. cbn. split; [by intros d Hd%elem_of_nil|]. done. }
  intros Hrun. split.
  { apply (retryLoop_delays _ _ _ _ _ _ Hrun). by intros d Hd%elem_of_nil. }
  apply retryLoop_etags in Hrun as [(He & Hc & Hk)|Hdone]; cbn in *.
  - rewrite (Hk eq_refl), He. split; [|done]. split; [done|].
    intros Hsome. by destruct Hkey.
  - destruct Hdone as (code & headers & body & _ & _ & He & _ & ->).
    split; [|done]. split; [|done]. intros _. rewrite He, lookup_insert_eq.
    by eexists.
Qed.

Lemma android_part_settles_within_budget_witness :
  ∃ run,
    uploadPart "upload-1" (partInfo (11 * MiB) 3 1 "https://bucket/part2")
      (failingTicks 2) (freshState (11 * MiB) 3) = Some run
    ∧ (attempts run ≤ 3)%nat
    ∧ (∀ d, d ∈ delays run → d = 1000 ∨ d = 2000)
    ∧ (ok run = true
       ↔ is_Some (partETags (stateAfter run) !! 2%nat))
    ∧ (ok run = false →
       partETags (stateAfter run) = ∅ ∧ completedChunks (stateAfter run) = 0%nat).
Proof.
  apply (android_part_settles_within_budget "upload-1"
           (partInfo (11 * MiB) 3 1 "https://bucket/part2") (failingTicks 2)
           (freshState (11 * MiB) 3)).
  vm_compute. lia.
Defined.





End AndroidParts.

(** ** The byte count of an Android upload *)

Section AndroidBytes.

Import Android.






Section Planned.

Variables (fileSize : Z) (uploadUrls : list string).

Hypothesis positive : 0 < fileSize.
Hypothesis fits : fileSize * Z.of_nat (List.length uploadUrls) < 2 ^ 63.







End Planned.



End AndroidBytes.

(** ** The Android registries *)

Section AndroidRegistry.

Import Android.




(** X13.  On Android every rejection of [startUpload] runs [cleanup] for
    the id it was called with: both registry entries of that id are gone
    afterwards and those of other ids stay.  So a second [startUpload]
    under the id of a running upload, besides being rejected, unregisters
    that upload: pause, resume and state queries no longer find it, and a
    third start under the id is not refused as a duplicate. *)
Theorem android_rejected_start_unregisters env uploadId filePath uploadUrls
    maxParallel u error :
  let rejected := startUpload env uploadId filePath uploadUrls maxParallel u in
  value rejected = inl error →
  next rejected = cleanup uploadId u
  ∧ events rejected = []
  ∧ activeUploads (next rejected) !! uploadId = None
  ∧ uploadStates (next rejected) !! uploadId = None
  ∧ (∀ other, other ≠ uploadId →
       activeUploads (next rejected) !! other = activeUploads u !! other
       ∧ uploadStates (next rejected) !! other = uploadStates u !! other)
  ∧ value (pauseUpload uploadId (next rejected))
    = inl (UploadNotFound uploadId)
  ∧ value (resumeUpload uploadId (next rejected))
    = inl (UploadNotFound uploadId)
  ∧ getUploadState uploadId (next rejected) = inl (NoUploadFound uploadId)
  ∧ value (startUpload env uploadId filePath uploadUrls maxParallel
             (next rejected))
    ≠ inl (AlreadyInProgress uploadId).
Proof.
  intros rejected Hrej.
  assert (Hnext : next rejected = cleanup uploadId u
                  ∧ events rejected = []).
  { revert Hrej. unfold rejected, startUpload. case_decide; [done|].
    destruct (decodePath env filePath) as [decodedPath|]; [|done].
    destruct (fileAt env decodedPath) as [file|]; [|done].
    destruct (canRead file); [|done]. cbn [negb].
    by destruct (length file =? 0). }
  destruct Hnext as [Hnext Hevents]. rewrite Hnext.
  split; [done|]. split; [done|].
  unfold pauseUpload, resumeUpload, getUploadState, cleanup. cbn.
  rewrite !lookup_delete_eq. split_and!; try done.
  - intros other Hother. by rewrite !lookup_delete_ne.
  - unfold startUpload. cbn. rewrite lookup_delete_eq.
    rewrite decide_False by (by intros [? ?]).
    destruct (decodePath env filePath) as [decodedPath|]; [|done].
    destruct (fileAt env decodedPath) as [file|]; [|done].
    destruct (canRead file); [|done]. cbn [negb].
    by destruct (length file =? 0).
Qed.

Lemma android_rejected_start_unregisters_witness :
  let rejected :=
    startUpload (androidFiles (11 * MiB)) "upload-1" "/video.mp4" threeUrls
      None androidUploading in
  value rejected = inl (AlreadyInProgress "upload-1")
  ∧ next rejected = androidFresh
  ∧ getUploadState "upload-1" (next rejected)
    = inl (NoUploadFound "upload-1").
Proof.
  cbv zeta.
  destruct (android_rejected_start_unregisters (androidFiles (11 * MiB))
              "upload-1" "/video.mp4" threeUrls None androidUploading
              (AlreadyInProgress "upload-1") eq_refl)
    as (Hnext & _ & _ & _ & _ & _ & _ & Hstate & _).
  split; [reflexivity|]. split; [|exact Hstate].
  rewrite Hnext. vm_compute. reflexivity.
Defined.

(** X14.  On Android [pauseUpload] and [resumeUpload] only flip the pause
    flag of a registered job: pausing and then resuming a job that was not
    paused gives the uploader back as it was; in between [getUploadState]
    reports "paused" whatever the progress, and afterwards it never does;
    the upload states are untouched.  For an id that is not registered
    both reject with the not-found error and change nothing. *)
Theorem android_pause_resume_round_trip uploadId u :
  let paused := pauseUpload uploadId u in
  let resumed := resumeUpload uploadId (next paused) in
  (∀ job, activeUploads u !! uploadId = Some job →
     value paused = inr () ∧ value resumed = inr ()
     ∧ events paused = [plainEvent "upload-paused" uploadId]
     ∧ events resumed = [plainEvent "upload-resumed" uploadId]
     ∧ uploadStates (next paused) = uploadStates u
     ∧ (isPaused job = false → next resumed = u)
     ∧ (∀ st, getUploadState uploadId (next paused) = inr st →
          us_state st = "paused"%string ∧ us_isPaused st = true)
     ∧ (∀ st, getUploadState uploadId (next resumed) = inr st →
          us_state st ≠ "paused"%string ∧ us_isPaused st = false))
  ∧ (activeUploads u !! uploadId = None →
     paused = {| next := u; events := [];
                 value := inl (UploadNotFound uploadId) |}
     ∧ resumeUpload uploadId u
       = {| next := u; events := [];
            value := inl (UploadNotFound uploadId) |}).
Proof.
  cbv zeta. split.
  - intros job Hjob. unfold pauseUpload. rewrite Hjob. cbn.
    unfold resumeUpload. cbn. rewrite lookup_insert_eq. cbn.
    split_and!; try done.
    + intros Hflag. rewrite insert_insert_eq.
      destruct u as [jobs states listeners net], job as [id flag].
      cbn in *. subst flag. by rewrite insert_id.
    + unfold getUploadState. cbn. rewrite lookup_insert_eq. cbn.
      destruct (uploadStates u !! uploadId); [|done]. by intros st [= <-].
    + unfold getUploadState. cbn. rewrite lookup_insert_eq. cbn.
      destruct (uploadStates u !! uploadId); [|done]. intros st [= <-]. cbn.
      split; [|done]. by repeat case_decide.
  - intros Hnone. unfold pauseUpload, resumeUpload. by rewrite Hnone.
Qed.

Lemma android_pause_resume_round_trip_witness :
  next (resumeUpload "upload-1" (next (pauseUpload "upload-1" androidUploading)))
  = androidUploading.
Proof.
  destruct (android_pause_resume_round_trip "upload-1" androidUploading)
    as [Hreg _].
  destruct (Hreg {| job_uploadId := "upload-1"; isPaused := false |})
    as (_ & _ & _ & _ & _ & Hback & _).
  - vm_compute. reflexivity.
  - by apply Hback.
Defined.

End AndroidRegistry.

(** ** Reading the chunks *)

Section Chunks.

Lemma tiles_le parts : ∀ start stop, tiles start parts stop → start ≤ stop.
Proof.
  induction parts as [|[o s] rest IH]; intros start stop; cbn; [lia|].
  intros (_ & Hs & Ht). apply IH in Ht. lia.
Qed.

(** The slices of a tiling, in order, make up what the tiling spans. *)
Lemma tiles_concat (content : list Byte.byte) parts : ∀ start stop,
  0 ≤ start → tiles start parts stop →
  concat (slice content <$> parts) = slice content (start, stop - start).
Proof.
  induction parts as [|[o s] rest IH]; intros start stop Hstart; cbn.
  - intros <-. unfold slice. cbn. by rewrite Z.sub_diag.
  - intros (-> & Hs & Ht). pose proof (tiles_le _ _ _ Ht) as Hle.
    rewrite (IH (start + s) stop) by (done || lia).
    unfold slice. cbn [fst snd].
    replace (Z.to_nat (stop - start))
      with (Z.to_nat s + Z.to_nat (stop - (start + s)))%nat by lia.
    rewrite <- take_take_drop, drop_drop.
    by replace (Z.to_nat (start + s)) with (Z.to_nat start + Z.to_nat s)%nat
      by lia.
Qed.

Lemma tiles_whole (content : list Byte.byte) parts :
  tiles 0 parts (Z.of_nat (List.length content)) →
  concat (slice content <$> parts) = content.
Proof.
  intros Ht. rewrite (tiles_concat content parts 0 _ ltac:(done) Ht).
  unfold slice. cbn. rewrite Z.sub_0_r, Nat2Z.id. apply firstn_all.
Qed.

Lemma longToInt_id z : - 2 ^ 31 ≤ z < 2 ^ 31 → Android.longToInt z = z.
Proof. intros Hz. unfold Android.longToInt. rewrite Z.mod_small; lia. Qed.

(** A range within the file is read as it is. *)
Lemma readChunk_within (content : list Byte.byte) (offset size : Z) :
  Z.of_nat (List.length content) < 2 ^ 63 →
  0 ≤ size < 2 ^ 31 →
  0 ≤ offset →
  offset + size ≤ Z.of_nat (List.length content) →
  Android.readChunk content offset size = inr (slice content (offset, size)).
Proof.
  intros Hlen Hsize Hnn Hin. unfold Android.readChunk.
  rewrite longToInt_id by lia.
  unfold Android.bytesReadInto, slice. cbn [fst snd].
  assert (Hint : 2 ^ 31 < 2 ^ 63) by done.
  rewrite wrap64_id by lia.
  destruct (Z.ltb_spec (Z.of_nat (List.length content)) (offset + size));
    [lia|].
  destruct (Z.ltb_spec offset 0); [lia|].
  destruct (Z.ltb_spec size 0); [lia|].
  destruct (Z.eqb_spec size 0) as [->|Hnz]; [done|].
  destruct (Z.leb_spec (Z.of_nat (List.length content) - offset) 0); [lia|].
  rewrite Z.min_l by lia. by rewrite Z.eqb_refl.
Qed.

(** X15.  On Android [readChunk], asked for a size that fits an [Int] on a
    file whose length fits a [Long], returns a buffer exactly when the
    range lies within the file, and the buffer then holds the [size] bytes
    of the file from [offset] on; in every other case it throws. *)
Theorem android_read_chunk_exact (content : list Byte.byte) (offset size : Z)
    (buffer : list Byte.byte) :
  Z.of_nat (List.length content) < 2 ^ 63 →
  - 2 ^ 63 ≤ offset < 2 ^ 63 →
  0 ≤ size < 2 ^ 31 →
  Android.readChunk content offset size = inr buffer
  ↔ 0 ≤ offset
    ∧ offset + size ≤ Z.of_nat (List.length content)
    ∧ buffer = slice content (offset, size)
    ∧ Z.of_nat (List.length buffer) = size.
Proof.
  intros Hlen Hoff Hsize. split.
  2: { intros (Hnn & Hin & -> & _). by apply readChunk_within. }
  unfold Android.readChunk.
  rewrite longToInt_id by lia.
  unfold Android.bytesReadInto, slice. cbn [fst snd].
  assert (Hexp : 2 ^ 63 + 2 ^ 63 = 2 ^ 64) by done.
  assert (Hint : 2 ^ 31 < 2 ^ 63) by done.
  destruct (Z.ltb_spec (Z.of_nat (List.length content))
              (Android.wrap64 (offset + size))) as [Hbad|Hin]; [done|].
  destruct (Z.ltb_spec offset 0) as [Hneg|Hnn]; [done|].
  destruct (Z.ltb_spec size 0) as [?|_]; [lia|].
  destruct (Z.eqb_spec size 0) as [Hz|Hnz].
  - subst size. cbn. intros [= <-].
    rewrite Z.add_0_r, wrap64_id in Hin by lia.
    split; [done|]. split; [lia|]. split; [done|].
    by rewrite length_take, length_drop.
  - destruct (Z.leb_spec (Z.of_nat (List.length content) - offset) 0)
      as [Hend|Hmore].
    { destruct (Z.eqb_spec (-1) size); [lia|done]. }
    destruct (Z.eqb_spec (Z.min size (Z.of_nat (List.length content) - offset))
                size) as [Hfull|?]; [|done].
    rewrite Hfull. intros [= <-]. split; [done|]. split; [lia|].
    split; [done|]. rewrite length_take, length_drop. lia.
Qed.

Lemma android_read_chunk_exact_witness :
  Android.readChunk elevenBytes 3 4
  = inr [Byte.x03; Byte.x04; Byte.x05; Byte.x06].
Proof.
  apply (android_read_chunk_exact elevenBytes 3 4); [done|done|done|].
  by repeat split.
Defined.

(** X16.  On Android the parts that are uploaded make up the file: for a
    non-empty file whose size times the number of URLs fits a [Long] and
    whose parts fit an [Int], [readChunk] succeeds on every part of the
    table of [performUpload], and the chunks read, put together in part
    order, are the bytes of the file. *)
Theorem android_chunks_make_up_file (content : list Byte.byte)
    (uploadUrls : list string) :
  let fileSize := Z.of_nat (List.length content) in
  0 < fileSize →
  uploadUrls ≠ [] →
  fileSize * Z.of_nat (List.length uploadUrls) < 2 ^ 63 →
  fileSize / Z.of_nat (List.length uploadUrls) + 1 < 2 ^ 31 →
  ∃ chunks,
    Forall2 (λ part chunk,
               Android.readChunk content (Android.offset part)
                 (Android.size part) = inr chunk)
      (Android.planParts fileSize uploadUrls) chunks
    ∧ concat chunks = content.
Proof.
  intros fileSize Hpos Hne Hfit Hint.
  destruct (android_plan_partitions fileSize uploadUrls Hpos Hne Hfit)
    as (_ & Ht & _).
  exists (slice content <$> ranges (Android.planParts fileSize uploadUrls)).
  split; [|by apply tiles_whole].
  unfold ranges. rewrite <- list_fmap_compose.
  apply Forall2_fmap_r, Forall_Forall2_diag, Forall_lookup.
  intros index part Hpart. cbn.
  assert (Hn : 0 < Z.of_nat (List.length uploadUrls))
    by (destruct uploadUrls; [done|cbn; lia]).
  revert Hpart. unfold Android.planParts. rewrite list_lookup_imap.
  destruct (uploadUrls !! index) as [u|] eqn:Hu; [|done].
  intros [= <-]. apply lookup_lt_Some in Hu.
  destruct (partInfo_exact fileSize (List.length uploadUrls) index u
              Hpos Hu Hfit) as (_ & _ & Hoff & Hsz).
  pose proof (boundaries_even fileSize (Z.of_nat (List.length uploadUrls))
                (Z.of_nat index) ltac:(lia) Hn ltac:(lia)) as Heven.
  replace (Z.of_nat index + 1) with (Z.of_nat (S index)) in Heven by lia.
  assert (Hlo : 0 ≤ fileSize * Z.of_nat index
                    / Z.of_nat (List.length uploadUrls))
    by (apply Z.div_pos; nia).
  assert (Hhi : fileSize * Z.of_nat (S index)
                / Z.of_nat (List.length uploadUrls) ≤ fileSize)
    by (apply Z.div_le_upper_bound; nia).
  assert (Hpow : 2 ^ 31 < 2 ^ 63) by done.
  assert (Hdiv : 0 ≤ fileSize / Z.of_nat (List.length uploadUrls))
    by (apply Z.div_pos; lia).
  apply readChunk_within.
  - fold fileSize. nia.
  - rewrite Hsz. lia.
  - by rewrite Hoff.
  - rewrite Hoff, Hsz. fold fileSize. lia.
Qed.

Lemma android_chunks_make_up_file_witness :
  ∃ chunks,
    Forall2 (λ part chunk,
               Android.readChunk elevenBytes (Android.offset part)
                 (Android.size part) = inr chunk)
      (Android.planParts 11 threeUrls) chunks
    ∧ concat chunks = elevenBytes.
Proof.
  apply (android_chunks_make_up_file elevenBytes threeUrls); done.
Defined.

(** X17.  On iOS the chunks that are uploaded make up the file: for an
    accepted non-empty file below 2^53 bytes and at most 5 MiB + 1 URLs,
    [readChunkData] returns data for every chunk index, with the offset and
    size [uploadChunk] computes, and the chunks, put together in index
    order, are the bytes of the file. *)
Theorem ios_chunks_make_up_file env uploadId filePath uploadUrls maxParallel
    session (content : list Byte.byte) :
  IOS.init env uploadId filePath uploadUrls maxParallel = inr session →
  IOS.totalBytes session = Z.of_nat (List.length content) →
  0 < IOS.totalBytes session →
  IOS.totalBytes session < 2 ^ 53 →
  uploadUrls ≠ [] →
  Z.of_nat (List.length uploadUrls) ≤ 5 * 1024 * 1024 + 1 →
  ∃ chunks,
    Forall2 (λ index chunk, IOS.chunkData content session index = Some chunk)
      (seq 0 (List.length uploadUrls)) chunks
    ∧ concat chunks = content.
Proof.
  intros Hinit Hsize Hpos Hsmall Hne Hmany.
  destruct (init_plan _ _ _ _ _ _ Hinit Hne Hmany ltac:(lia))
    as (Hc & Hcov & Hlast).
  set (n := List.length uploadUrls) in *.
  assert (Hn : (1 ≤ n)%nat) by (destruct uploadUrls; [done|cbn; lia]).
  set (c := IOS.chunkSize session) in *.
  set (total := IOS.totalBytes session) in *.
  assert (Hmin : 0 < IOS.minimumChunkSize) by done.
  pose proof (tiles_from c total 0 n) as Ht. cbn in Ht.
  specialize (Ht ltac:(lia) Hlast Hcov Hn).
  exists (slice content
            <$> ((λ index, (IOS.chunkOffset c index,
                            IOS.chunkLength c total index)) <$> seq 0 n)).
  split; [|apply tiles_whole; by rewrite <- Hsize].
  rewrite <- list_fmap_compose.
  apply Forall2_fmap_r, Forall_Forall2_diag, Forall_forall.
  intros index Hindex%elem_of_seq. cbn.
  unfold IOS.chunkData, IOS.readChunkData. fold c total.
  assert (Hk : Z.of_nat index * c ≤ (Z.of_nat n - 1) * c)
    by (apply Z.mul_le_mono_nonneg_r; lia).
  destruct (Z.ltb_spec (IOS.chunkOffset c index) 0) as [Hneg|_].
  { unfold IOS.chunkOffset in Hneg. nia. }
  destruct (Z.ltb_spec (IOS.chunkLength c total index) 0) as [Hneg|_]; [|done].
  unfold IOS.chunkLength, IOS.chunkOffset in Hneg. lia.
Qed.

Lemma ios_chunks_make_up_file_witness :
  ∃ chunks,
    Forall2 (λ index chunk,
               IOS.chunkData elevenBytes
                 {| IOS.uploadId := "upload-1";
                    IOS.uploadUrls := ["https://bucket/part1"%string];
                    IOS.totalBytes := 11; IOS.maxParallel := 3;
                    IOS.chunkSize := 5 * MiB; IOS.activeTasks := ∅;
                    IOS.completedChunks := ∅; IOS.etags := [""%string];
                    IOS.state := IOS.idle; IOS.bytesUploaded := 0;
                    IOS.isPaused := false;
                    IOS.hasResumedContinuation := false;
                    IOS.resumedWith := None |} index = Some chunk)
      (seq 0 1) chunks
    ∧ concat chunks = elevenBytes.
Proof.
  apply (ios_chunks_make_up_file (iosFiles 11) "upload-1" "/clip.mp4"
           ["https://bucket/part1"%string] 3); done.
Defined.

End Chunks.

(** ** The iOS dispatch loop *)

Section IOSDispatch.

Import IOS.

Lemma find_seq_first (f : nat → bool) len : ∀ start i,
  List.find f (seq start len) = Some i →
  ∀ j, (start ≤ j < i)%nat → f j = false.
Proof.
  induction len as [|len IH]; intros start i; cbn; [done|].
  destruct (f start) eqn:Hf.
  - intros [= <-] j Hj. lia.
  - intros Hfind j Hj. destruct (decide (j = start)) as [->|Hne]; [done|].
    apply (IH _ _ Hfind). lia.
Qed.

(** [getNextChunkIndex] returns the lowest index that is neither completed
    nor in flight. *)
Lemma getNextChunkIndex_first s i :
  getNextChunkIndex s = Some i →
  ∀ j, (j < i)%nat → j ∈ completedChunks s ∨ j ∈ activeTasks s.
Proof.
  intros Hnext j Hj. unfold getNextChunkIndex in Hnext.
  pose proof (find_seq_first _ _ _ _ Hnext j ltac:(lia)) as H. cbn in H.
  apply andb_false_iff in H as [H|H]; apply bool_decide_eq_false in H.
  - left. by apply dec_stable.
  - right. by apply dec_stable.
Qed.

Lemma getNextChunkIndex_None_pending s :
  getNextChunkIndex s = None → pendingChunks s = [].
Proof.
  intros Hnone. apply elem_of_nil_inv. intros i.
  unfold pendingChunks. rewrite list_elem_of_filter, elem_of_seq.
  intros [[Hdone Hact] Hi].
  destruct (getNextChunkIndex_None s i Hnone ltac:(lia)); done.
Qed.

Lemma pendingChunks_complete s : pendingChunks (complete s) = pendingChunks s.
Proof. unfold complete. by destruct (hasResumedContinuation s). Qed.

Lemma dispatchLoop_fills fuel : ∀ s,
  (List.length (pendingChunks s) < fuel)%nat →
  (pendingChunks (dispatchLoop fuel s) = []
   ∨ maxParallel s ≤ Z.of_nat (size (activeTasks (dispatchLoop fuel s))))
  ∧ activeTasks s ⊆ activeTasks (dispatchLoop fuel s)
  ∧ ∀ i, i ∈ activeTasks (dispatchLoop fuel s) → i ∉ activeTasks s →
         (i < List.length (uploadUrls s))%nat
         ∧ (i ∉ completedChunks s)
         ∧ ∀ j, (j < i)%nat → j ∉ completedChunks s →
                j ∈ activeTasks (dispatchLoop fuel s).
Proof.
  induction fuel as [|fuel IH]; intros s Hfuel; [lia|]. cbn [dispatchLoop].
  destruct (Z.ltb_spec (Z.of_nat (size (activeTasks s))) (maxParallel s))
    as [Hroom|Hfull].
  2: { split; [by right|]. split; [done|]. by intros i Hi Hn. }
  destruct (getNextChunkIndex s) as [next|] eqn:Hnext.
  - pose proof (uploadChunk_pending s next Hnext) as Hless.
    destruct (IH (uploadChunk next s) ltac:(lia)) as (Hfill & Hsub & Hnew).
    destruct (getNextChunkIndex_Some s next Hnext) as (Hlt & Hdone & Hact).
    assert (Hin : next ∈ activeTasks (dispatchLoop fuel (uploadChunk next s))).
    { apply Hsub. unfold uploadChunk. cbn. set_solver. }
    split; [exact Hfill|]. split.
    { intros k Hk. apply Hsub. unfold uploadChunk. cbn. set_solver. }
    intros i Hi Hfresh. destruct (decide (i = next)) as [->|Hne].
    + split; [done|]. split; [done|]. intros j Hj Hjdone.
      destruct (getNextChunkIndex_first s next Hnext j Hj) as [?|Hjact];
        [done|].
      apply Hsub. unfold uploadChunk. cbn. set_solver.
    + apply Hnew; [done|]. unfold uploadChunk. cbn. set_solver.
  - pose proof (getNextChunkIndex_None_pending s Hnext) as Hnone.
    case_decide.
    + rewrite pendingChunks_complete.
      destruct (complete_fields s) as (-> & _).
      split; [by left|]. split; [done|]. by intros i Hi Hn.
    + split; [by left|]. split; [done|]. by intros i Hi Hn.
Qed.

Lemma dispatchLoop_keeps fuel s :
  activeTasks s ⊆ activeTasks (dispatchLoop fuel s).
Proof.
  destruct (dispatchLoop_cases fuel s) as [(_ & -> & _)|[_ Hsub]];
    [set_solver|done].
Qed.

(** The loop in full ends when every chunk it picks can be staged, and
    then does what [dispatchLoop] does. *)
Lemma dispatchLoopAt_ends staging fuel : ∀ s,
  (∀ i, i ∈ activeTasks (dispatchLoop fuel s) → i ∉ activeTasks s →
        staging i = None) →
  (List.length (pendingChunks s) < fuel)%nat →
  dispatchLoopAt staging fuel s = Some (dispatchLoop fuel s, []).
Proof.
  induction fuel as [|fuel IH]; intros s Hstaged Hfuel; [lia|].
  cbn [dispatchLoopAt]. cbn [dispatchLoop] in Hstaged |- *.
  destruct (Z.of_nat (size (activeTasks s)) <? maxParallel s); [|done].
  destruct (getNextChunkIndex s) as [next|] eqn:Hnext; [|done].
  pose proof (uploadChunk_pending s next Hnext) as Hless.
  destruct (getNextChunkIndex_Some s next Hnext) as (_ & _ & Hact).
  assert (Hin : next ∈ activeTasks (dispatchLoop fuel (uploadChunk next s))).
  { apply dispatchLoop_keeps. unfold uploadChunk. cbn. set_solver. }
  unfold uploadChunkAt. rewrite (Hstaged next Hin Hact).
  rewrite IH; [done| |lia].
  intros i Hi Hfresh. apply Hstaged; [done|].
  intros Hold. apply Hfresh. unfold uploadChunk. cbn. set_solver.
Qed.

(** The loop in full never ends when a chunk it would pick cannot be
    staged. *)
Lemma dispatchLoopAt_never staging i error fuel0 : ∀ s,
  i ∈ activeTasks (dispatchLoop fuel0 s) → i ∉ activeTasks s →
  staging i = Some error →
  ∀ fuel, dispatchLoopAt staging fuel s = None.
Proof.
  induction fuel0 as [|fuel0 IH]; intros s Hin Hfresh Hthrows; [done|].
  cbn [dispatchLoop] in Hin.
  destruct (Z.ltb_spec (Z.of_nat (size (activeTasks s))) (maxParallel s))
    as [Hroom|Hfull]; [|done].
  destruct (getNextChunkIndex s) as [next|] eqn:Hnext.
  2: { case_decide; [|done]. destruct (complete_fields s) as (Hsame & _).
       by rewrite Hsame in Hin. }
  destruct (staging next) as [error'|] eqn:Hnextstage.
  { intros fuel. by eapply dispatchLoopAt_spins. }
  assert (Hne : i ≠ next) by (intros ->; congruence).
  intros [|fuel]; [done|]. cbn [dispatchLoopAt].
  destruct (Z.ltb_spec (Z.of_nat (size (activeTasks s))) (maxParallel s));
    [|lia].
  rewrite Hnext. unfold uploadChunkAt. rewrite Hnextstage.
  rewrite (IH (uploadChunk next s)); [done|done| |done].
  unfold uploadChunk. cbn. set_solver.
Qed.

(** X18.  On iOS a pass of [uploadNextChunks] over an uploading session
    ends when every chunk it picks can be staged, and then leaves no slot
    idle: afterwards either no chunk is left to start or [maxParallel]
    tasks are in flight.  It cancels nothing, and it starts chunks lowest
    index first: every chunk it started was neither completed nor in
    flight, and all uncompleted chunks below it are in flight as well.
    When a chunk it picks cannot be staged, the pass never ends, and the
    turn that picks the chunk fails the upload.  ([staging] is the same on
    every turn of the pass.) *)
Theorem ios_dispatch_fills_free_slots staging (s : UploadSession) :
  state s = uploading →
  let after := uploadNextChunks s in
  ((∀ i, i ∈ activeTasks after → i ∉ activeTasks s → staging i = None) →
   uploadNextChunksAt staging (S (List.length (uploadUrls s))) s
   = Some (after, [])
   ∧ (pendingChunks after = []
      ∨ maxParallel s ≤ Z.of_nat (size (activeTasks after)))
   ∧ activeTasks s ⊆ activeTasks after
   ∧ ∀ i, i ∈ activeTasks after → i ∉ activeTasks s →
          (i < List.length (uploadUrls s))%nat
          ∧ (i ∉ completedChunks s)
          ∧ ∀ j, (j < i)%nat → j ∉ completedChunks s →
                 j ∈ activeTasks after)
  ∧ (∀ i error,
       i ∈ activeTasks after → i ∉ activeTasks s →
       staging i = Some error →
       ∀ fuel, uploadNextChunksAt staging fuel s = None)
  ∧ (∀ i error,
       staging i = Some error → hasResumedContinuation s = false →
       let '(failing, calls) := uploadChunkAt staging i s in
       state failing = failed
       ∧ resumedWith failing = Some (inl error)
       ∧ activeTasks failing = activeTasks s
       ∧ calls = [DidFailChunk i error]).
Proof.
  intros Hst after.
  assert (Hfuel : (List.length (pendingChunks s)
                   < S (List.length (uploadUrls s)))%nat).
  { unfold pendingChunks.
    eapply Nat.le_lt_trans; [apply length_filter|]. rewrite length_seq. lia. }
  assert (Hafter : after = dispatchLoop (S (List.length (uploadUrls s))) s).
  { unfold after, uploadNextChunks. by rewrite decide_True. }
  split; [|split].
  - intros Hstaged. split.
    + unfold uploadNextChunksAt. rewrite decide_True by done.
      rewrite Hafter in Hstaged |- *. by apply dispatchLoopAt_ends.
    + rewrite Hafter. by apply dispatchLoop_fills.
  - intros i error Hin Hfresh Hthrows fuel.
    unfold uploadNextChunksAt. rewrite decide_True by done.
    rewrite Hafter in Hin. by eapply dispatchLoopAt_never.
  - intros i error Hthrows Hpending.
    by apply uploadChunkAt_throws.
Qed.

Lemma ios_dispatch_fills_free_slots_witness :
  uploadNextChunksAt (λ _, None) 4 (with_state uploading false iosSession)
  = Some (uploadNextChunks (with_state uploading false iosSession), [])
  ∧ size (activeTasks
            (uploadNextChunks (with_state uploading false iosSession)))
    = 2%nat.
Proof.
  destruct (ios_dispatch_fills_free_slots (λ _, None)
              (with_state uploading false iosSession) eq_refl)
    as [Hends _].
  destruct (Hends ltac:(done)) as (Hpass & _).
  split; [exact Hpass|]. vm_compute. reflexivity.
Defined.

(** A set of numbers that holds everything below its members is an
    initial segment. *)
Lemma downward_closed_segment (X : gset nat) :
  (∀ i j, i ∈ X → (j < i)%nat → j ∈ X) → X = set_seq 0 (size X).
Proof.
  intros Hdown.
  assert (Hsub : X ⊆ set_seq 0 (size X)).
  { intros i Hi. apply elem_of_set_seq.
    destruct (decide (i < size X)%nat) as [?|Hge]; [lia|]. exfalso.
    assert (Hseg : (set_seq 0 (S i) : gset nat) ⊆ X).
    { intros j Hj%elem_of_set_seq. destruct (decide (j = i)) as [->|?];
        [done|]. apply (Hdown i); [done|lia]. }
    apply subseteq_size in Hseg. rewrite size_set_seq in Hseg. lia. }
  apply set_subseteq_size_eq; [done|]. by rewrite size_set_seq.
Qed.

(** The chunks [start()] puts in flight when they can be staged: the
    first [min(count, maxParallel)], and none when [maxParallel] is zero
    or negative. *)
Lemma start_dispatches_first env uploadId filePath uploadUrls maxParallel
    session :
  init env uploadId filePath uploadUrls maxParallel = inr session →
  activeTasks (start session)
  = set_seq 0 (Z.to_nat (Z.min (Z.of_nat (List.length uploadUrls))
                               maxParallel)).
Proof.
  intros Hinit.
  destruct (init_accepted _ _ _ _ _ _ Hinit)
    as (_ & Hurls & Hmax & _ & _ & Hact & Hdone & _).
  unfold start.
  set (s0 := with_state uploading (isPaused session) session).
  assert (Hs0 : state s0 = uploading ∧ activeTasks s0 = ∅
                ∧ completedChunks s0 = ∅ ∧ IOS.uploadUrls s0 = uploadUrls
                ∧ IOS.maxParallel s0 = maxParallel) by done.
  destruct Hs0 as (Hst & Hact0 & Hdone0 & Hurls0 & Hmax0).
  assert (Hpending : (List.length (pendingChunks s0)
                      < S (List.length (IOS.uploadUrls s0)))%nat).
  { unfold pendingChunks.
    eapply Nat.le_lt_trans; [apply length_filter|]. rewrite length_seq. lia. }
  pose proof (dispatchLoop_fills _ s0 Hpending) as Hloop.
  rewrite <- (uploadNextChunks_fuel s0 (S (List.length (IOS.uploadUrls s0)))
                Hst (Nat.lt_succ_diag_r _)) in Hloop.
  destruct Hloop as (Hfill & _ & Hnew).
  rewrite Hact0, Hdone0, Hurls0, Hmax0 in *.
  assert (Hwithin : WithinParallel (uploadNextChunks s0)).
  { apply uploadNextChunks_within. unfold WithinParallel.
    rewrite Hact0, size_empty. lia. }
  unfold WithinParallel in Hwithin.
  rewrite (uploadNextChunks_maxParallel s0), Hmax0 in Hwithin.
  set (A := activeTasks (uploadNextChunks s0)) in *.
  assert (Hrange : ∀ i, i ∈ A → (i < List.length uploadUrls)%nat).
  { intros i Hi. by destruct (Hnew i Hi ltac:(set_solver)). }
  assert (Hsize : (size A ≤ List.length uploadUrls)%nat).
  { assert (Hsub : A ⊆ set_seq 0 (List.length uploadUrls)).
    { intros i Hi. apply elem_of_set_seq. specialize (Hrange i Hi). lia. }
    apply subseteq_size in Hsub. by rewrite size_set_seq in Hsub. }
  rewrite (downward_closed_segment A).
  2: { intros i j Hi Hj.
       destruct (Hnew i Hi ltac:(set_solver)) as (_ & _ & Hbelow).
       apply Hbelow; [done|set_solver]. }
  f_equal. destruct Hfill as [Hnone|Hfull]; [|lia].
  assert (Hall : (set_seq 0 (List.length uploadUrls) : gset nat) ⊆ A).
  { intros i Hi%elem_of_set_seq.
    destruct (decide (i ∈ A)) as [?|Hout]; [done|]. exfalso.
    assert (Hmem : i ∈ pendingChunks (uploadNextChunks s0)).
    { unfold pendingChunks. apply list_elem_of_filter. split.
      - split; [|done].
        destruct (uploadNextChunks_shape s0) as [Heq|Heq]; rewrite Heq.
        + unfold complete. destruct (hasResumedContinuation s0); cbn;
            rewrite Hdone; set_solver.
        + cbn. rewrite Hdone. set_solver.
      - apply elem_of_seq.
        destruct (uploadNextChunks_shape s0) as [Heq|Heq]; rewrite Heq.
        + unfold complete. destruct (hasResumedContinuation s0); cbn;
            rewrite Hurls; lia.
        + cbn. rewrite Hurls. lia. }
    rewrite Hnone in Hmem. by apply elem_of_nil in Hmem. }
  apply subseteq_size in Hall. rewrite size_set_seq in Hall. lia.
Qed.

(** X19.  On iOS the block [start()] queues tries the first
    [min(count, maxParallel)] chunks, and none when [maxParallel] is zero
    or negative.  When these can be staged the block ends with exactly
    them in flight; when one of them cannot, the block never ends.
    ([staging] is the same on every turn.) *)
Theorem ios_start_dispatches_first_chunks staging env uploadId filePath
    uploadUrls maxParallel session :
  init env uploadId filePath uploadUrls maxParallel = inr session →
  let first : gset nat :=
    set_seq 0 (Z.to_nat (Z.min (Z.of_nat (List.length uploadUrls))
                               maxParallel)) in
  ((∀ i, i ∈ first → staging i = None) →
   ∃ started,
     uploadNextChunksAt staging (S (List.length uploadUrls))
       (beginStart session) = Some (started, [])
     ∧ activeTasks started = first
     ∧ state started = uploading)
  ∧ (∀ i error, i ∈ first → staging i = Some error →
       ∀ fuel,
         uploadNextChunksAt staging fuel (beginStart session) = None).
Proof.
  intros Hinit first.
  pose proof (start_dispatches_first _ _ _ _ _ _ Hinit) as Hfirst.
  fold first in Hfirst.
  destruct (init_accepted _ _ _ _ _ _ Hinit)
    as (_ & Hurls & _ & _ & _ & Hact & Hdone & _).
  assert (Hs0 : state (beginStart session) = uploading
                ∧ activeTasks (beginStart session) = ∅
                ∧ IOS.uploadUrls (beginStart session) = uploadUrls)
    by (by destruct session).
  destruct Hs0 as (Hst & Hact0 & Hurls0).
  assert (Hfuel : (List.length (pendingChunks (beginStart session))
                   < S (List.length uploadUrls))%nat).
  { unfold pendingChunks. rewrite Hurls0.
    eapply Nat.le_lt_trans; [apply length_filter|]. rewrite length_seq. lia. }
  assert (Hloop : start session
                  = dispatchLoop (S (List.length uploadUrls))
                      (beginStart session)).
  { unfold start. fold (beginStart session). unfold uploadNextChunks.
    by rewrite decide_True, Hurls0. }
  split.
  - intros Hstaged. exists (start session). split; [|split; [done|]].
    + unfold uploadNextChunksAt. rewrite decide_True by done.
      rewrite Hloop. apply dispatchLoopAt_ends; [|done].
      intros i Hi _. apply Hstaged. by rewrite <- Hfirst, Hloop.
    + rewrite (start_fresh _ _ _ _ _ _ Hinit
                 (init_urls _ _ _ _ _ _ Hinit)).
      by destruct session.
  - intros i error Hi Hthrows fuel.
    unfold uploadNextChunksAt. rewrite decide_True by done.
    eapply (dispatchLoopAt_never staging i error
              (S (List.length uploadUrls))); [|by rewrite Hact0|done].
    by rewrite <- Hloop, Hfirst.
Qed.

Lemma ios_start_dispatches_first_chunks_witness :
  ∃ started,
    uploadNextChunksAt (λ _, None) 4 (beginStart iosSession)
    = Some (started, [])
    ∧ activeTasks started = set_seq 0 2.
Proof.
  destruct (ios_start_dispatches_first_chunks (λ _, None)
              (iosFiles (11 * MiB)) "upload-1" "/video.mp4" threeUrls 2
              iosSession eq_refl) as [Hends _].
  destruct (Hends ltac:(done)) as (started & Hpass & Htasks & _).
  by exists started.
Defined.

End IOSDispatch.

(** ** The foreground service *)

Section ForegroundService.

Import UploadForegroundService.

(** What one intent asks for fits the flag it finds, and leaves the flag
    as the requests read. *)
Lemma onStartCommand_flag intent s rest :
  followsFlag (isServiceStarted s) ((onStartCommand intent s).2 ++ rest)
  = followsFlag (isServiceStarted (onStartCommand intent s).1) rest.
Proof.
  unfold onStartCommand. destruct intent as [i|]; [|done].
  destruct (action i) as [a|]; [|done].
  destruct (String.eqb a ACTION_START_UPLOAD).
  { unfold startForegroundService.
    by destruct (isServiceStarted s) eqn:E; cbn; rewrite ?E. }
  destruct (String.eqb a ACTION_UPDATE_PROGRESS).
  { unfold updateNotification.
    by destruct (isServiceStarted s) eqn:E; cbn; rewrite ?E. }
  destruct (String.eqb a ACTION_STOP_UPLOAD); [|done].
  unfold stopForegroundService.
  by destruct (isServiceStarted s) eqn:E; cbn; rewrite ?E.
Qed.

(** One intent keeps the service out of the foreground while its flag is
    down. *)
Lemma onStartCommand_foreground accepted intent s inForeground :
  (inForeground = true → isServiceStarted s = true) →
  foldl (systemAfter accepted) inForeground (onStartCommand intent s).2 = true →
  isServiceStarted (onStartCommand intent s).1 = true.
Proof.
  unfold onStartCommand. destruct intent as [i|]; [|by auto].
  destruct (action i) as [a|]; [|by auto].
  destruct (String.eqb a ACTION_START_UPLOAD).
  { unfold startForegroundService.
    destruct (isServiceStarted s) eqn:E; cbn; rewrite ?E; auto. }
  destruct (String.eqb a ACTION_UPDATE_PROGRESS).
  { unfold updateNotification.
    destruct (isServiceStarted s) eqn:E; cbn; rewrite ?E; auto. }
  destruct (String.eqb a ACTION_STOP_UPLOAD); [|by auto].
  unfold stopForegroundService.
  destruct (isServiceStarted s) eqn:E; cbn; rewrite ?E; auto.
Qed.

Lemma onStartCommand_bars intent s notification percent :
  notification ∈ notifications (onStartCommand intent s).2 →
  progressBar notification = Some percent → 0 ≤ percent ≤ 100.
Proof.
  assert (Hbar : ∀ uploadId p text,
    progressBar (createNotification uploadId p text) = Some percent →
    0 ≤ percent ≤ 100).
  { intros uploadId p text. unfold createNotification. cbn.
    destruct (Z.leb_spec 0 p), (Z.leb_spec p 100); cbn; try done.
    intros [= <-]. lia. }
  unfold onStartCommand. destruct intent as [i|]; [|by intros ?%elem_of_nil].
  destruct (action i) as [a|]; [|by intros ?%elem_of_nil].
  destruct (String.eqb a ACTION_START_UPLOAD).
  { unfold startForegroundService.
    destruct (isServiceStarted s); cbn; [by intros ?%elem_of_nil|].
    intros ->%list_elem_of_singleton. apply Hbar. }
  destruct (String.eqb a ACTION_UPDATE_PROGRESS).
  { unfold updateNotification.
    destruct (isServiceStarted s); cbn; [|by intros ?%elem_of_nil].
    intros ->%list_elem_of_singleton. apply Hbar. }
  destruct (String.eqb a ACTION_STOP_UPLOAD); [|by intros ?%elem_of_nil].
  unfold stopForegroundService.
  destruct (isServiceStarted s); cbn; by intros ?%elem_of_nil.
Qed.

Lemma runService_cons intent accepted intents s inForeground :
  runService ((intent, accepted) :: intents) s inForeground
  = let rest :=
      runService intents (onStartCommand intent s).1
        (foldl (systemAfter accepted) inForeground
           (onStartCommand intent s).2) in
    (rest.1.1, rest.1.2, (onStartCommand intent s).2 ++ rest.2).
Proof.
  cbn [runService]. destruct (onStartCommand intent s) as [s1 requests].
  cbn [fst snd]. by destruct (runService intents s1 _) as [[s2 fg] requests'].
Qed.

(** X21.  Whatever intents reach the foreground service, in whatever
    order, and whether or not its calls of [startForeground] succeed, its
    requests to the system are in step with its own flag: it asks to enter
    the foreground only when [isServiceStarted] is false, posts
    notifications and leaves the foreground only while it is true, and
    stops itself right after leaving; and it is in the foreground only
    while the flag is true.  The flag does not tell that it is in the
    foreground: when [startForeground] throws the flag is up all the same,
    and the next start is ignored.  Every progress bar it shows is within
    0 and 100. *)
Theorem service_requests_follow_flag :
  (∀ intents s inForeground,
     (inForeground = true → isServiceStarted s = true) →
     let '(s', inForeground', requests) :=
       runService intents s inForeground in
     followsFlag (isServiceStarted s) requests = Some (isServiceStarted s')
     ∧ (inForeground' = true → isServiceStarted s' = true)
     ∧ ∀ notification percent,
         notification ∈ notifications requests →
         progressBar notification = Some percent → 0 ≤ percent ≤ 100)
  ∧ (let '(s', inForeground', requests) :=
       runService [(Some (startUploadService "upload-1"), false);
                   (Some (startUploadService "upload-1"), true)]
         created false in
     isServiceStarted s' = true ∧ inForeground' = false
     ∧ requests
       = [StartForeground (createNotification (Some "upload-1"%string) 0
                             "Starting upload...")]).
Proof.
  split; [|vm_compute; by repeat split].
  intros intents. induction intents as [|[intent accepted] intents IH];
    intros s inForeground Hinv.
  { cbn. split; [done|]. split; [done|]. by intros n p Hn%elem_of_nil. }
  rewrite runService_cons. cbv zeta.
  specialize (IH (onStartCommand intent s).1
                (foldl (systemAfter accepted) inForeground
                   (onStartCommand intent s).2)
                (onStartCommand_foreground accepted intent s inForeground
                   Hinv)).
  destruct (runService intents _ _) as [[s2 fg] requests'].
  destruct IH as (Hflag & Hfg & Hbars). cbn [fst snd].
  split; [by rewrite onStartCommand_flag|]. split; [done|].
  intros notification percent. unfold notifications.
  rewrite omap_app, elem_of_app. intros [Hin|Hin].
  - by apply (onStartCommand_bars intent s notification).
  - by apply Hbars.
Qed.

Lemma service_requests_follow_flag_witness :
  let '(s', inForeground', requests) :=
    runService [(Some (startUploadService "upload-1"), true);
                (Some (updateProgress "upload-1" 50 "Uploading... 50%"), true);
                (Some stopUploadService, true)]
      created false in
  followsFlag false requests = Some (isServiceStarted s')
  ∧ isServiceStarted s' = false ∧ inForeground' = false.
Proof.
  destruct service_requests_follow_flag as [Hruns _].
  specialize (Hruns [(Some (startUploadService "upload-1"), true);
                     (Some (updateProgress "upload-1" 50 "Uploading... 50%"),
                      true);
                     (Some stopUploadService, true)]
                created false ltac:(done)).
  destruct (runService _ _ _) as [[s' fg] requests] eqn:Hrun.
  destruct Hruns as (Hflag & _ & _).
  split; [exact Hflag|].
  vm_compute in Hrun. by injection Hrun as <- <- _.
Defined.

End ForegroundService.

(** ** The ETag of an Android part *)

Section AndroidETag.

Import Android.

Lemma filter_none {A} (P : A → Prop) `{∀ x, Decision (P x)} (l : list A) :
  (∀ x, x ∈ l → ¬ P x) → filter P l = [].
Proof.
  intros Hno. apply elem_of_nil_inv. intros x [HP Hx]%list_elem_of_filter.
  by apply (Hno x).
Qed.

(** [Response.header] finds the last field of the name, in any letter
    case. *)
Lemma header_last name before field value after :
  lowercase field = lowercase name →
  (∀ field' value', (field', value') ∈ after →
     lowercase field' ≠ lowercase name) →
  header name (before ++ (field, value) :: after) = Some value.
Proof.
  intros Hfield Hafter. unfold header.
  rewrite filter_app, filter_cons_True.
  2: { cbn. unfold equalsIgnoreCase. rewrite Hfield. apply String.eqb_refl. }
  rewrite (filter_none _ after).
  2: { intros [field' value'] Hin. cbn. unfold equalsIgnoreCase.
       intros Heq%String.eqb_eq. by apply (Hafter field' value' Hin). }
  by rewrite last_snoc.
Qed.

(** X22.  On Android the ETag recorded for a part comes from the last
    response header named [etag] in any letter case, whatever other
    headers surround it: it is that header's value without the quote
    characters at its two ends, and neither starts nor ends with a quote
    character itself. *)
Theorem android_etag_from_last_header before field value after :
  lowercase field = "etag"%string →
  (∀ field' value', (field', value') ∈ after →
     lowercase field' ≠ "etag"%string) →
  responseETag (before ++ (field, value) :: after) = trim quote value
  ∧ (∃ front back,
       value = (front +:+ responseETag (before ++ (field, value) :: after)
                +:+ back)%string
       ∧ onlyChar quote front = true ∧ onlyChar quote back = true)
  ∧ (∀ a rest, responseETag (before ++ (field, value) :: after)
                 = String a rest → a ≠ quote)
  ∧ (∀ front, responseETag (before ++ (field, value) :: after)
              ≠ (front +:+ String quote EmptyString)%string).
Proof.
  intros Hfield Hafter.
  assert (Hetag : responseETag (before ++ (field, value) :: after)
                  = trim quote value).
  { unfold responseETag.
    by rewrite (header_last "ETag" before field value after Hfield Hafter). }
  rewrite Hetag. split; [done|]. split; [apply trim_decompose|].
  split; [apply trim_head|apply trim_last].
Qed.

Lemma android_etag_from_last_header_witness :
  responseETag
    [("Content-Length", "0"); ("ETag", "stale");
     ("etag", String quote ("9b2cf535" +:+ String quote ""));
     ("Server", "AmazonS3")]%string
  = "9b2cf535"%string.
Proof.
  destruct (android_etag_from_last_header
              [("Content-Length", "0"); ("ETag", "stale")]%string
              "etag" (String quote ("9b2cf535" +:+ String quote ""))
              [("Server", "AmazonS3")]%string) as [Hetag _].
  - reflexivity.
  - intros field' value' Hin%list_elem_of_singleton.
    injection Hin as -> ->. discriminate.
  - exact Hetag.
Defined.

End AndroidETag.

(** ** The end of an Android upload *)

Section AndroidEnd.

Import Android.

(** X23.  On Android an upload is forgotten as soon as its job ends,
    whatever the result: the [finally] of the job removes both registry
    entries, so afterwards [getUploadState] rejects with the no-upload
    error and [pauseUpload] and [resumeUpload] with the not-found error;
    the states "completed" and "failed" can be seen only while the job
    runs.  The entries of other uploads stay. *)
Theorem android_finished_upload_is_forgotten uploadId launch ticksOf order u
    finished :
  uploadJob uploadId launch ticksOf order u = Some finished →
  next finished = cleanup uploadId u
  ∧ getUploadState uploadId (next finished) = inl (NoUploadFound uploadId)
  ∧ value (pauseUpload uploadId (next finished))
    = inl (UploadNotFound uploadId)
  ∧ value (resumeUpload uploadId (next finished))
    = inl (UploadNotFound uploadId)
  ∧ ∀ other, other ≠ uploadId →
      activeUploads (next finished) !! other = activeUploads u !! other
      ∧ uploadStates (next finished) !! other = uploadStates u !! other.
Proof.
  intros Hjob.
  assert (Hnext : next finished = cleanup uploadId u).
  { revert Hjob. unfold uploadJob.
    destruct (uploadStates u !! uploadId); [|by intros [= <-]].
    destruct (activeUploads u !! uploadId); [|by intros [= <-]].
    destruct (performUpload _ _ _ _ _ _) as [[[state log] result]|]; [|done].
    by intros [= <-]. }
  rewrite Hnext. split; [done|].
  unfold getUploadState, pauseUpload, resumeUpload, cleanup. cbn.
  rewrite !lookup_delete_eq. split_and!; try done.
  intros other Hother. by rewrite !lookup_delete_ne.
Qed.

Lemma android_finished_upload_is_forgotten_witness :
  ∃ finished,
    uploadJob "upload-1"
      {| l_filePath := "/video.mp4"; l_uploadUrls := threeUrls;
         l_fileSize := 11 * MiB; l_maxParallel := 2 |}
      sampleTicks [2; 0; 1]%nat androidUploading = Some finished
    ∧ getUploadState "upload-1" (next finished)
      = inl (NoUploadFound "upload-1").
Proof.
  destruct (uploadJob "upload-1"
              {| l_filePath := "/video.mp4"; l_uploadUrls := threeUrls;
                 l_fileSize := 11 * MiB; l_maxParallel := 2 |}
              sampleTicks [2; 0; 1]%nat androidUploading)
    as [finished|] eqn:Hjob; [|vm_compute in Hjob; discriminate Hjob].
  exists finished. split; [done|].
  by destruct (android_finished_upload_is_forgotten _ _ _ _ _ _ Hjob)
    as (_ & Hstate & _).
Defined.






End AndroidEnd.

(** ** What an iOS session has recorded stays *)

Section IOSProgress.

Import IOS.

(** X25.  On iOS progress never goes back: for an accepted non-empty file
    below 2^53 bytes and at most 5 MiB + 1 URLs, whatever callbacks,
    pauses, resumes and cancels follow a point of a run, [bytesUploaded]
    does not decrease, a chunk that was completed stays completed, and its
    ETag stays the one that was recorded. *)
Theorem ios_progress_never_goes_back env uploadId filePath uploadUrls
    maxParallel session steps s log later s' log' :
  init env uploadId filePath uploadUrls maxParallel = inr session →
  uploadUrls ≠ [] →
  Z.of_nat (List.length uploadUrls) ≤ 5 * 1024 * 1024 + 1 →
  0 < totalBytes session →
  totalBytes session < 2 ^ 53 →
  runSession steps (start session) = (s, log) →
  runSession later s = (s', log') →
  bytesUploaded s ≤ bytesUploaded s'
  ∧ completedChunks s ⊆ completedChunks s'
  ∧ ∀ k, k ∈ completedChunks s → etags s' !! k = etags s !! k.
Proof.
  intros Hinit Hne Hmany Hpos Hsmall Hrun Hlater.
  destruct (init_accepted _ _ _ _ _ _ Hinit) as (_ & Hurls & _).
  destruct (init_plan _ _ _ _ _ _ Hinit Hne Hmany ltac:(lia))
    as (Hc & _ & Hlast).
  set (n := List.length uploadUrls) in *.
  assert (Hn : (1 ≤ n)%nat) by (destruct uploadUrls; [done|cbn; lia]).
  set (c := chunkSize session) in *. set (total := totalBytes session) in *.
  assert (Hmin : 0 < minimumChunkSize) by done.
  assert (Hnonneg : ∀ k, (k < n)%nat → 0 ≤ chunkLength c total k).
  { intros k Hk. unfold chunkLength, chunkOffset.
    assert (Z.of_nat k * c ≤ (Z.of_nat n - 1) * c)
      by (apply Z.mul_le_mono_nonneg_r; lia).
    lia. }
  pose proof (inv_run steps _ [] _ _ (inv_start _ _ _ _ _ _ Hinit) Hrun)
    as Hinv. cbn in Hinv.
  pose proof (inv_run later _ _ _ _ Hinv Hlater) as Hinv'.
  assert (Hfields : totalBytes (start session) = total
                    ∧ chunkSize (start session) = c
                    ∧ bytesUploaded (start session) = 0).
  { unfold start.
    destruct (uploadNextChunks_bytes (with_state uploading (isPaused session)
                                        session)) as (-> & -> & ->).
    cbn. split; [done|]. split; [done|].
    apply (init_bytes _ _ _ _ _ _ Hinit). }
  destruct Hfields as (Ht0 & Hc0 & Hb0).
  destruct (run_bytes steps (start session) [] s log
              ltac:(by rewrite Hb0) Hrun) as (Hb & Ht & Hcs).
  rewrite Ht0, Hc0 in Hb. rewrite Ht0 in Ht. rewrite Hc0 in Hcs.
  rewrite app_nil_l in Hb.
  destruct (run_bytes later s log s' log'
              ltac:(by rewrite Ht, Hcs) Hlater) as (Hb' & _ & _).
  rewrite Ht, Hcs in Hb'.
  assert (Hurls' : IOS.uploadUrls s' = uploadUrls).
  { rewrite (runSession_urls _ _ _ _ Hlater), (runSession_urls _ _ _ _ Hrun).
    unfold start. by rewrite uploadNextChunks_urls. }
  split; [|split].
  - rewrite Hb, Hb', fmap_app, sumOver_app.
    assert (0 ≤ sumOver (chunkLength c total) log'.*1); [|lia].
    apply sumOver_nonneg. intros k Hk. apply Hnonneg.
    assert (Hdone : k ∈ completedChunks s').
    { apply (inv_completed _ _ Hinv'). rewrite fmap_app.
      apply elem_of_app. by right. }
    apply (inv_range _ _ Hinv') in Hdone. rewrite Hurls' in Hdone. done.
  - intros k Hk. apply (inv_completed _ _ Hinv').
    apply (inv_completed _ _ Hinv) in Hk. rewrite fmap_app.
    apply elem_of_app. by left.
  - intros k Hk. apply (inv_completed _ _ Hinv) in Hk.
    apply list_elem_of_fmap in Hk as ([k' e] & -> & Hin). cbn.
    rewrite (inv_logged _ _ Hinv _ _ Hin).
    apply (inv_logged _ _ Hinv'). apply elem_of_app. by left.
Qed.

Lemma ios_progress_never_goes_back_witness :
  bytesUploaded (runSession (take 2 outOfOrderSteps) (start iosSession)).1
  ≤ bytesUploaded outOfOrderRun.1.
Proof.
  destruct (runSession (take 2 outOfOrderSteps) (start iosSession))
    as [s log] eqn:Hrun.
  destruct (runSession (drop 2 outOfOrderSteps) s) as [s' log'] eqn:Hlater.
  destruct (ios_progress_never_goes_back (iosFiles (11 * MiB)) "upload-1"
              "/video.mp4" threeUrls 2 iosSession (take 2 outOfOrderSteps)
              s log (drop 2 outOfOrderSteps) s' log' eq_refl) as (Hb & _).
  - done.
  - cbn. lia.
  - done.
  - done.
  - exact Hrun.
  - exact Hlater.
  - cbn [fst]. assert (Heq : outOfOrderRun.1 = s'); [|by rewrite Heq].
    vm_compute in Hrun. injection Hrun as <- _.
    vm_compute in Hlater. injection Hlater as <- _.
    vm_compute. reflexivity.
Defined.

End IOSProgress.
